(** * Web asset server: persistence, storage, auth and API layers

    A shallow embedding of [web_server/db.py], [web_server/storage.py],
    [web_server/auth.py] and the handlers of [web_server/app.py] that the
    properties below talk about.

    Conventions of the embedding.
    - A table is the list of its rows in insertion (rowid) order.  The
      AUTOINCREMENT [id] columns are never selected by any query of the
      program and are left out.
    - Every operation of [db.py] opens one read-write connection and commits
      once; the effect of a call that returns is therefore one function
      [DB -> DB].  A call that raises leaves the database as it was: the
      connection is closed without a commit.
    - [utcnow()] is the reading of the clock at the call; it is an explicit
      argument [now] of every operation that reads it.
    - JSON text columns ([metadata_json], [payload_json]) hold the
      dictionary that [json.dumps] serialises and [json.loads] parses back.
    - The functions of the persistence layer give the effect of a call
      whose arguments can be bound to its statements (text, and integers
      in SQLite's INTEGER range).  The call itself, which raises when an
      argument cannot be bound, is [invoke], [list_changes_call] and
      [update_asset_call] of the section on calls that raise.
    - [ORDER BY] returns rows that compare equal in table order.
    - Text is a string of bytes, UTF-8 for what Python holds as [str].
      [lower] is [str.lower] on ASCII text; a statement whose conclusion
      depends on the case of a text assumes [is_ascii] of it. *)

From Stdlib Require Import ZArith Ascii String List Permutation Lia.
From Stdlib Require Import DecimalString.
From stdpp Require Import base tactics option list strings gmap sorting.

Open Scope Z_scope.

(** ** Data model *)

(** JSON scalars that occur in payloads and metadata. *)
Inductive jval : Type :=
  | JStr (s : string)
  | JInt (z : Z).

Record asset_row : Type := mk_asset {
  a_id : string;
  a_name : string;
  a_family : string;
  a_description : string;
  a_tags : string;
  a_status : string;
  a_created_at : string;
  a_updated_at : string
}.

Record version_row : Type := mk_version {
  v_asset_id : string;
  v_version : Z;
  v_metadata_json : gmap string jval;
  v_thumbnail_path : string;
  v_archived : Z;
  v_created_at : string;
  v_updated_at : string
}.

Record file_row : Type := mk_file {
  f_asset_id : string;
  f_version : Z;
  f_filename : string;
  f_rel_path : string;
  f_format : string;
  f_size_bytes : Z
}.

Record comment_row : Type := mk_comment {
  c_asset_id : string;
  c_author : string;
  c_body : string;
  c_created_at : string
}.

Record change_row : Type := mk_change {
  ch_change_type : string;
  ch_asset_id : string;
  ch_payload_json : gmap string jval;
  ch_created_at : string
}.

Record DB : Type := mk_db {
  assets : list asset_row;
  versions : list version_row;
  files : list file_row;
  comments : list comment_row;
  changes : list change_row
}.

(** [init_db] on a fresh database file: the five tables, all empty. *)
Definition init_db : DB := mk_db [] [] [] [] [].

(** ** SQL statements over row lists *)

Section sql.
Context {row : Type}.

(** [INSERT INTO t VALUES r] *)
Definition sql_insert (r : row) (t : list row) : list row := t ++ [r].

(** [UPDATE t SET ... WHERE P] *)
Definition sql_update (P : row → Prop) `{!∀ r, Decision (P r)}
    (f : row → row) (t : list row) : list row :=
  (λ r, if decide (P r) then f r else r) <$> t.

(** [DELETE FROM t WHERE P] *)
Definition sql_delete (P : row → Prop) `{!∀ r, Decision (P r)}
    (t : list row) : list row :=
  filter (λ r, ¬ P r) t.

(** [SELECT ... FROM t WHERE P] *)
Definition sql_select (P : row → Prop) `{!∀ r, Decision (P r)}
    (t : list row) : list row :=
  filter P t.

(** [LIMIT n]: a negative [n] puts no bound on the number of rows. *)
Definition sql_limit (n : Z) (t : list row) : list row :=
  if decide (n < 0) then t else take (Z.to_nat n) t.
End sql.

(** [ORDER BY] over a row list: the rows in the order of [R], rows that
    compare equal staying in table (rowid) order, which is the order in
    which SQLite returns ties for the single-table queries of [db.py]. *)
Section order_by.
Context {row : Type} (R : relation row) `{!∀ x y, Decision (R x y)}.

Fixpoint insert_row (x : row) (l : list row) : list row :=
  match l with
  | [] => [x]
  | y :: l' => if decide (R x y) then x :: l else y :: insert_row x l'
  end.

Definition order_by (l : list row) : list row := foldr insert_row [] l.
End order_by.

(** [INSERT INTO changes(change_type, asset_id, payload_json, created_at)] *)
Definition insert_change (change_type asset_id : string)
    (payload : gmap string jval) (now : string) (db : DB) : DB :=
  mk_db (assets db) (versions db) (files db) (comments db)
        (sql_insert (mk_change change_type asset_id payload now) (changes db)).

Definition set_assets (t : list asset_row) (db : DB) : DB :=
  mk_db t (versions db) (files db) (comments db) (changes db).
Definition set_versions (t : list version_row) (db : DB) : DB :=
  mk_db (assets db) t (files db) (comments db) (changes db).
Definition set_files (t : list file_row) (db : DB) : DB :=
  mk_db (assets db) (versions db) t (comments db) (changes db).
Definition set_comments (t : list comment_row) (db : DB) : DB :=
  mk_db (assets db) (versions db) (files db) t (changes db).

(** ** Persistence layer ([db.py]) *)

Definition is_asset (asset_id : string) (r : asset_row) : Prop :=
  a_id r = asset_id.
Definition is_version (asset_id : string) (version : Z) (r : version_row) : Prop :=
  v_asset_id r = asset_id ∧ v_version r = version.
Definition is_file (asset_id : string) (version : Z) (r : file_row) : Prop :=
  f_asset_id r = asset_id ∧ f_version r = version.

#[global] Instance is_asset_dec asset_id r : Decision (is_asset asset_id r).
Proof. unfold is_asset. apply _. Defined.
#[global] Instance is_version_dec asset_id version r :
  Decision (is_version asset_id version r).
Proof. unfold is_version. apply _. Defined.
#[global] Instance is_file_dec asset_id version r :
  Decision (is_file asset_id version r).
Proof. unfold is_file. apply _. Defined.

Definition ensure_asset (asset_id name family description tags : string)
    (now : string) (db : DB) : DB :=
  let db1 :=
    match sql_select (is_asset asset_id) (assets db) with
    | _ :: _ =>
        set_assets
          (sql_update (is_asset asset_id)
             (λ r, mk_asset (a_id r) name family (a_description r) (a_tags r)
                            (a_status r) (a_created_at r) now)
             (assets db)) db
    | [] =>
        set_assets
          (sql_insert
             (mk_asset asset_id name family description tags "published" now now)
             (assets db)) db
    end in
  insert_change "asset_upsert" asset_id
    {[ "name" := JStr name; "family" := JStr family ]} now db1.

(** [INSERT OR IGNORE] under [UNIQUE(asset_id, version)]: the row is
    dropped when a row with the same pair is already in the table. *)
Definition insert_or_ignore_version (r : version_row) (t : list version_row)
    : list version_row :=
  match sql_select (is_version (v_asset_id r) (v_version r)) t with
  | _ :: _ => t
  | [] => sql_insert r t
  end.

Definition upsert_version (asset_id : string) (version : Z)
    (metadata : gmap string jval) (thumbnail_path : string)
    (now : string) (db : DB) : DB :=
  let t1 :=
    insert_or_ignore_version
      (mk_version asset_id version metadata thumbnail_path 0 now now)
      (versions db) in
  let t2 :=
    sql_update (is_version asset_id version)
      (λ r, mk_version (v_asset_id r) (v_version r) metadata thumbnail_path
                       (v_archived r) (v_created_at r) now) t1 in
  insert_change "version_upsert" asset_id {[ "version" := JInt version ]} now
    (set_versions t2 db).

Definition add_file (asset_id : string) (version : Z)
    (filename rel_path fmt : string) (size_bytes : Z)
    (now : string) (db : DB) : DB :=
  insert_change "file_added" asset_id
    {[ "version" := JInt version; "filename" := JStr filename ]} now
    (set_files
       (sql_insert (mk_file asset_id version filename rel_path fmt size_bytes)
          (files db)) db).

(** The dictionaries [get_asset] builds for version and file rows. *)
Record version_entry : Type := mk_version_entry {
  ve_version : Z;
  ve_metadata : gmap string jval;
  ve_thumbnail_path : string;
  ve_archived : bool;
  ve_created_at : string;
  ve_updated_at : string
}.

Record file_entry : Type := mk_file_entry {
  fe_version : Z;
  fe_filename : string;
  fe_rel_path : string;
  fe_format : string;
  fe_size_bytes : Z
}.

Record asset_detail : Type := mk_asset_detail {
  ad_id : string;
  ad_name : string;
  ad_family : string;
  ad_description : string;
  ad_tags : string;
  ad_status : string;
  ad_created_at : string;
  ad_updated_at : string;
  ad_versions : list version_entry;
  ad_files : list file_entry
}.

(** [ORDER BY version DESC] *)
Definition version_desc (r1 r2 : version_row) : Prop :=
  v_version r2 ≤ v_version r1.

#[global] Instance version_desc_dec r1 r2 : Decision (version_desc r1 r2).
Proof. unfold version_desc. apply _. Defined.

Definition version_entry_of (v : version_row) : version_entry :=
  mk_version_entry (v_version v) (v_metadata_json v) (v_thumbnail_path v)
    (negb (v_archived v =? 0)) (v_created_at v) (v_updated_at v).

Definition file_entry_of (f : file_row) : file_entry :=
  mk_file_entry (f_version f) (f_filename f) (f_rel_path f) (f_format f)
    (f_size_bytes f).

Definition get_asset (asset_id : string) (db : DB) : option asset_detail :=
  match sql_select (is_asset asset_id) (assets db) with
  | [] => None
  | a :: _ =>
      let versions :=
        merge_sort version_desc
          (sql_select (λ r, v_asset_id r = asset_id) (versions db)) in
      let files := sql_select (λ r, f_asset_id r = asset_id) (files db) in
      Some (mk_asset_detail (a_id a) (a_name a) (a_family a) (a_description a)
              (a_tags a) (a_status a) (a_created_at a) (a_updated_at a)
              (version_entry_of <$> versions) (file_entry_of <$> files))
  end.

(** The whitelist of [update_asset]. *)
Definition allow : gset string :=
  {[ "name"; "description"; "tags"; "status" ]}.

(** One [k = ?] assignment of the generated [UPDATE assets SET ...]. *)
Definition set_column (r : asset_row) (kv : string * string) : asset_row :=
  let k := kv.1 in
  let v := kv.2 in
  if decide (k = "name") then
    mk_asset (a_id r) v (a_family r) (a_description r) (a_tags r)
             (a_status r) (a_created_at r) (a_updated_at r)
  else if decide (k = "description") then
    mk_asset (a_id r) (a_name r) (a_family r) v (a_tags r)
             (a_status r) (a_created_at r) (a_updated_at r)
  else if decide (k = "tags") then
    mk_asset (a_id r) (a_name r) (a_family r) (a_description r) v
             (a_status r) (a_created_at r) (a_updated_at r)
  else if decide (k = "status") then
    mk_asset (a_id r) (a_name r) (a_family r) (a_description r) (a_tags r)
             v (a_created_at r) (a_updated_at r)
  else r.

Definition set_updated_at (now : string) (r : asset_row) : asset_row :=
  mk_asset (a_id r) (a_name r) (a_family r) (a_description r) (a_tags r)
           (a_status r) (a_created_at r) now.

(** [fields] is the Python dict of the call; the column values are text. *)
Definition update_asset (asset_id : string) (fields : gmap string string)
    (now : string) (db : DB) : DB :=
  let sets := filter (λ kv, kv.1 ∈ allow) (map_to_list fields) in
  match sets with
  | [] => db
  | _ :: _ =>
      let db1 :=
        set_assets
          (sql_update (is_asset asset_id)
             (λ r, set_updated_at now (foldl set_column r sets))
             (assets db)) db in
      insert_change "asset_update" asset_id
        (JStr <$> filter (λ kv, kv.1 ∈ allow) fields) now db1
  end.

Definition archive_version (asset_id : string) (version : Z)
    (now : string) (db : DB) : DB :=
  insert_change "version_archived" asset_id {[ "version" := JInt version ]} now
    (set_versions
       (sql_update (is_version asset_id version)
          (λ r, mk_version (v_asset_id r) (v_version r) (v_metadata_json r)
                           (v_thumbnail_path r) 1 (v_created_at r) now)
          (versions db)) db).

Definition delete_version (asset_id : string) (version : Z)
    (now : string) (db : DB) : DB :=
  let db1 := set_files (sql_delete (is_file asset_id version) (files db)) db in
  let db2 :=
    set_versions (sql_delete (is_version asset_id version) (versions db1)) db1 in
  insert_change "version_deleted" asset_id {[ "version" := JInt version ]} now db2.

Definition delete_asset (asset_id : string) (now : string) (db : DB) : DB :=
  let db1 :=
    set_files (sql_delete (λ r, f_asset_id r = asset_id) (files db)) db in
  let db2 :=
    set_versions (sql_delete (λ r, v_asset_id r = asset_id) (versions db1)) db1 in
  let db3 :=
    set_comments (sql_delete (λ r, c_asset_id r = asset_id) (comments db2)) db2 in
  let db4 := set_assets (sql_delete (is_asset asset_id) (assets db3)) db3 in
  insert_change "asset_deleted" asset_id ∅ now db4.

Definition add_comment (asset_id author body : string)
    (now : string) (db : DB) : DB :=
  insert_change "comment" asset_id {[ "author" := JStr author ]} now
    (set_comments
       (sql_insert (mk_comment asset_id author body now) (comments db)) db).

(** [created_at > ?] and [ORDER BY created_at ASC]: TEXT values compare
    bytewise, which is the lexicographic order of [String.compare]. *)
Definition ts_lt (s1 s2 : string) : Prop := String.ltb s1 s2 = true.

#[global] Instance ts_lt_dec s1 s2 : Decision (ts_lt s1 s2).
Proof. unfold ts_lt. apply _. Defined.

Definition created_asc (r1 r2 : change_row) : Prop :=
  String.le (ch_created_at r1) (ch_created_at r2).

#[global] Instance created_asc_dec r1 r2 : Decision (created_asc r1 r2).
Proof. unfold created_asc. apply _. Defined.

(** The default of the [limit] parameter. *)
Definition default_limit : Z := 100.

(** [since_iso] is [None] when the argument is [None]; an empty string is
    falsy and takes the same branch.  The returned dictionaries carry the
    four fields of the change row. *)
Definition list_changes (since_iso : option string) (limit : Z) (db : DB)
    : list change_row :=
  match since_iso with
  | Some s =>
      if decide (s = "") then
        sql_limit limit (order_by created_asc (changes db))
      else
        sql_limit limit
          (order_by created_asc
             (sql_select (λ r, ts_lt s (ch_created_at r)) (changes db)))
  | None => sql_limit limit (order_by created_asc (changes db))
  end.

(** ** Sequences of mutating calls *)

Inductive call : Type :=
  | EnsureAsset (asset_id name family description tags now : string)
  | UpsertVersion (asset_id : string) (version : Z)
      (metadata : gmap string jval) (thumbnail_path now : string)
  | AddFile (asset_id : string) (version : Z) (filename rel_path fmt : string)
      (size_bytes : Z) (now : string)
  | UpdateAsset (asset_id : string) (fields : gmap string string) (now : string)
  | ArchiveVersion (asset_id : string) (version : Z) (now : string)
  | DeleteVersion (asset_id : string) (version : Z) (now : string)
  | DeleteAsset (asset_id now : string)
  | AddComment (asset_id author body now : string).

Definition exec (c : call) (db : DB) : DB :=
  match c with
  | EnsureAsset i n f d t now => ensure_asset i n f d t now db
  | UpsertVersion i v m th now => upsert_version i v m th now db
  | AddFile i v fn rp fmt sz now => add_file i v fn rp fmt sz now db
  | UpdateAsset i fs now => update_asset i fs now db
  | ArchiveVersion i v now => archive_version i v now db
  | DeleteVersion i v now => delete_version i v now db
  | DeleteAsset i now => delete_asset i now db
  | AddComment i a b now => add_comment i a b now db
  end.

Definition run (cs : list call) (db : DB) : DB :=
  foldl (λ d c, exec c d) db cs.

(** The change type each operation logs under. *)
Definition change_type_of (c : call) : string :=
  match c with
  | EnsureAsset _ _ _ _ _ _ => "asset_upsert"
  | UpsertVersion _ _ _ _ _ => "version_upsert"
  | AddFile _ _ _ _ _ _ _ => "file_added"
  | UpdateAsset _ _ _ => "asset_update"
  | ArchiveVersion _ _ _ => "version_archived"
  | DeleteVersion _ _ _ => "version_deleted"
  | DeleteAsset _ _ => "asset_deleted"
  | AddComment _ _ _ _ => "comment"
  end.

Definition clock_of (c : call) : string :=
  match c with
  | EnsureAsset _ _ _ _ _ now => now
  | UpsertVersion _ _ _ _ now => now
  | AddFile _ _ _ _ _ _ now => now
  | UpdateAsset _ _ now => now
  | ArchiveVersion _ _ now => now
  | DeleteVersion _ _ now => now
  | DeleteAsset _ now => now
  | AddComment _ _ _ now => now
  end.

(** ** Storage layer ([storage.py])

    [os.path.join] and [os.path.normpath] in their POSIX flavour
    ([posixpath]); [root] is the module constant [ROOT]. *)

(** [s.split('/')] *)
Fixpoint split_slash (s : string) : list string :=
  match s with
  | EmptyString => [EmptyString]
  | String c s' =>
      if Ascii.eqb c "/" then EmptyString :: split_slash s'
      else
        match split_slash s' with
        | h :: t => String c h :: t
        | [] => [String c EmptyString]
        end
  end.

(** [s.endswith('/')] *)
Fixpoint ends_with_slash (s : string) : bool :=
  match s with
  | EmptyString => false
  | String c EmptyString => Ascii.eqb c "/"
  | String _ s' => ends_with_slash s'
  end.

(** [posixpath.join(a, b)] *)
Definition join (a b : string) : string :=
  if String.prefix "/" b then b
  else if String.eqb a "" || ends_with_slash a then a +:+ b
  else a +:+ "/" +:+ b.

(** The count [normpath] keeps of leading slashes: 0, 1, or 2 for exactly
    two. *)
Definition initial_slashes (path : string) : nat :=
  if String.prefix "/" path then
    if String.prefix "//" path && negb (String.prefix "///" path)
    then 2%nat else 1%nat
  else 0%nat.

(** The body of the loop over [comps] in [normpath]. *)
Definition norm_step (slashes : nat) (new_comps : list string) (comp : string)
    : list string :=
  if decide (comp = "" ∨ comp = ".") then new_comps
  else if decide (comp ≠ ".."
                  ∨ (slashes = 0%nat ∧ new_comps = [])
                  ∨ (new_comps ≠ [] ∧ last new_comps = Some ".."))
  then new_comps ++ [comp]
  else match new_comps with
       | [] => new_comps
       | _ :: _ => removelast new_comps
       end.

Definition slash_prefix (n : nat) : string :=
  String.concat "" (replicate n "/").

(** [posixpath.normpath(path)] *)
Definition normpath (path : string) : string :=
  if String.eqb path "" then "."
  else
    let slashes := initial_slashes path in
    let comps := foldl (norm_step slashes) [] (split_slash path) in
    let path' := slash_prefix slashes +:+ String.concat "/" comps in
    if String.eqb path' "" then "." else path'.

Definition absolute_from_rel (root rel_path : string) : string :=
  normpath (join root rel_path).

(** A path lies in the storage root when it is the normalised root or
    continues it after a separator. *)
Definition root_dir (root : string) : string :=
  let r := normpath root in
  if ends_with_slash r then r else r +:+ "/".

Definition confined (root p : string) : bool :=
  String.eqb p (normpath root) || String.prefix (root_dir root) p.

(** A relative path has a traversal sequence when one of its components
    is [..]. *)
Definition has_traversal (rel_path : string) : Prop :=
  ".." ∈ split_slash rel_path.

(** ** Auth layer ([auth.py]) *)

Definition DEFAULT_KEYS : gmap string string :=
  {[ "demo-view" := "viewer"; "demo-edit" := "editor"; "demo-admin" := "admin" ]}.

(** [key_file] is the dictionary read from [api_keys.json], [None] when
    the file is missing, unreadable or not a JSON object. *)
Definition load_keys (key_file : option (gmap string string))
    : gmap string string :=
  match key_file with
  | Some data => data
  | None => DEFAULT_KEYS
  end.

Definition role_rank : gmap string Z :=
  {[ "viewer" := 1; "editor" := 2; "admin" := 3 ]}.

(** ** API layer ([app.py]) *)

Inductive resp_body : Type :=
  | ErrorBody (error : string)
  | OkBody
  | AssetVersionBody (asset_id : string) (version : Z)
  | AssetBody (a : asset_detail).

Inductive response : Type :=
  | Jsonify (body : resp_body) (status : Z)
  | SendFile (path download_name : string).

(** The wrapper that [require_role(min_role)] puts around a handler.
    [x_api_key] is the [X-API-Key] header, [None] when the request has
    none; the handler receives the role attached to the request. *)
Definition require_role {St : Type} (min_role : string)
    (func : string → St → response * St)
    (key_file : option (gmap string string)) (x_api_key : option string)
    (st : St) : response * St :=
  let api_key := default "" x_api_key in
  let keys := load_keys key_file in
  match keys !! api_key with
  | None => (Jsonify (ErrorBody "Unauthorized") 401, st)
  | Some role =>
      if decide (role = "") then (Jsonify (ErrorBody "Unauthorized") 401, st)
      else if decide (default 0 (role_rank !! role)
                      < default 1 (role_rank !! min_role))
      then (Jsonify (ErrorBody "Forbidden") 403, st)
      else func role st
  end.

(** [str.lower()] on ASCII text: the letters [A-Z] are mapped to [a-z],
    every other byte stays. *)
Definition lower_ascii (c : ascii) : ascii :=
  let n := nat_of_ascii c in
  if ((65 <=? n) && (n <=? 90))%nat then ascii_of_nat (n + 32) else c.

Fixpoint lower (s : string) : string :=
  match s with
  | EmptyString => EmptyString
  | String c s' => String (lower_ascii c) (lower s')
  end.

(** [s.lstrip('.')] *)
Fixpoint lstrip_dot (s : string) : string :=
  match s with
  | String c s' => if Ascii.eqb c "." then lstrip_dot s' else s
  | EmptyString => s
  end.

(** [payload.get(k) or d] for a text field. *)
Definition get_or (field : option string) (d : string) : string :=
  match field with
  | Some s => if decide (s = "") then d else s
  | None => d
  end.

(** The [tags] field of the body: missing, a list of strings, or a string. *)
Inductive tags_field : Type :=
  | TagsMissing
  | TagsList (l : list string)
  | TagsStr (s : string).

(** The JSON body of [POST /api/assets], with the field types of the
    endpoint's contract. *)
Record asset_payload : Type := mk_payload {
  p_asset_id : option string;
  p_name : option string;
  p_family : option string;
  p_description : option string;
  p_tags : tags_field;
  p_metadata : option (gmap string jval);
  p_version : option Z
}.

Definition empty_payload : asset_payload :=
  mk_payload None None None None TagsMissing None None.

(** The handler of [POST /api/assets].  [body] is [None] when the request
    has no parseable JSON; [now1] and [now2] are the clock readings of
    the two persistence calls. *)
Definition upsert_asset (body : option asset_payload) (now1 now2 : string)
    (role : string) (db : DB) : response * DB :=
  let payload := default empty_payload body in
  let asset_id := get_or (p_asset_id payload) "" in
  let name := get_or (p_name payload) asset_id in
  let family := lower (get_or (p_family payload) "unknown") in
  let description := get_or (p_description payload) "" in
  let tags :=
    match p_tags payload with
    | TagsList l => String.concat "," l
    | TagsStr s => s
    | TagsMissing => ""
    end in
  let metadata := default ∅ (p_metadata payload) in
  if decide (asset_id = "") then
    (Jsonify (ErrorBody "asset_id required") 400, db)
  else
    let version :=
      match p_version payload with
      | Some v => if decide (v = 0) then 1 else v
      | None => 1
      end in
    let db1 := ensure_asset asset_id name family description tags now1 db in
    let db2 := upsert_version asset_id version metadata "" now2 db1 in
    (Jsonify (AssetVersionBody asset_id version) 200, db2).

Definition file_matches (version : Z) (fmt : string) (f : file_entry) : Prop :=
  fe_version f = version ∧ (fmt = "" ∨ fe_format f = fmt).

#[global] Instance file_matches_dec version fmt f :
  Decision (file_matches version fmt f).
Proof. unfold file_matches. apply _. Defined.

(** The handler of [GET /api/assets/<asset_id>/download].  [q_version] is
    the parsed [version] query argument, [None] when missing or empty;
    [q_format] the [format] argument. *)
Definition download_file (root : string) (asset_id : string)
    (q_version : option Z) (q_format : option string) (db : DB) : response :=
  let version := default 1 q_version in
  let fmt := lstrip_dot (lower (get_or q_format "")) in
  match get_asset asset_id db with
  | None => Jsonify (ErrorBody "not found") 404
  | Some a =>
      match filter (file_matches version fmt) (ad_files a) with
      | f :: _ =>
          SendFile (absolute_from_rel root (fe_rel_path f)) (fe_filename f)
      | [] => Jsonify (ErrorBody "file not found for version/format") 404
      end
  end.

(** ** Sync agent ([scripts/sync_agent.py])

    One pass of the polling loop against a server whose database is [db]:
    [GET /api/changes], with [?since=] only when [last_since] is truthy,
    served by [db.list_changes(since)] under the default limit; the
    cursor moves to the [created_at] of the last item received. *)
Definition poll (last_since : option string) (db : DB)
    : list change_row * option string :=
  let since :=
    match last_since with
    | Some s => if decide (s = "") then None else Some s
    | None => None
    end in
  let items := list_changes since default_limit db in
  (items,
   match last items with
   | Some r => Some (ch_created_at r)
   | None => last_since
   end).

(** The items received over [k] passes of the loop, in order of arrival. *)
Fixpoint polls (k : nat) (last_since : option string) (db : DB)
    : list change_row :=
  match k with
  | O => []
  | S k' =>
      let '(items, next) := poll last_since db in
      items ++ polls k' next db
  end.

(** ** Further operations of the persistence layer *)

(** [filters.get(k)] read for truthiness: a missing key, [None] and the
    empty string all put no constraint. *)
Definition truthy (field : option string) : option string :=
  match field with
  | Some s => if decide (s = "") then None else Some s
  | None => None
  end.

(** One [col = ?] condition of the generated [WHERE], absent when the
    filter is. *)
Definition where_eq (param : option string) (col : string) : Prop :=
  match param with
  | Some v => col = v
  | None => True
  end.

#[global] Instance where_eq_dec param col : Decision (where_eq param col).
Proof. destruct param; simpl; apply _. Defined.

(** [ORDER BY updated_at DESC] *)
Definition updated_desc (r1 r2 : asset_row) : Prop :=
  String.le (a_updated_at r2) (a_updated_at r1).

#[global] Instance updated_desc_dec r1 r2 : Decision (updated_desc r1 r2).
Proof. unfold updated_desc. apply _. Defined.

(** [OFFSET n]: a negative [n] skips nothing. *)
Definition sql_offset {row : Type} (n : Z) (t : list row) : list row :=
  drop (Z.to_nat n) t.

Definition list_assets (filters : gmap string string) (limit offset : Z)
    (db : DB) : list asset_row :=
  let fam := truthy (filters !! "family") in
  let status := truthy (filters !! "status") in
  sql_limit limit
    (sql_offset offset
       (order_by updated_desc
          (sql_select (λ r, where_eq fam (a_family r)
                            ∧ where_eq status (a_status r))
             (assets db)))).

Definition log_change (change_type asset_id : string)
    (payload : gmap string jval) (now : string) (db : DB) : DB :=
  insert_change change_type asset_id payload now db.

(** ** Further functions of the storage layer *)

(** [str(n)] for an integer: decimal digits, with a sign when negative. *)
Definition str_int (z : Z) : string :=
  DecimalString.NilZero.string_of_int (Z.to_int z).

(** [posixpath.basename] *)
Definition basename (p : string) : string :=
  default "" (last (split_slash p)).

(** [posixpath.abspath], [cwd] being the working directory. *)
Definition abspath (cwd path : string) : string :=
  normpath (if String.prefix "/" path then path else join cwd path).

(** The length of the longest common prefix of two component lists, which
    is what [commonprefix] gives for two sequences. *)
Fixpoint common_prefix_length (l1 l2 : list string) : nat :=
  match l1, l2 with
  | x :: l1', y :: l2' =>
      if decide (x = y) then S (common_prefix_length l1' l2') else O
  | _, _ => O
  end.

(** [posixpath.relpath(path, start)]; [None] stands for the [ValueError]
    raised on an empty path. *)
Definition relpath (cwd path start : string) : option string :=
  if String.eqb path "" then None
  else
    let start_list :=
      filter (λ x, x ≠ "") (split_slash (abspath cwd start)) in
    let path_list :=
      filter (λ x, x ≠ "") (split_slash (abspath cwd path)) in
    let i := common_prefix_length start_list path_list in
    let rel_list :=
      replicate (length start_list - i) ".." ++ drop i path_list in
    match rel_list with
    | [] => Some "."
    | _ :: _ => Some (String.concat "/" rel_list)
    end.

(** [s.replace("\\", "/")] *)
Fixpoint replace_backslash (s : string) : string :=
  match s with
  | EmptyString => EmptyString
  | String c s' =>
      String (if Ascii.eqb c "\" then "/"%char else c) (replace_backslash s')
  end.

Definition assets_dir (root : string) : string := join root "assets".
Definition thumbs_dir (root : string) : string := join root "thumbnails".

(** The path [asset_dir] returns; the directory it creates on the way is
    not part of the modelled state. *)
Definition asset_dir (root asset_id : string) (version : Z) : string :=
  join (join (assets_dir root) asset_id) ("v" +:+ str_int version).

(** [save_upload]: the destination the temporary file is moved to and the
    relative path returned for the database.  The size, read from the
    moved file, is an input of the callers' models. *)
Definition save_upload (cwd root asset_id : string) (version : Z)
    (src_path : string) (filename : option string)
    : option (string * string) :=
  let fname := get_or filename (basename src_path) in
  let dst := join (asset_dir root asset_id version) fname in
  match relpath cwd dst root with
  | Some rel => Some (dst, replace_backslash rel)
  | None => None
  end.

Definition package_version (root asset_id : string) (version : Z) : string :=
  join (asset_dir root asset_id version)
    (asset_id +:+ "_v" +:+ str_int version +:+ ".zip").

(** ** Further handlers of the API layer *)

(** The handler of [GET /api/assets]. *)
Definition list_assets_handler (q_family q_status : option string)
    (q_limit q_offset : option Z) (db : DB) : list asset_row * nat :=
  let filters : gmap string string :=
    list_to_map (omap (λ kv : string * option string,
                         match kv.2 with
                         | Some v => Some (kv.1, v)
                         | None => None
                         end)
                   [("family", q_family); ("status", q_status)]) in
  let items :=
    list_assets filters (default 50 q_limit) (default 0 q_offset) db in
  (items, length items).

Record package_meta : Type := mk_package_meta {
  pm_id : string;
  pm_name : string;
  pm_family : string;
  pm_description : string;
  pm_tags : string;
  pm_status : string;
  pm_version : Z
}.

(** An entry of the archive: [writestr] of the metadata document, or
    [write] of a file of the storage tree under an archive name. *)
Inductive zip_entry : Type :=
  | ZipStr (arc_name : string) (meta : package_meta)
  | ZipWrite (filename arc_name : string).

Inductive package_response : Type :=
  | PackageError (error : string) (status : Z)
  | PackageFile (entries : list zip_entry) (download_name : string).

(** The handler of [GET /api/assets/<asset_id>/package]; [exists_] is
    [os.path.exists] on the storage tree at the time of the request. *)
Definition download_package (root : string) (exists_ : string → bool)
    (asset_id : string) (q_version : option Z) (db : DB) : package_response :=
  let version := default 1 q_version in
  match get_asset asset_id db with
  | None => PackageError "not found" 404
  | Some a =>
      let meta :=
        mk_package_meta (ad_id a) (ad_name a) (ad_family a)
          (ad_description a) (ad_tags a) (ad_status a) version in
      let written :=
        omap (λ f,
                if decide (fe_version f = version) then
                  let abs_path := absolute_from_rel root (fe_rel_path f) in
                  if exists_ abs_path
                  then Some (ZipWrite abs_path (join "files" (fe_filename f)))
                  else None
                else None)
          (ad_files a) in
      PackageFile (ZipStr "metadata.json" meta :: written)
        (asset_id +:+ "_v" +:+ str_int version +:+ ".zip")
  end.

(** ** Publishing client ([plugins/integrate/integrate_web_pipeline.py])

    The version [prepare_asset_data] picks from the answer to
    [GET /api/assets/<asset_id>]: one more than the largest version
    listed, 1 when the request fails or lists none. *)
Definition next_version (detail : option asset_detail) : Z :=
  match detail with
  | Some d =>
      match ad_versions d with
      | [] => 1
      | v :: vs => foldl Z.max (ve_version v) (ve_version <$> vs) + 1
      end
  | None => 1
  end.

(** ** Calls that raise

    [sqlite3] binds the arguments of a statement before it runs it.  An
    integer outside SQLite's 64-bit INTEGER range cannot be bound: the
    call raises [OverflowError] at its first statement, nothing has been
    written, and the connection is closed without a commit.  The
    functions of the persistence layer above give the effect of a call
    whose arguments can be bound; [invoke] is the call itself. *)
Inductive py (A : Type) : Type :=
  | Returns (a : A)
  | Raises.
Arguments Returns {A} a.
Arguments Raises {A}.

Definition sqlite_int (z : Z) : Prop :=
  -9223372036854775808 ≤ z ≤ 9223372036854775807.

#[global] Instance sqlite_int_dec z : Decision (sqlite_int z).
Proof. unfold sqlite_int. apply _. Defined.

(** The integer arguments of a call can all be bound; text always can. *)
Definition bindable (c : call) : Prop :=
  match c with
  | UpsertVersion _ v _ _ _ => sqlite_int v
  | AddFile _ v _ _ _ sz _ => sqlite_int v ∧ sqlite_int sz
  | ArchiveVersion _ v _ => sqlite_int v
  | DeleteVersion _ v _ => sqlite_int v
  | EnsureAsset _ _ _ _ _ _ | UpdateAsset _ _ _ | DeleteAsset _ _
  | AddComment _ _ _ _ => True
  end.

#[global] Instance bindable_dec c : Decision (bindable c).
Proof. destruct c; simpl; apply _. Defined.

Definition invoke (c : call) (db : DB) : py DB :=
  if decide (bindable c) then Returns (exec c db) else Raises.

(** [list_changes(since_iso, limit)] as called: [limit] is bound to the
    [LIMIT ?] of the query. *)
Definition list_changes_call (since_iso : option string) (limit : Z) (db : DB)
    : py (list change_row) :=
  if decide (sqlite_int limit) then Returns (list_changes since_iso limit db)
  else Raises.

(** A value of the [fields] dictionary of [update_asset] as the JSON body
    of a request gives it: text, an integer, an array or an object.
    ([null] and numbers with a fraction are left out: the row type has no
    counterpart for a NULL or a REAL written into a text column.) *)
Inductive field_value : Type :=
  | FText (s : string)
  | FNum (z : Z)
  | FArray
  | FObject.

(** What a text column holds once the value has been bound to it: text
    as it is, an integer in decimal.  [None] when [sqlite3] cannot bind
    the value: an integer outside the INTEGER range ([OverflowError]), a
    list or a dict (type not supported). *)
Definition stored_text (v : field_value) : option string :=
  match v with
  | FText s => Some s
  | FNum z => if decide (sqlite_int z) then Some (str_int z) else None
  | FArray | FObject => None
  end.

(** The value as [json.dumps] writes it into the payload of the change
    record.  An array or object under a whitelisted key never gets
    there: the [UPDATE] before it raises. *)
Definition logged_value (v : field_value) : option jval :=
  match v with
  | FText s => Some (JStr s)
  | FNum z => Some (JInt z)
  | FArray | FObject => None
  end.

(** Binding the parameters of the generated [UPDATE], in order. *)
Fixpoint bind_params (sets : list (string * field_value))
    : py (list (string * string)) :=
  match sets with
  | [] => Returns []
  | kv :: rest =>
      match stored_text kv.2 with
      | None => Raises
      | Some text =>
          match bind_params rest with
          | Raises => Raises
          | Returns params => Returns ((kv.1, text) :: params)
          end
      end
  end.

(** [update_asset(asset_id, fields)] for a dictionary of JSON values:
    the [UPDATE] raises while binding, before anything is written, when
    a whitelisted value cannot be bound. *)
Definition update_asset_call (asset_id : string)
    (fields : gmap string field_value) (now : string) (db : DB) : py DB :=
  let sets := filter (λ kv, kv.1 ∈ allow) (map_to_list fields) in
  match sets with
  | [] => Returns db
  | _ :: _ =>
      match bind_params sets with
      | Raises => Raises
      | Returns params =>
          Returns
            (insert_change "asset_update" asset_id
               (omap logged_value (filter (λ kv, kv.1 ∈ allow) fields)) now
               (set_assets
                  (sql_update (is_asset asset_id)
                     (λ r, set_updated_at now (foldl set_column r params))
                     (assets db)) db))
      end
  end.

(** ** The body of [POST /api/assets] as JSON

    What [request.get_json] hands to the handler: any JSON value.
    [JReal] is a number with a fraction or an exponent, of which the
    handler only ever tests whether it is zero. *)
#[warnings="-register-all"]
Inductive json : Type :=
  | JNull
  | JBool (b : bool)
  | JNum (z : Z)
  | JReal (zero : bool)
  | JText (s : string)
  | JArr (items : list json)
  | JObj (members : list (string * json)).

(** Python's truth value of a parsed JSON value. *)
Definition json_truthy (v : json) : bool :=
  match v with
  | JNull => false
  | JBool b => b
  | JNum z => negb (z =? 0)
  | JReal zero => negb zero
  | JText s => negb (String.eqb s "")
  | JArr items => match items with [] => false | _ :: _ => true end
  | JObj members => match members with [] => false | _ :: _ => true end
  end.

(** [d.get(k)] on the dictionary of a JSON object: the last member named
    [k] is the one [json.loads] keeps. *)
Definition json_get (k : string) (members : list (string * json))
    : option json :=
  foldl (λ found kv, if decide (kv.1 = k) then Some kv.2 else found)
    None members.

(** [d.get(k) or default] *)
Definition json_or (v : option json) (d : json) : json :=
  match v with
  | Some x => if json_truthy x then x else d
  | None => d
  end.

(** The items of an array when all of them are text, which is when
    [",".join] accepts it. *)
Fixpoint json_strings (items : list json) : option (list string) :=
  match items with
  | [] => Some []
  | JText s :: rest => (λ l, s :: l) <$> json_strings rest
  | _ :: _ => None
  end.

(** The local variables of the handler when it reaches its first
    database call, and the dictionary it goes on reading. *)
Record asset_fields : Type := mk_asset_fields {
  af_asset_id : json;
  af_name : json;
  af_family : string;
  af_description : json;
  af_tags : json;
  af_metadata : json;
  af_payload : list (string * json)
}.

(** The handler of [POST /api/assets] up to and including its test of
    [asset_id]: [Returns None] is the 400 answer.  A body that is not an
    object has no [get] and a family that is not text has no [lower]
    ([AttributeError]); [join] refuses an item that is not text
    ([TypeError]). *)
Definition upsert_asset_guard (body : option json) : py (option asset_fields) :=
  let payload :=
    match body with
    | Some v => if json_truthy v then v else JObj []
    | None => JObj []
    end in
  match payload with
  | JObj m =>
      let asset_id := json_or (json_get "asset_id" m) (JText "") in
      let name := json_or (json_get "name" m) asset_id in
      match json_or (json_get "family" m) (JText "unknown") with
      | JText family_text =>
          let family := lower family_text in
          let description := json_or (json_get "description" m) (JText "") in
          let tags :=
            match json_get "tags" m with
            | Some (JArr items) =>
                match json_strings items with
                | Some l => Returns (JText (String.concat "," l))
                | None => Raises
                end
            | Some v => Returns v
            | None => Returns (JText "")
            end in
          match tags with
          | Raises => Raises
          | Returns tags =>
              let metadata := json_or (json_get "metadata" m) (JObj []) in
              if json_truthy asset_id then
                Returns (Some (mk_asset_fields asset_id name family
                                 description tags metadata m))
              else Returns None
          end
      | _ => Raises
      end
  | _ => Raises
  end.

(** The handler: the guard, then the rest of the function, [tail], which
    parses the version and calls the persistence layer.  An exception
    leaves the handler at once (the framework answers 500). *)
Definition upsert_asset_json {St : Type}
    (tail : asset_fields → St → py response * St)
    (body : option json) (st : St) : py response * St :=
  match upsert_asset_guard body with
  | Raises => (Raises, st)
  | Returns None => (Returns (Jsonify (ErrorBody "asset_id required") 400), st)
  | Returns (Some fields) => tail fields st
  end.

(** Text that [str.lower] treats byte by byte: every byte is ASCII. *)
Fixpoint is_ascii (s : string) : bool :=
  match s with
  | EmptyString => true
  | String c s' => (nat_of_ascii c <? 128)%nat && is_ascii s'
  end.

(** ** Vocabulary of the properties *)

(** Number of change-log rows of a given change type. *)
Definition count_rows (t : string) (db : DB) : nat :=
  length (filter (λ r, ch_change_type r = t) (changes db)).

(** Number of invocations of the operation that logs under [t]. *)
Definition count_calls (t : string) (cs : list call) : nat :=
  length (filter (λ c, change_type_of c = t) cs).

(** The part of a field dictionary that passes the whitelist. *)
Definition whitelisted (fields : gmap string string) : gmap string string :=
  filter (λ kv, kv.1 ∈ allow) fields.

(** A call is effective unless it is an [update_asset] whose dictionary
    has no whitelisted key. *)
Definition effective (c : call) : Prop :=
  match c with
  | UpdateAsset _ fields _ => whitelisted fields ≠ ∅
  | _ => True
  end.

#[global] Instance effective_dec c : Decision (effective c).
Proof. destruct c; simpl; apply _. Defined.

Definition count_effective (t : string) (cs : list call) : nat :=
  length (filter (λ c, change_type_of c = t ∧ effective c) cs).

(** The change log has one row per invocation, for every change type. *)
Definition change_log_complete (cs : list call) : Prop :=
  ∀ t, count_rows t (run cs init_db) = count_calls t cs.

(** The record an effective call appends to the change log. *)
Definition change_of (c : call) : change_row :=
  match c with
  | EnsureAsset i n f _ _ now =>
      mk_change "asset_upsert" i {[ "name" := JStr n; "family" := JStr f ]} now
  | UpsertVersion i v _ _ now =>
      mk_change "version_upsert" i {[ "version" := JInt v ]} now
  | AddFile i v fn _ _ _ now =>
      mk_change "file_added" i
        {[ "version" := JInt v; "filename" := JStr fn ]} now
  | UpdateAsset i fields now =>
      mk_change "asset_update" i (JStr <$> whitelisted fields) now
  | ArchiveVersion i v now =>
      mk_change "version_archived" i {[ "version" := JInt v ]} now
  | DeleteVersion i v now =>
      mk_change "version_deleted" i {[ "version" := JInt v ]} now
  | DeleteAsset i now => mk_change "asset_deleted" i ∅ now
  | AddComment i a _ now => mk_change "comment" i {[ "author" := JStr a ]} now
  end.

(** The schema's [PRIMARY KEY] on [assets.id]. *)
Definition assets_unique (t : list asset_row) : Prop :=
  ∀ asset_id, (length (sql_select (is_asset asset_id) t) ≤ 1)%nat.

(** The schema's [UNIQUE(asset_id, version)] on [versions]. *)
Definition versions_unique (t : list version_row) : Prop :=
  ∀ asset_id version,
    (length (sql_select (is_version asset_id version) t) ≤ 1)%nat.

(** Every change row carries a clock reading; [isoformat()] is never the
    empty string. *)
Definition stamped (db : DB) : Prop :=
  Forall (λ r, ch_created_at r ≠ "") (changes db).

(** A whitelisted column of an asset row, by name. *)
Definition column (k : string) (r : asset_row) : string :=
  if decide (k = "name") then a_name r
  else if decide (k = "description") then a_description r
  else if decide (k = "tags") then a_tags r
  else if decide (k = "status") then a_status r
  else "".

(** A component list never climbs above its starting directory: walking it
    from depth [depth], every [..] finds a component to cancel. *)
Fixpoint below (depth : nat) (comps : list string) : bool :=
  match comps with
  | [] => true
  | comp :: comps' =>
      if decide (comp = "" ∨ comp = ".") then below depth comps'
      else if decide (comp = "..") then
        match depth with
        | O => false
        | S depth' => below depth' comps'
        end
      else below (S depth) comps'
  end.

Definition stays_below (rel_path : string) : bool :=
  below 0 (split_slash rel_path).

(** Every relative path with a traversal sequence resolves inside the
    storage root. *)
Definition traversal_confined : Prop :=
  ∀ root rel_path,
    String.prefix "/" root = true →
    has_traversal rel_path →
    confined root (absolute_from_rel root rel_path) = true.

(** A download whose resolved path leaves the storage root is answered
    with a 400. *)
Definition escape_rejected : Prop :=
  ∀ root asset_id q_version q_format db a f rest,
    get_asset asset_id db = Some a →
    filter (file_matches (default 1 q_version)
              (lstrip_dot (lower (get_or q_format "")))) (ad_files a) = f :: rest →
    confined root (absolute_from_rel root (fe_rel_path f)) = false →
    ∃ body, download_file root asset_id q_version q_format db = Jsonify body 400.

(** Version entries in descending order of version number. *)
Definition entry_desc (e1 e2 : version_entry) : Prop :=
  ve_version e2 ≤ ve_version e1.

(** An asset row passes the filters of a [list_assets] call. *)
Definition passes (filters : gmap string string) (r : asset_row) : Prop :=
  where_eq (truthy (filters !! "family")) (a_family r)
  ∧ where_eq (truthy (filters !! "status")) (a_status r).

#[global] Instance passes_dec filters r : Decision (passes filters r).
Proof. unfold passes. apply _. Defined.

(** The detail of an asset once [update_asset] has set its whitelisted
    columns from [fields] at [now]. *)
Definition updated_detail (fields : gmap string string) (now : string)
    (a : asset_detail) : asset_detail :=
  mk_asset_detail (ad_id a) (default (ad_name a) (fields !! "name"))
    (ad_family a)
    (default (ad_description a) (fields !! "description"))
    (default (ad_tags a) (fields !! "tags"))
    (default (ad_status a) (fields !! "status"))
    (ad_created_at a) now (ad_versions a) (ad_files a).

(** A version entry once archived at [now]. *)
Definition archived_entry (now : string) (e : version_entry) : version_entry :=
  mk_version_entry (ve_version e) (ve_metadata e) (ve_thumbnail_path e) true
    (ve_created_at e) now.

(** A string without a slash: splitting it at slashes gives it back. *)
Definition no_slash (s : string) : Prop := split_slash s = [s].

(** A proper path component: non-empty, without a slash, and neither
    [.] nor [..]. *)
Definition plain (s : string) : Prop :=
  s ≠ "" ∧ s ≠ "." ∧ s ≠ ".." ∧ no_slash s.

(** A string the [replace] of [save_upload] leaves as it is. *)
Definition no_backslash (s : string) : Prop := replace_backslash s = s.

(** The text [relpath] builds from its component list. *)
Definition rel_text (rel_list : list string) : string :=
  match rel_list with
  | [] => "."
  | _ :: _ => String.concat "/" rel_list
  end.

(** The rows that [list_changes(X, ...)] chooses from: those stamped
    strictly after [X], every row when [X] is omitted or empty. *)
Definition after_since (since_iso : option string) (r : change_row) : Prop :=
  match since_iso with
  | Some s => s = "" ∨ ts_lt s (ch_created_at r)
  | None => True
  end.

#[global] Instance after_since_dec since_iso r :
  Decision (after_since since_iso r).
Proof. destruct since_iso; simpl; apply _. Defined.

(** [list_changes] never returns more than [limit] rows, whatever the
    limit. *)
Definition list_changes_capped : Prop :=
  ∀ since_iso limit db rows,
    list_changes_call since_iso limit db = Returns rows →
    Z.of_nat (length rows) ≤ limit.

(** Two calls of [upsert_version] for the pair succeed and leave exactly
    one row for it, with the arguments of the second. *)
Definition upsert_twice_one_row (asset_id : string) (version : Z) : Prop :=
  ∀ metadata1 metadata2 thumbnail1 thumbnail2 now1 now2 db,
    versions_unique (versions db) →
    ∃ db1 db2 r,
      invoke (UpsertVersion asset_id version metadata1 thumbnail1 now1) db
      = Returns db1
      ∧ invoke (UpsertVersion asset_id version metadata2 thumbnail2 now2) db1
        = Returns db2
      ∧ sql_select (is_version asset_id version) (versions db2) = [r]
      ∧ v_metadata_json r = metadata2
      ∧ v_thumbnail_path r = thumbnail2.

(** The call succeeds and appends its change record, on every
    database. *)
Definition always_logged (c : call) : Prop :=
  ∀ db, ∃ db', invoke c db = Returns db'
               ∧ changes db' = changes db ++ [change_of c].

(** A handler that answers 200. *)
Definition probe_handler (role : string) (st : unit) : response * unit :=
  (Jsonify OkBody 200, st).

(** A request without the header is answered 401. *)
Definition absent_key_unauthorized : Prop :=
  ∀ min_role key_file,
    require_role min_role probe_handler key_file None ()
    = (Jsonify (ErrorBody "Unauthorized") 401, ()).

(** A key whose role ranks below the minimum is answered 403. *)
Definition low_rank_forbidden : Prop :=
  ∀ min_role key_file key role,
    load_keys key_file !! key = Some role →
    default 0 (role_rank !! role) < default 1 (role_rank !! min_role) →
    require_role min_role probe_handler key_file (Some key) ()
    = (Jsonify (ErrorBody "Forbidden") 403, ()).

(** The whitelisted part of a dictionary of JSON values. *)
Definition whitelisted_values (fields : gmap string field_value)
    : gmap string field_value :=
  filter (λ kv, kv.1 ∈ allow) fields.

(** [update_asset] succeeds on every dictionary, and logs one record
    when the dictionary has a whitelisted key. *)
Definition update_always_applies : Prop :=
  ∀ asset_id fields now db,
    ∃ db', update_asset_call asset_id fields now db = Returns db'
           ∧ (whitelisted_values fields ≠ ∅ →
              length (changes db') = S (length (changes db))).

(** The body carries a usable [asset_id]: it is a JSON object whose
    [asset_id] member is truthy. *)
Definition json_has_asset_id (body : option json) : Prop :=
  ∃ m v, body = Some (JObj m)
         ∧ json_get "asset_id" m = Some v ∧ json_truthy v = true.

(** The values the guard calls methods on have the types it expects: the
    body is an object (or is falsy, and read as the empty object), its
    [family] is text or falsy, and its [tags], when an array, holds text
    only. *)
Definition guard_types_ok (body : option json) : bool :=
  match body with
  | None => true
  | Some v =>
      if json_truthy v then
        match v with
        | JObj m =>
            match json_get "family" m with
            | Some (JText _) | None => true
            | Some f => negb (json_truthy f)
            end
            && match json_get "tags" m with
               | Some (JArr items) =>
                   match json_strings items with
                   | Some _ => true
                   | None => false
                   end
               | _ => true
               end
        | _ => false
        end
      else true
  end.

(** A body without a usable [asset_id] is answered 400. *)
Definition missing_id_rejected : Prop :=
  ∀ (tail : asset_fields → unit → py response * unit) body,
    ¬ json_has_asset_id body →
    upsert_asset_json tail body ()
    = (Returns (Jsonify (ErrorBody "asset_id required") 400), ()).

(** ** Ordering of rows *)

Section order_by_facts.
Context {row : Type} (R : relation row) `{!∀ x y, Decision (R x y)}.

Lemma insert_row_Permutation (x : row) (l : list row) :
  insert_row R x l ≡ₚ x :: l.
Proof.
  induction l as [|y l IH]; simpl; [done|]. case_decide; [done|].
  rewrite IH. apply Permutation_swap.
Qed.

Lemma order_by_Permutation (l : list row) : order_by R l ≡ₚ l.
Proof.
  induction l as [|x l IH]; simpl; [done|].
  by rewrite insert_row_Permutation, IH.
Qed.

Lemma insert_row_front (x : row) (l : list row) :
  Forall (R x) l → insert_row R x l = x :: l.
Proof.
  destruct 1 as [|y l Hy _]; simpl; [done|]. by rewrite decide_True.
Qed.

Context `{!Total R, !Transitive R}.

Lemma StronglySorted_insert_row (x : row) (l : list row) :
  StronglySorted R l → StronglySorted R (insert_row R x l).
Proof.
  induction 1 as [|y l Hl IH Hy]; simpl; [by repeat constructor|].
  case_decide as Hxy.
  - constructor; [by constructor|]. constructor; [done|].
    eapply Forall_impl; [exact Hy|]. intros z Hz. by etrans.
  - constructor; [done|]. rewrite insert_row_Permutation.
    constructor; [|done]. by destruct (total R x y).
Qed.

Lemma StronglySorted_order_by (l : list row) :
  StronglySorted R (order_by R l).
Proof.
  induction l as [|x l IH]; simpl; [constructor|].
  by apply StronglySorted_insert_row.
Qed.

(** A table that is already in order is returned as it is. *)
Lemma order_by_sorted (l : list row) :
  StronglySorted R l → order_by R l = l.
Proof.
  induction 1 as [|x l _ IH Hx]; simpl; [done|].
  rewrite IH. by apply insert_row_front.
Qed.

Lemma insert_row_filter (P : row → Prop) `{!∀ x, Decision (P x)}
    (x : row) (l : list row) :
  StronglySorted R l →
  filter P (insert_row R x l)
  = if decide (P x) then insert_row R x (filter P l) else filter P l.
Proof.
  induction 1 as [|y l Hl IH Hy]; simpl.
  { rewrite filter_cons. by destruct (decide (P x)). }
  destruct (decide (R x y)) as [Hxy|Hxy].
  - rewrite (filter_cons P x). destruct (decide (P x)); [|done].
    rewrite insert_row_front; [done|].
    apply Forall_forall. intros z Hz.
    apply list_elem_of_filter in Hz as [_ Hz].
    apply elem_of_cons in Hz as [->|Hz]; [done|].
    rewrite Forall_forall in Hy. etrans; [exact Hxy|]. by apply Hy.
  - rewrite (filter_cons P y (insert_row R x l)), (filter_cons P y l), IH.
    destruct (decide (P y)), (decide (P x)); simpl; try done.
    by rewrite decide_False.
Qed.

(** Ordering and [WHERE] commute: ties keep their table order either
    way. *)
Lemma order_by_filter (P : row → Prop) `{!∀ x, Decision (P x)}
    (l : list row) :
  filter P (order_by R l) = order_by R (filter P l).
Proof.
  induction l as [|x l IH]; simpl; [done|].
  rewrite insert_row_filter by apply StronglySorted_order_by.
  rewrite (filter_cons P x l), IH. by destruct (decide (P x)).
Qed.

(** Where no two rows tie, every sorting procedure gives the same
    list. *)
Lemma order_by_merge_sort (l : list row) :
  (∀ x y, x ∈ l → y ∈ l → R x y → R y x → x = y) →
  order_by R l = merge_sort R l.
Proof.
  intros Hanti. apply (StronglySorted_unique_strong R).
  - intros x y Hx Hy. rewrite order_by_Permutation in Hx.
    rewrite merge_sort_Permutation in Hy. by apply Hanti.
  - apply StronglySorted_order_by.
  - by apply StronglySorted_merge_sort.
  - by rewrite order_by_Permutation, merge_sort_Permutation.
Qed.
End order_by_facts.

(** ** Change log: what each operation appends *)

Lemma allow_filter_nil {V} (fields : gmap string V) :
  filter (λ kv : string * V, kv.1 ∈ allow) (map_to_list fields) = []
  ↔ filter (λ kv : string * V, kv.1 ∈ allow) fields = ∅.
Proof.
  split.
  - intros Hnil. apply map_empty. intros k.
    destruct (filter _ fields !! k) as [v|] eqn:Hk; [|done].
    apply map_lookup_filter_Some in Hk as [Hk Hal].
    exfalso. eapply (filter_nil_not_elem_of _ _ (k, v)); [exact Hnil|exact Hal|].
    by apply elem_of_map_to_list.
  - intros Hempty.
    destruct (filter _ (map_to_list fields)) as [|[k v] l] eqn:Hl; [done|].
    assert ((k, v) ∈ filter (λ kv : string * V, kv.1 ∈ allow)
                       (map_to_list fields)) as Hin
      by (rewrite Hl; left).
    apply list_elem_of_filter in Hin as [Hal Hin].
    apply elem_of_map_to_list in Hin.
    assert (filter (λ kv : string * V, kv.1 ∈ allow) fields !! k = Some v)
      as Hk by (by apply map_lookup_filter_Some).
    rewrite Hempty in Hk. by rewrite lookup_empty in Hk.
Qed.

Lemma whitelisted_nil fields :
  filter (λ kv : string * string, kv.1 ∈ allow) (map_to_list fields) = []
  ↔ whitelisted fields = ∅.
Proof. apply allow_filter_nil. Qed.

Lemma changes_exec c db :
  changes (exec c db) =
    if decide (effective c) then changes db ++ [change_of c] else changes db.
Proof.
  destruct c; simpl; try done.
  - unfold ensure_asset. by destruct (sql_select _ _).
  - unfold update_asset.
    destruct (filter _ (map_to_list fields)) as [|kv l] eqn:Hl.
    + apply whitelisted_nil in Hl. by rewrite decide_False by (by intros []).
    + rewrite decide_True; [done|].
      intros Hempty. apply whitelisted_nil in Hempty. congruence.
Qed.

Lemma count_rows_exec t c db :
  count_rows t (exec c db) =
    (count_rows t db
     + if decide (change_type_of c = t ∧ effective c) then 1 else 0)%nat.
Proof.
  unfold count_rows. rewrite changes_exec.
  destruct (decide (effective c)) as [He|He].
  - rewrite filter_app, length_app. f_equal.
    assert (ch_change_type (change_of c) = change_type_of c) as Hty
      by (by destruct c).
    destruct (decide (change_type_of c = t)) as [Ht|Ht].
    + rewrite filter_cons_True by congruence.
      by rewrite decide_True by done.
    + rewrite filter_cons_False by congruence.
      by rewrite decide_False by (by intros [? ?]).
  - rewrite decide_False by (by intros [? ?]). lia.
Qed.

Lemma changes_run (cs : list call) (db : DB) :
  changes (run cs db) = changes db ++ (change_of <$> filter effective cs).
Proof.
  unfold run. revert db.
  induction cs as [|c cs IH]; intros db; simpl.
  - by rewrite (right_id_L [] (++)).
  - rewrite IH, changes_exec.
    destruct (decide (effective c)) as [He|He].
    + rewrite filter_cons_True by done.
      by rewrite fmap_cons, <-(assoc_L (++)).
    + by rewrite filter_cons_False.
Qed.

Lemma count_rows_run (cs : list call) (db : DB) (t : string) :
  count_rows t (run cs db) = (count_rows t db + count_effective t cs)%nat.
Proof.
  unfold run, count_effective. revert db.
  induction cs as [|c cs IH]; intros db; simpl.
  - lia.
  - rewrite IH, count_rows_exec.
    destruct (decide (change_type_of c = t ∧ effective c)) as [H|H].
    + rewrite filter_cons_True by done. simpl. lia.
    + rewrite filter_cons_False by done. lia.
Qed.



(** C8, as amended.  [archive_version], [delete_version], [delete_asset]
    and [add_comment] look nothing up before they write.  [delete_asset]
    and [add_comment] succeed on every database, whatever [asset_id] is;
    [archive_version] and [delete_version] succeed whenever [version] is
    within SQLite's integer range, and raise, writing nothing, when it is
    not.  Each call that succeeds appends its change record, whether or
    not a row for the asset or the version exists; on the empty database
    the record names an asset that no row of [assets] or [versions] has
    ever held. *)
Theorem no_existence_check (asset_id author body now : string) (version : Z)
    (db : DB) :
  (invoke (DeleteAsset asset_id now) db
   = Returns (delete_asset asset_id now db)
   ∧ invoke (AddComment asset_id author body now) db
     = Returns (add_comment asset_id author body now db)
   ∧ invoke (ArchiveVersion asset_id version now) db
     = (if decide (sqlite_int version)
        then Returns (archive_version asset_id version now db) else Raises)
   ∧ invoke (DeleteVersion asset_id version now) db
     = (if decide (sqlite_int version)
        then Returns (delete_version asset_id version now db) else Raises))
  ∧ (changes (archive_version asset_id version now db) =
       changes db ++ [mk_change "version_archived" asset_id
                        {[ "version" := JInt version ]} now]
     ∧ changes (delete_version asset_id version now db) =
       changes db ++ [mk_change "version_deleted" asset_id
                        {[ "version" := JInt version ]} now]
     ∧ changes (delete_asset asset_id now db) =
       changes db ++ [mk_change "asset_deleted" asset_id ∅ now]
     ∧ changes (add_comment asset_id author body now db) =
       changes db ++ [mk_change "comment" asset_id
                        {[ "author" := JStr author ]} now])
  ∧ (always_logged (DeleteAsset asset_id now)
     ∧ always_logged (AddComment asset_id author body now)
     ∧ (sqlite_int version →
          always_logged (ArchiveVersion asset_id version now)
          ∧ always_logged (DeleteVersion asset_id version now)))
  ∧ (∀ db',
       db' = archive_version asset_id version now init_db
       ∨ db' = delete_version asset_id version now init_db
       ∨ db' = delete_asset asset_id now init_db
       ∨ db' = add_comment asset_id author body now init_db →
       assets db' = [] ∧ versions db' = []
       ∧ ch_asset_id <$> changes db' = [asset_id]).
Proof.
  split.
  { unfold invoke. simpl. repeat split; by case_decide. }
  split; [by repeat split|]. split.
  { split; [|split].
    - intros db0. eexists. split; [reflexivity|done].
    - intros db0. eexists. split; [reflexivity|done].
    - intros Hv. split; intros db0; eexists; unfold invoke; simpl;
        (rewrite decide_True by done); split; [reflexivity|done..]. }
  intros db' [->|[->|[->| ->]]]; by repeat split.
Qed.

(** C8, counterexample.  [archive_version] with the version [2^63]: the
    integer cannot be bound, the call raises and no record is
    appended. *)
Lemma archive_version_overflow :
  let c := ArchiveVersion "model_Hero" 9223372036854775808
             "2026-01-01T00:00:00" in
  invoke c init_db = Raises
  ∧ ¬ always_logged c.
Proof.
  intros c. split; [reflexivity|].
  intros H. destruct (H init_db) as (db' & Hcall & _). discriminate Hcall.
Qed.

(** ** [ensure_asset] on an asset that exists *)

Lemma sql_select_nonempty {row} (P : row → Prop) `{!∀ r, Decision (P r)}
    (t : list row) (r : row) :
  r ∈ t → P r → sql_select P t ≠ [].
Proof.
  intros Hin HP Hnil.
  by eapply (filter_nil_not_elem_of P t r).
Qed.

Lemma sql_update_lookup {row} (P : row → Prop) `{!∀ r, Decision (P r)}
    (f : row → row) (t : list row) (i : nat) :
  sql_update P f t !! i = (λ r, if decide (P r) then f r else r) <$> t !! i.
Proof. unfold sql_update. apply list_lookup_fmap. Qed.

(** C9.  When a row for [asset_id] exists, [ensure_asset] keeps every row
    in place; the rows of that asset get the new name, family and
    [updated_at] and keep their id, description, tags, status and
    [created_at]; all other rows and the tables [versions], [files] and
    [comments] are untouched; the [description] and [tags] arguments do
    not reach the result. *)
Theorem ensure_asset_existing (asset_id name family description tags now : string)
    (db : DB) :
  (∃ r, r ∈ assets db ∧ a_id r = asset_id) →
  let db' := ensure_asset asset_id name family description tags now db in
  length (assets db') = length (assets db)
  ∧ (∀ i r, assets db !! i = Some r →
       ∃ r', assets db' !! i = Some r'
         ∧ a_id r' = a_id r
         ∧ a_description r' = a_description r
         ∧ a_tags r' = a_tags r
         ∧ a_status r' = a_status r
         ∧ a_created_at r' = a_created_at r
         ∧ (a_id r = asset_id →
              a_name r' = name ∧ a_family r' = family ∧ a_updated_at r' = now)
         ∧ (a_id r ≠ asset_id → r' = r))
  ∧ versions db' = versions db
  ∧ files db' = files db
  ∧ comments db' = comments db
  ∧ (∀ description' tags',
       ensure_asset asset_id name family description' tags' now db = db').
Proof.
  intros (r0 & Hin & Hid) db'.
  assert (sql_select (is_asset asset_id) (assets db) ≠ []) as Hsel
    by (by eapply sql_select_nonempty).
  subst db'. unfold ensure_asset.
  destruct (sql_select (is_asset asset_id) (assets db)) as [|x l]; [done|].
  simpl. repeat split.
  - unfold sql_update. by rewrite length_fmap.
  - intros i r Hi. rewrite sql_update_lookup, Hi. simpl.
    unfold is_asset. destruct (decide (a_id r = asset_id)) as [He|He].
    + eexists. split; [done|]. simpl. by repeat split.
    + exists r. by repeat split.
Qed.

Lemma ensure_asset_existing_witness :
  let db := ensure_asset "model_Hero" "Hero" "model" "first" "a,b" "t1" init_db in
  (∃ r, r ∈ assets db ∧ a_id r = "model_Hero")
  ∧ (∀ description' tags',
       ensure_asset "model_Hero" "Hero2" "rig" description' tags' "t2" db =
       ensure_asset "model_Hero" "Hero2" "rig" "second" "c" "t2" db)
  ∧ a_description <$> assets (ensure_asset "model_Hero" "Hero2" "rig" "second" "c" "t2" db)
    = ["first"].
Proof.
  intros db.
  assert (∃ r, r ∈ assets db ∧ a_id r = "model_Hero") as Hex
    by (eexists; split; [left|reflexivity]).
  split; [exact Hex|].
  destruct (ensure_asset_existing "model_Hero" "Hero2" "rig" "second" "c" "t2" db Hex)
    as (_ & _ & _ & _ & _ & Hargs).
  split; [exact Hargs|reflexivity].
Defined.

(** ** [update_asset] *)

Lemma allow_cases (k : string) :
  k ∈ allow ↔ k = "name" ∨ k = "description" ∨ k = "tags" ∨ k = "status".
Proof.
  unfold allow. rewrite !elem_of_union, !elem_of_singleton. tauto.
Qed.

Lemma set_column_frame (r : asset_row) (kv : string * string) :
  a_id (set_column r kv) = a_id r
  ∧ a_family (set_column r kv) = a_family r
  ∧ a_created_at (set_column r kv) = a_created_at r
  ∧ a_updated_at (set_column r kv) = a_updated_at r.
Proof. unfold set_column. by repeat case_decide. Qed.

Lemma column_set_column_ne (k : string) (r : asset_row) (kv : string * string) :
  kv.1 ≠ k → column k (set_column r kv) = column k r.
Proof.
  intros Hne. unfold column, set_column.
  repeat case_decide; simpl; congruence.
Qed.

Lemma column_set_column_eq (k v : string) (r : asset_row) :
  k ∈ allow → column k (set_column r (k, v)) = v.
Proof.
  intros Hk. apply allow_cases in Hk as [->|[->|[->| ->]]]; reflexivity.
Qed.

Lemma foldl_set_column_frame (l : list (string * string)) (r : asset_row) :
  a_id (foldl set_column r l) = a_id r
  ∧ a_family (foldl set_column r l) = a_family r
  ∧ a_created_at (foldl set_column r l) = a_created_at r
  ∧ a_updated_at (foldl set_column r l) = a_updated_at r.
Proof.
  revert r. induction l as [|kv l IH]; intros r; simpl; [done|].
  destruct (IH (set_column r kv)) as (-> & -> & -> & ->).
  apply set_column_frame.
Qed.

Lemma foldl_set_column_absent (k : string) (l : list (string * string))
    (r : asset_row) :
  k ∉ l.*1 → column k (foldl set_column r l) = column k r.
Proof.
  revert r. induction l as [|kv l IH]; intros r Hk; simpl; [done|].
  rewrite fmap_cons, not_elem_of_cons in Hk. destruct Hk as [Hne Hk].
  rewrite IH by done. by apply column_set_column_ne.
Qed.

Lemma foldl_set_column_present (k v : string) (l : list (string * string))
    (r : asset_row) :
  NoDup l.*1 → k ∈ allow → (k, v) ∈ l →
  column k (foldl set_column r l) = v.
Proof.
  revert r. induction l as [|kv l IH]; intros r Hnd Hk Hin; simpl.
  - by apply elem_of_nil in Hin.
  - rewrite fmap_cons in Hnd. apply NoDup_cons in Hnd as [Hfresh Hnd].
    apply elem_of_cons in Hin as [<-|Hin].
    + rewrite foldl_set_column_absent by done.
      by apply column_set_column_eq.
    + by apply IH.
Qed.

Lemma whitelisted_sets {V} (fields : gmap string V) :
  let sets := filter (λ kv : string * V, kv.1 ∈ allow) (map_to_list fields) in
  NoDup sets.*1
  ∧ (∀ k v, (k, v) ∈ sets ↔ k ∈ allow ∧ fields !! k = Some v).
Proof.
  split.
  - eapply sublist_NoDup; [apply (NoDup_fst_map_to_list fields)|].
    apply fmap_sublist, sublist_filter.
  - intros k v. rewrite list_elem_of_filter, elem_of_map_to_list. done.
Qed.

(** Binding succeeds exactly when every value can be bound, and then
    gives each column the text its value is stored as. *)
Lemma bind_params_outcome (sets : list (string * field_value)) :
  match bind_params sets with
  | Returns params =>
      Forall2 (λ kv p, p.1 = kv.1 ∧ stored_text kv.2 = Some p.2) sets params
  | Raises => Exists (λ kv, stored_text kv.2 = None) sets
  end.
Proof.
  induction sets as [|kv sets IH]; simpl; [constructor|].
  destruct (stored_text kv.2) as [text|] eqn:Hkv; [|by left].
  destruct (bind_params sets) as [params|]; [|by right].
  by constructor.
Qed.

Lemma bound_params (sets : list (string * field_value))
    (params : list (string * string)) :
  Forall2 (λ kv p, p.1 = kv.1 ∧ stored_text kv.2 = Some p.2) sets params →
  params.*1 = sets.*1
  ∧ ∀ k v text, (k, v) ∈ sets → stored_text v = Some text →
      (k, text) ∈ params.
Proof.
  induction 1 as [|kv p sets params [Hk Hv] _ [IH1 IH2]]; [split; [done|]|].
  { intros k v text Hin. by apply elem_of_nil in Hin. }
  split; [by rewrite !fmap_cons, Hk, IH1|].
  intros k v text Hin Htext. apply elem_of_cons in Hin as [<-|Hin].
  - simpl in *. destruct p as [pk pt]. simpl in *. subst pk.
    rewrite Htext in Hv. injection Hv as <-. left.
  - right. by eapply IH2.
Qed.

(** On a dictionary of text values the call is [update_asset]. *)
Lemma bind_params_text (sets : list (string * string)) :
  bind_params (prod_map id FText <$> sets) = Returns sets.
Proof.
  induction sets as [|[k v] sets IH]; [done|].
  rewrite fmap_cons. simpl. by rewrite IH.
Qed.

(** C6, as amended.  For a dictionary whose values are text, integers,
    arrays or objects: [update_asset] with no whitelisted key returns the
    database as it was and logs nothing.  With a whitelisted key whose
    value cannot be bound to the statement (an array, an object, an
    integer outside SQLite's range) the call raises and nothing is set
    or logged.  Otherwise it succeeds and appends one [asset_update]
    record whose payload is the whitelisted part of the dictionary,
    leaves the other tables alone and keeps every asset row in place; a
    row of another asset is unchanged, and a row of [asset_id] keeps its
    id, family and [created_at], gets [updated_at = now], and each
    whitelisted column holds the supplied value as stored (text as it
    is, an integer in decimal) when the dictionary has the key and its
    old value when it has not.  Keys outside the whitelist change
    nothing, whatever their values.  On a dictionary of text values the
    call always succeeds, with the effect [update_asset]. *)
Theorem update_asset_whitelist (asset_id now : string)
    (fields : gmap string field_value) (db : DB) :
  let outcome := update_asset_call asset_id fields now db in
  (whitelisted_values fields = ∅ → outcome = Returns db)
  ∧ ((∃ k v, k ∈ allow ∧ fields !! k = Some v ∧ stored_text v = None) →
       outcome = Raises)
  ∧ (whitelisted_values fields ≠ ∅ →
     (∀ k v, k ∈ allow → fields !! k = Some v → is_Some (stored_text v)) →
     ∃ db',
       outcome = Returns db'
       ∧ changes db' =
           changes db ++ [mk_change "asset_update" asset_id
                            (omap logged_value (whitelisted_values fields))
                            now]
       ∧ versions db' = versions db
       ∧ files db' = files db
       ∧ comments db' = comments db
       ∧ length (assets db') = length (assets db)
       ∧ ∀ i r, assets db !! i = Some r →
           ∃ r', assets db' !! i = Some r'
             ∧ (a_id r ≠ asset_id → r' = r)
             ∧ (a_id r = asset_id →
                  a_id r' = a_id r
                  ∧ a_family r' = a_family r
                  ∧ a_created_at r' = a_created_at r
                  ∧ a_updated_at r' = now
                  ∧ ∀ k, k ∈ allow →
                      column k r'
                      = default (column k r) (fields !! k ≫= stored_text)))
  ∧ (∀ texts : gmap string string,
       update_asset_call asset_id (FText <$> texts) now db
       = Returns (update_asset asset_id texts now db)).
Proof.
  intros outcome. subst outcome. unfold whitelisted_values.
  split; [|split; [|split]].
  - intros Hempty. apply allow_filter_nil in Hempty.
    unfold update_asset_call. by rewrite Hempty.
  - intros (k & v & Hk & Hkv & Hv). unfold update_asset_call.
    destruct (whitelisted_sets fields) as [_ Hsets].
    destruct (filter _ (map_to_list fields)) as [|kv l] eqn:Hl.
    { exfalso. eapply (elem_of_nil (k, v)). by apply Hsets. }
    pose proof (bind_params_outcome (kv :: l)) as Hbind.
    destruct (bind_params (kv :: l)) as [params|]; [|done].
    exfalso. assert ((k, v) ∈ kv :: l) as Hin by (by apply Hsets).
    apply list_elem_of_lookup in Hin as [i Hi].
    destruct (Forall2_lookup_l _ _ _ _ _ Hbind Hi) as (p & _ & _ & Hp).
    simpl in Hp. congruence.
  - intros Hne Hbindable. unfold update_asset_call.
    destruct (whitelisted_sets fields) as [Hnd Hsets].
    destruct (filter _ (map_to_list fields)) as [|kv l] eqn:Hl.
    { apply allow_filter_nil in Hl. by destruct Hne. }
    pose proof (bind_params_outcome (kv :: l)) as Hbind.
    destruct (bind_params (kv :: l)) as [params|].
    2:{ exfalso. apply Exists_exists in Hbind as ([k v] & Hin & Hv).
        apply Hsets in Hin as [Hk Hkv].
        destruct (Hbindable k v Hk Hkv) as [text Htext].
        simpl in Hv. congruence. }
    apply bound_params in Hbind as [Hkeys Hbound].
    eexists. split; [reflexivity|]. simpl.
    split; [done|]. do 3 (split; [done|]).
    split; [unfold sql_update; by rewrite length_fmap|].
    intros i r Hi. rewrite sql_update_lookup, Hi. simpl.
    unfold is_asset. destruct (decide (a_id r = asset_id)) as [He|He].
    + eexists. split; [done|]. split; [done|]. intros _.
      destruct (foldl_set_column_frame params r) as (Hid & Hfam & Hcr & _).
      unfold set_updated_at. simpl.
      split; [done|]. split; [done|]. split; [done|]. split; [done|].
      intros k Hk.
      change (column k (set_updated_at now (foldl set_column r params))
              = default (column k r) (fields !! k ≫= stored_text)).
      assert (∀ r0, column k (set_updated_at now r0) = column k r0) as ->
        by (intros r0; unfold column; by repeat case_decide).
      destruct (fields !! k) as [v|] eqn:Hv; simpl.
      * destruct (Hbindable k v Hk Hv) as [text Htext]. rewrite Htext. simpl.
        apply (foldl_set_column_present k text params r);
          [by rewrite Hkeys|done|].
        apply (Hbound k v text); [|done]. by apply Hsets.
      * apply (foldl_set_column_absent k params r). rewrite Hkeys.
        intros Hin.
        apply list_elem_of_fmap in Hin as ([k' v'] & -> & Hin).
        apply Hsets in Hin as [_ Hin]. simpl in *. congruence.
    + exists r. split; [done|]. split; done.
  - intros texts. unfold update_asset_call, update_asset.
    rewrite map_to_list_fmap.
    assert (filter (λ kv : string * field_value, kv.1 ∈ allow)
              (prod_map id FText <$> map_to_list texts)
            = prod_map id FText
                <$> filter (λ kv : string * string, kv.1 ∈ allow)
                      (map_to_list texts)) as ->.
    { induction (map_to_list texts) as [|[k v] l IH]; [done|].
      rewrite fmap_cons.
      destruct (decide (k ∈ allow)) as [Hk|Hk].
      - rewrite !filter_cons_True by done. by rewrite fmap_cons, IH.
      - by rewrite !filter_cons_False by done. }
    destruct (filter _ (map_to_list texts)) as [|kv l] eqn:Hl; [done|].
    rewrite <-Hl, bind_params_text, Hl.
    rewrite fmap_cons. do 2 f_equal.
    rewrite map_filter_fmap.
    assert (filter (λ '(i, x), (i, FText x).1 ∈ allow) texts
            = filter (λ kv0 : string * string, kv0.1 ∈ allow) texts) as ->
      by (by apply map_filter_ext).
    apply map_eq. intros k. rewrite lookup_omap, !lookup_fmap.
    by destruct (filter _ texts !! k).
Qed.

(** C6, counterexample.  A tag list under the whitelisted key [tags]:
    the [UPDATE] cannot bind a list, the call raises, and neither the
    column nor the change log is written. *)
Lemma update_asset_list_value :
  let fields : gmap string field_value := {[ "tags" := FArray ]} in
  let db := ensure_asset "model_Hero" "Hero" "model" "" "" "t1" init_db in
  whitelisted_values fields ≠ ∅
  ∧ update_asset_call "model_Hero" fields "t2" db = Raises
  ∧ ¬ update_always_applies.
Proof.
  intros fields db. split; [|split].
  - intros H. apply (f_equal (λ m, m !! "tags")) in H. vm_compute in H.
    discriminate H.
  - reflexivity.
  - intros H. destruct (H "model_Hero" fields "t2" db) as (db' & Hcall & _).
    vm_compute in Hcall. discriminate Hcall.
Qed.

(** ** [upsert_version] and the uniqueness of version rows *)

Lemma filter_sql_update_same {row} (P : row → Prop) `{!∀ r, Decision (P r)}
    (f : row → row) (t : list row) :
  (∀ r, P r → P (f r)) →
  sql_select P (sql_update P f t) = f <$> sql_select P t.
Proof.
  intros Hf. unfold sql_select, sql_update.
  induction t as [|r t IH]; [done|].
  rewrite fmap_cons. destruct (decide (P r)) as [HP|HP].
  - rewrite !filter_cons_True by auto. by rewrite fmap_cons, IH.
  - by rewrite !filter_cons_False.
Qed.

Lemma length_filter_fmap {row} (Q : row → Prop) `{!∀ r, Decision (Q r)}
    (g : row → row) (t : list row) :
  (∀ r, Q (g r) ↔ Q r) →
  length (filter Q (g <$> t)) = length (filter Q t).
Proof.
  intros Hg. induction t as [|r t IH]; [done|].
  rewrite fmap_cons. destruct (decide (Q r)) as [HQ|HQ].
  - rewrite (filter_cons_True Q (g r)) by (by apply Hg).
    rewrite (filter_cons_True Q r) by done. simpl. by rewrite IH.
  - rewrite (filter_cons_False Q (g r)) by (by rewrite Hg).
    by rewrite (filter_cons_False Q r).
Qed.

Lemma length_filter_filter {row} (Q P : row → Prop)
    `{!∀ r, Decision (Q r)} `{!∀ r, Decision (P r)} (t : list row) :
  (length (filter Q (filter P t)) ≤ length (filter Q t))%nat.
Proof.
  induction t as [|r t IH]; [done|].
  destruct (decide (P r)); destruct (decide (Q r));
    rewrite ?filter_cons_True, ?filter_cons_False by done;
    rewrite ?filter_cons_True, ?filter_cons_False by done; simpl; lia.
Qed.

Lemma insert_or_ignore_unique (r : version_row) (t : list version_row) :
  versions_unique t → versions_unique (insert_or_ignore_version r t).
Proof.
  intros Hu a v. unfold insert_or_ignore_version.
  destruct (sql_select (is_version (v_asset_id r) (v_version r)) t)
    as [|x l] eqn:Hsel; [|apply Hu].
  unfold sql_select, sql_insert in *. rewrite filter_app, length_app.
  destruct (decide (is_version a v r)) as [[<- <-]|Hk].
  - rewrite Hsel. rewrite filter_cons_True by done. simpl. lia.
  - rewrite (filter_cons_False _ r) by done. specialize (Hu a v).
    unfold sql_select in Hu. simpl. lia.
Qed.

Lemma sql_update_unique (P : version_row → Prop) `{!∀ r, Decision (P r)}
    (f : version_row → version_row) (t : list version_row) :
  (∀ r, v_asset_id (f r) = v_asset_id r ∧ v_version (f r) = v_version r) →
  versions_unique t → versions_unique (sql_update P f t).
Proof.
  intros Hf Hu a v. unfold sql_select, sql_update.
  rewrite length_filter_fmap; [apply Hu|].
  intros r. unfold is_version. destruct (decide (P r)); [|done].
  destruct (Hf r) as [-> ->]. done.
Qed.

Lemma sql_delete_unique (P : version_row → Prop) `{!∀ r, Decision (P r)}
    (t : list version_row) :
  versions_unique t → versions_unique (sql_delete P t).
Proof.
  intros Hu a v. unfold sql_select, sql_delete.
  etrans; [apply length_filter_filter|apply Hu].
Qed.

(** The uniqueness constraint holds on the empty database and is kept by
    every mutating operation. *)
Lemma exec_versions_unique (c : call) (db : DB) :
  versions_unique (versions db) → versions_unique (versions (exec c db)).
Proof.
  intros Hu. destruct c; simpl.
  - unfold ensure_asset. by destruct (sql_select _ _).
  - apply sql_update_unique; [done|]. by apply insert_or_ignore_unique.
  - done.
  - unfold update_asset. by destruct (filter _ _).
  - by apply sql_update_unique.
  - by apply sql_delete_unique.
  - by apply sql_delete_unique.
  - done.
Qed.

Lemma upsert_version_select (asset_id : string) (version : Z)
    (metadata : gmap string jval) (thumbnail_path now : string) (db : DB) :
  versions_unique (versions db) →
  ∃ r,
    sql_select (is_version asset_id version)
      (versions (upsert_version asset_id version metadata thumbnail_path now db))
    = [mk_version asset_id version metadata thumbnail_path
         (v_archived r) (v_created_at r) now]
    ∧ (sql_select (is_version asset_id version) (versions db) = [r]
       ∨ (sql_select (is_version asset_id version) (versions db) = []
          ∧ r = mk_version asset_id version metadata thumbnail_path 0 now now)).
Proof.
  intros Hu. unfold upsert_version. simpl.
  rewrite filter_sql_update_same by (by intros r [? ?]).
  unfold insert_or_ignore_version. simpl.
  destruct (sql_select (is_version asset_id version) (versions db))
    as [|x l] eqn:Hsel.
  - eexists. split; [|right; split; reflexivity].
    unfold sql_select, sql_insert in *. rewrite filter_app, Hsel.
    rewrite filter_cons_True by done. reflexivity.
  - assert (l = []) as ->.
    { specialize (Hu asset_id version). rewrite Hsel in Hu.
      destruct l; [done|simpl in Hu; lia]. }
    exists x. split; [|by left]. rewrite Hsel. simpl.
    assert (is_version asset_id version x) as [Ha Hv].
    { assert (x ∈ sql_select (is_version asset_id version) (versions db)) as Hin
        by (rewrite Hsel; left).
      by apply list_elem_of_filter in Hin as [? _]. }
    by rewrite Ha, Hv.
Qed.

Lemma invoke_bindable (c : call) (db : DB) :
  bindable c → invoke c db = Returns (exec c db).
Proof. intros Hc. unfold invoke. by rewrite decide_True. Qed.

(** C3, as amended.  On a [versions] table that satisfies
    [UNIQUE(asset_id, version)]: when [version] is within SQLite's
    integer range, two calls of [upsert_version] for the same pair both
    succeed and leave exactly one row for the pair, and that row carries
    the metadata and the thumbnail of the second call; when [version] is
    outside the range, each call raises and writes nothing. *)
Theorem upsert_version_idempotent (asset_id : string) (version : Z)
    (metadata1 metadata2 : gmap string jval)
    (thumbnail1 thumbnail2 now1 now2 : string) (db : DB) :
  versions_unique (versions db) →
  let first := UpsertVersion asset_id version metadata1 thumbnail1 now1 in
  let second := UpsertVersion asset_id version metadata2 thumbnail2 now2 in
  (sqlite_int version →
     ∃ db1 db2 r,
       invoke first db = Returns db1
       ∧ invoke second db1 = Returns db2
       ∧ sql_select (is_version asset_id version) (versions db2) = [r]
       ∧ v_metadata_json r = metadata2
       ∧ v_thumbnail_path r = thumbnail2)
  ∧ (¬ sqlite_int version →
       invoke first db = Raises ∧ invoke second db = Raises).
Proof.
  intros Hu first second. subst first second. split.
  - intros Hv.
    assert (versions_unique
              (versions (upsert_version asset_id version metadata1 thumbnail1
                           now1 db))) as Hu1
      by apply (exec_versions_unique
                  (UpsertVersion asset_id version metadata1 thumbnail1 now1)
                  db Hu).
    destruct (upsert_version_select asset_id version metadata2 thumbnail2 now2
                _ Hu1) as (r & Hsel & _).
    eexists _, _, _. split; [by apply invoke_bindable|].
    split; [by apply invoke_bindable|].
    split; [exact Hsel|]. by split.
  - intros Hv. unfold invoke. simpl. by rewrite !decide_False by done.
Qed.

Lemma upsert_version_idempotent_witness :
  versions_unique (versions init_db)
  ∧ sqlite_int 1
  ∧ ∃ db1 db2 r,
      invoke (UpsertVersion "model_Hero" 1 {[ "polycount" := JInt 12 ]}
                "a.jpg" "t1") init_db = Returns db1
      ∧ invoke (UpsertVersion "model_Hero" 1 {[ "polycount" := JInt 9000 ]}
                  "b.jpg" "t2") db1 = Returns db2
      ∧ sql_select (is_version "model_Hero" 1) (versions db2) = [r]
      ∧ v_metadata_json r = {[ "polycount" := JInt 9000 ]}
      ∧ v_thumbnail_path r = "b.jpg".
Proof.
  assert (versions_unique (versions init_db)) as Hu
    by (intros a v; simpl; lia).
  assert (sqlite_int 1) as Hv by (unfold sqlite_int; lia).
  split; [exact Hu|]. split; [exact Hv|].
  exact (proj1 (upsert_version_idempotent "model_Hero" 1
                  {[ "polycount" := JInt 12 ]} {[ "polycount" := JInt 9000 ]}
                  "a.jpg" "b.jpg" "t1" "t2" init_db Hu) Hv).
Defined.

(** C3, counterexample.  The version [2^63] is an integer, yet
    [upsert_version] raises on it and leaves no row. *)
Lemma upsert_version_overflow :
  invoke (UpsertVersion "model_Hero" 9223372036854775808 ∅ "" "t1") init_db
  = Raises
  ∧ ¬ upsert_twice_one_row "model_Hero" 9223372036854775808.
Proof.
  split; [reflexivity|].
  intros H.
  destruct (H ∅ ∅ "" "" "t1" "t2" init_db) as (db1 & _ & _ & Hcall & _).
  - intros a v. simpl. lia.
  - discriminate Hcall.
Qed.

(** ** [delete_version] followed by [get_asset] *)

(** C7.  After [delete_version] no row of [files] and no row of [versions]
    belongs to the pair; the asset row itself stays, so [get_asset] answers
    exactly when it did before, and the record it returns lists no version
    entry and no file entry with that version number. *)
Theorem delete_version_removes (asset_id now : string) (version : Z) (db : DB) :
  let db' := delete_version asset_id version now db in
  (∀ r, r ∈ files db' → ¬ is_file asset_id version r)
  ∧ (∀ r, r ∈ versions db' → ¬ is_version asset_id version r)
  ∧ (is_Some (get_asset asset_id db') ↔ is_Some (get_asset asset_id db))
  ∧ (∀ a, get_asset asset_id db' = Some a →
       (∀ e, e ∈ ad_versions a → ve_version e ≠ version)
       ∧ (∀ e, e ∈ ad_files a → fe_version e ≠ version)).
Proof.
  intros db'. subst db'. unfold delete_version, get_asset. simpl.
  split; [|split; [|split]].
  - intros r Hr. unfold sql_delete in Hr.
    by apply list_elem_of_filter in Hr as [? _].
  - intros r Hr. unfold sql_delete in Hr.
    by apply list_elem_of_filter in Hr as [? _].
  - destruct (sql_select (is_asset asset_id) (assets db)); simpl;
      split; intros [? ?]; by eauto.
  - intros a Ha.
    destruct (sql_select (is_asset asset_id) (assets db)) as [|x l]; [done|].
    injection Ha as <-. simpl. split.
    + intros e He. apply list_elem_of_fmap in He as (r & -> & Hr).
      rewrite merge_sort_Permutation in Hr.
      unfold sql_select, sql_delete in Hr.
      apply list_elem_of_filter in Hr as [Hid Hr].
      apply list_elem_of_filter in Hr as [Hnot _].
      simpl. intros Hv. apply Hnot. by split.
    + intros e He. apply list_elem_of_fmap in He as (r & -> & Hr).
      unfold sql_select, sql_delete in Hr.
      apply list_elem_of_filter in Hr as [Hid Hr].
      apply list_elem_of_filter in Hr as [Hnot _].
      simpl. intros Hv. apply Hnot. by split.
Qed.

(** ** [list_changes] *)

Lemma created_asc_total_or (r1 r2 : change_row) :
  created_asc r1 r2 ∨ created_asc r2 r1.
Proof. unfold created_asc. apply (total String.le). Qed.

#[local] Instance created_asc_total : Total created_asc.
Proof. intros r1 r2. apply created_asc_total_or. Qed.

#[local] Instance created_asc_trans : Transitive created_asc.
Proof. intros r1 r2 r3. unfold created_asc. apply transitivity. Qed.

Lemma ts_lt_not_le (s1 s2 : string) : ts_lt s1 s2 ↔ ¬ String.le s2 s1.
Proof.
  unfold ts_lt, String.le, String.ltb, String.leb.
  rewrite (String.compare_antisym s1 s2).
  destruct (String.compare s2 s1); simpl; split; intros H; try done.
  by intros [].
Qed.

Lemma ts_lt_empty (s : string) : s ≠ "" → ts_lt "" s.
Proof. by destruct s. Qed.

(** What [ORDER BY created_at ASC LIMIT n] returns: the first [n] rows
    of the table in order, all of them when [n] is negative, the rows
    left out being no older. *)
Lemma limit_sorted (n : Z) (t : list change_row) :
  let rows := sql_limit n (order_by created_asc t) in
  StronglySorted created_asc rows
  ∧ ∃ rest,
      t ≡ₚ rows ++ rest
      ∧ (∀ r r', r ∈ rows → r' ∈ rest → created_asc r r')
      ∧ length rows
        = (if decide (n < 0)%Z then length t
           else Z.to_nat n `min` length t)%nat.
Proof.
  intros rows. subst rows. unfold sql_limit.
  pose proof (StronglySorted_order_by created_asc t) as Hs.
  destruct (decide (n < 0)) as [Hn|Hn].
  - split; [done|]. exists []. rewrite (right_id_L [] (++)).
    split; [by rewrite order_by_Permutation|]. split.
    + intros r r' _ Hr'. by apply elem_of_nil in Hr'.
    + by rewrite order_by_Permutation.
  - rewrite <-(take_drop (Z.to_nat n) (order_by created_asc t)) in Hs.
    apply StronglySorted_app in Hs as (Hle & Hs1 & _).
    split; [done|]. exists (drop (Z.to_nat n) (order_by created_asc t)).
    split; [by rewrite take_drop, order_by_Permutation|]. split; [done|].
    by rewrite length_take, order_by_Permutation.
Qed.

Lemma sql_limit_sorted (n : Z) (t : list change_row) :
  StronglySorted created_asc (sql_limit n (order_by created_asc t))
  ∧ sql_limit n (order_by created_asc t) ⊆+ t.
Proof.
  destruct (limit_sorted n t) as (Hs & rest & Hp & _).
  split; [done|].
  trans (sql_limit n (order_by created_asc t) ++ rest);
    [by apply submseteq_inserts_r|by apply Permutation_submseteq].
Qed.

(** Rows that tie: the ones returned are the first of them in table
    order. *)
Lemma limit_ties (n : Z) (t : list change_row) (stamp : string) :
  filter (λ r, ch_created_at r = stamp) (sql_limit n (order_by created_asc t))
  `prefix_of` filter (λ r, ch_created_at r = stamp) t.
Proof.
  assert (filter (λ r, ch_created_at r = stamp) (order_by created_asc t)
          = filter (λ r, ch_created_at r = stamp) t) as Hall.
  { rewrite (order_by_filter created_asc). apply order_by_sorted.
    assert (Forall (λ r, ch_created_at r = stamp)
              (filter (λ r, ch_created_at r = stamp) t)) as Hf.
    { apply Forall_forall. intros r Hr.
      by apply list_elem_of_filter in Hr as [? _]. }
    induction Hf as [|r l Hr Hl IH]; constructor; [done|].
    eapply Forall_impl; [exact Hl|]. intros r' Hr'.
    unfold created_asc. by rewrite Hr, Hr'. }
  unfold sql_limit. destruct (decide (n < 0)); [by rewrite Hall|].
  rewrite <-Hall.
  exists (filter (λ r, ch_created_at r = stamp)
            (drop (Z.to_nat n) (order_by created_asc t))).
  by rewrite <-filter_app, take_drop.
Qed.

Lemma filter_every {A} (P : A → Prop) `{!∀ x, Decision (P x)} (l : list A) :
  (∀ x, P x) → filter P l = l.
Proof.
  intros HP. induction l as [|x l IH]; [done|].
  rewrite filter_cons_True by done. by rewrite IH.
Qed.

Lemma filter_after_since (since_iso : option string) (t : list change_row) :
  filter (after_since since_iso) t
  = match since_iso with
    | Some s =>
        if decide (s = "") then t
        else filter (λ r, ts_lt s (ch_created_at r)) t
    | None => t
    end.
Proof.
  destruct since_iso as [s|]; simpl.
  - destruct (decide (s = "")) as [->|Hs].
    + apply filter_every. intros r. by left.
    + apply list_filter_iff. intros r. simpl. split; [|by right].
      by intros [?|?].
  - by apply filter_every.
Qed.

(** C1, as amended.  On a change log whose rows all carry a clock
    reading, [list_changes(X, L)] raises when [L] is outside SQLite's
    integer range and otherwise returns rows of the log, each at most as
    often as the log has it, all stamped strictly after [X], in ascending
    [created_at] order.  They are the oldest of the rows after [X] (of
    all rows when [X] is omitted or empty): [min L n] of the [n] such
    rows when [L >= 0], 100 at most with the default limit, and every one
    of them when [L] is negative; a row left out is no older than any row
    returned, and among rows with the same stamp the first in table order
    are the ones returned. *)
Theorem list_changes_window (since_iso : option string) (limit : Z) (db : DB) :
  stamped db →
  let rows := list_changes since_iso limit db in
  let candidates := filter (after_since since_iso) (changes db) in
  list_changes_call since_iso limit db
  = (if decide (sqlite_int limit) then Returns rows else Raises)
  ∧ (∀ X, since_iso = Some X →
       Forall (λ r, ts_lt X (ch_created_at r)
                    ∧ ¬ String.le (ch_created_at r) X) rows)
  ∧ StronglySorted created_asc rows
  ∧ rows ⊆+ changes db
  ∧ (0 ≤ limit → Z.of_nat (length rows) ≤ limit)
  ∧ (limit = default_limit → (length rows ≤ 100)%nat)
  ∧ (∃ rest,
       candidates ≡ₚ rows ++ rest
       ∧ (∀ r r', r ∈ rows → r' ∈ rest → created_asc r r')
       ∧ length rows
         = (if decide (limit < 0)%Z then length candidates
            else Z.to_nat limit `min` length candidates)%nat)
  ∧ ∀ stamp,
      filter (λ r, ch_created_at r = stamp) rows
      `prefix_of` filter (λ r, ch_created_at r = stamp) candidates.
Proof.
  intros Hst rows candidates.
  assert (rows = sql_limit limit (order_by created_asc candidates)) as Hrows.
  { subst rows candidates. rewrite filter_after_since. unfold list_changes.
    destruct since_iso as [s|]; [|done]. by destruct (decide (s = "")). }
  assert (Forall (λ r, ∀ X, since_iso = Some X → ts_lt X (ch_created_at r))
            candidates) as Hafter.
  { apply Forall_forall. intros r Hr. subst candidates.
    apply list_elem_of_filter in Hr as [Hr Hin]. intros X ->. simpl in Hr.
    destruct Hr as [->|Hr]; [|done]. apply ts_lt_empty.
    unfold stamped in Hst. rewrite Forall_forall in Hst. by apply Hst. }
  destruct (limit_sorted limit candidates) as (Hs & rest & Hp & Hle & Hlen).
  rewrite <-Hrows in Hs, Hp, Hle, Hlen.
  assert (rows ⊆+ candidates) as Hsub
    by (rewrite Hp; by apply submseteq_inserts_r).
  split; [done|]. split; [|split; [done|split; [|split; [|split; [|split]]]]].
  - intros X HX. apply Forall_forall. intros r Hr.
    assert (ts_lt X (ch_created_at r)) as Hlt.
    { rewrite Forall_forall in Hafter. apply Hafter; [|done].
      by apply (elem_of_submseteq _ _ _ Hr). }
    split; [done|]. by apply ts_lt_not_le.
  - etrans; [exact Hsub|]. apply sublist_submseteq, sublist_filter.
  - intros Hn. rewrite Hlen. rewrite decide_False by lia. lia.
  - intros ->. rewrite Hlen. unfold default_limit.
    rewrite decide_False by lia. lia.
  - by exists rest.
  - intros stamp. rewrite Hrows. apply limit_ties.
Qed.

Lemma list_changes_window_witness :
  let db :=
    run [AddComment "model_Hero" "ann" "first" "2026-01-01T00:00:03";
         AddComment "model_Hero" "bob" "second" "2026-01-01T00:00:01";
         AddComment "model_Hero" "cy" "third" "2026-01-01T00:00:02"] init_db in
  stamped db
  ∧ Forall (λ r, ts_lt "2026-01-01T00:00:01" (ch_created_at r)
                 ∧ ¬ String.le (ch_created_at r) "2026-01-01T00:00:01")
      (list_changes (Some "2026-01-01T00:00:01") 1 db)
  ∧ ch_created_at <$> list_changes (Some "2026-01-01T00:00:01") 1 db
    = ["2026-01-01T00:00:02"].
Proof.
  intros db.
  assert (stamped db) as Hst by (repeat constructor; done).
  split; [exact Hst|].
  destruct (list_changes_window (Some "2026-01-01T00:00:01") 1 db Hst)
    as (_ & Hafter & _).
  split; [exact (Hafter _ eq_refl)|reflexivity].
Defined.

(** C1, counterexample.  With the limit [-1] the query has no bound: on
    a log of one row the call returns that row, which is more than [-1]
    rows. *)
Lemma list_changes_negative_limit :
  let db := add_comment "model_Hero" "ann" "first" "2026-01-01T00:00:01"
              init_db in
  list_changes_call None (-1) db = Returns (changes db)
  ∧ length (changes db) = 1%nat
  ∧ ¬ list_changes_capped.
Proof.
  intros db. split; [reflexivity|]. split; [reflexivity|].
  intros H. specialize (H None (-1) db (changes db) eq_refl).
  simpl in H. lia.
Qed.

(** Every change row written by a run whose clock readings are non-empty
    is stamped. *)
Lemma run_stamped (cs : list call) (db : DB) :
  Forall (λ c, clock_of c ≠ "") cs → stamped db → stamped (run cs db).
Proof.
  unfold run, stamped. revert db.
  induction cs as [|c cs IH]; intros db Hcs Hdb; simpl; [done|].
  apply Forall_cons in Hcs as [Hc Hcs]. apply IH; [done|].
  rewrite changes_exec. case_decide; [|done].
  apply Forall_app. split; [done|].
  apply Forall_singleton. by destruct c.
Qed.

(** ** The role gate *)

Lemma role_rank_required (min_role : string) :
  1 ≤ default 1 (role_rank !! min_role) ≤ 3.
Proof.
  unfold role_rank.
  destruct (decide (min_role = "viewer")) as [->|?]; [done|].
  destruct (decide (min_role = "editor")) as [->|?]; [done|].
  destruct (decide (min_role = "admin")) as [->|?]; [done|].
  by rewrite !lookup_insert_ne, lookup_singleton_ne by done.
Qed.

Lemma require_role_pass {St : Type} (min_role role : string)
    (func : string → St → response * St)
    (key_file : option (gmap string string)) (x_api_key : option string)
    (st : St) :
  load_keys key_file !! default "" x_api_key = Some role →
  default 1 (role_rank !! min_role) ≤ default 0 (role_rank !! role) →
  require_role min_role func key_file x_api_key st = func role st.
Proof.
  intros Hkey Hge. unfold require_role. rewrite Hkey.
  assert (role ≠ "") as Hne.
  { intros ->. pose proof (role_rank_required min_role).
    unfold role_rank in Hge at 2. simpl in Hge.
    rewrite !lookup_insert_ne, lookup_singleton_ne in Hge by done.
    simpl in Hge. lia. }
  rewrite decide_False by done. by rewrite decide_False by lia.
Qed.

(** C5, as amended.  For a handler gated at [min_role], with [keys] the
    loaded key table and the presented key read as the empty string when
    the header is absent (so that a request without the header is
    treated exactly as one that presents the empty key): a key that is
    not in the table is answered 401 and the handler does not run; so is
    a key whose role in the table is the empty string; a key whose role
    is a non-empty string ranked below [min_role] is answered 403; a key
    whose role is ranked at or above [min_role] reaches the handler with
    that role attached; and an admin key reaches the handler whatever
    [min_role] is. *)
Theorem require_role_gate {St : Type} (min_role : string)
    (func : string → St → response * St)
    (key_file : option (gmap string string)) (x_api_key : option string)
    (st : St) :
  let keys := load_keys key_file in
  let api_key := default "" x_api_key in
  let rank role := default 0 (role_rank !! role) in
  let required := default 1 (role_rank !! min_role) in
  let answer := require_role min_role func key_file x_api_key st in
  (keys !! api_key = None →
     answer = (Jsonify (ErrorBody "Unauthorized") 401, st))
  ∧ (keys !! api_key = Some "" →
       answer = (Jsonify (ErrorBody "Unauthorized") 401, st))
  ∧ (∀ role, keys !! api_key = Some role → role ≠ "" →
       rank role < required →
       answer = (Jsonify (ErrorBody "Forbidden") 403, st))
  ∧ (∀ role, keys !! api_key = Some role → required ≤ rank role →
       answer = func role st)
  ∧ (keys !! api_key = Some "admin" → answer = func "admin" st)
  ∧ (x_api_key = None →
       answer = require_role min_role func key_file (Some "") st).
Proof.
  intros keys api_key rank required answer.
  subst keys api_key rank required answer. unfold require_role.
  split; [by intros ->|].
  split; [by intros ->|].
  split; [|split; [|split]].
  - intros role -> Hne Hlt.
    rewrite decide_False by done. by rewrite decide_True by done.
  - intros role Hkey Hge. by apply require_role_pass.
  - intros ->. rewrite decide_False by done.
    pose proof (role_rank_required min_role).
    rewrite decide_False; [done|].
    assert (default 0 (role_rank !! "admin") = 3) as -> by done. lia.
  - by intros ->.
Qed.

(** The scenario of the default key table on an editor-gated handler: no
    key gives 401, the viewer key gives 403, the admin key reaches the
    handler. *)
Lemma require_role_gate_witness :
  let func := λ (role : string) (db : DB), (Jsonify OkBody 200, db) in
  require_role "editor" func None None init_db
    = (Jsonify (ErrorBody "Unauthorized") 401, init_db)
  ∧ require_role "editor" func None (Some "demo-view") init_db
    = (Jsonify (ErrorBody "Forbidden") 403, init_db)
  ∧ require_role "editor" func None (Some "demo-admin") init_db
    = (Jsonify OkBody 200, init_db).
Proof.
  intros func. split; [|split].
  - destruct (require_role_gate "editor" func None None init_db)
      as (Habsent & _).
    apply Habsent; reflexivity.
  - destruct (require_role_gate "editor" func None (Some "demo-view") init_db)
      as (_ & _ & Hlow & _).
    apply (Hlow "viewer"); [reflexivity|discriminate|reflexivity].
  - destruct (require_role_gate "editor" func None (Some "demo-admin") init_db)
      as (_ & _ & _ & _ & Hadmin & _).
    apply Hadmin; reflexivity.
Defined.

(** C5, counterexample.  With the key table [{"": "admin"}] a request
    without the header passes an admin-gated handler; with the table
    [{"k": ""}] the key [k], whose role ranks 0, below every minimum, is
    answered 401 and not 403. *)
Lemma empty_key_admitted :
  require_role "admin" probe_handler (Some {[ "" := "admin" ]}) None ()
  = (Jsonify OkBody 200, ())
  ∧ ¬ absent_key_unauthorized
  ∧ require_role "viewer" probe_handler (Some {[ "k" := "" ]}) (Some "k") ()
    = (Jsonify (ErrorBody "Unauthorized") 401, ())
  ∧ ¬ low_rank_forbidden.
Proof.
  split; [reflexivity|]. split; [|split; [reflexivity|]].
  - intros H. specialize (H "admin" (Some {[ "" := "admin" ]})).
    vm_compute in H. discriminate H.
  - intros H.
    specialize (H "viewer" (Some {[ "k" := "" ]}) "k" "" eq_refl).
    vm_compute in H. specialize (H eq_refl). discriminate H.
Qed.

(** ** [POST /api/assets] without an asset id *)

(** C10, as amended.  When the body of [POST /api/assets] carries no
    usable [asset_id] (no JSON body, a body that is not an object, an
    object without the member, or with a falsy one), the handler never
    reaches a database call: whatever the rest of the handler is, the
    state is left as it was, with no asset row, no version row and no
    change record written.  The answer is 400 when the values the
    handler touches on the way to its test have the types it expects:
    the body is an object or a falsy value, [family] is text or falsy,
    and [tags], when an array, holds text only.  Otherwise an exception
    leaves the handler before the test and the answer is not 400. *)
Theorem upsert_asset_requires_id {St : Type}
    (tail : asset_fields → St → py response * St) (body : option json)
    (st : St) :
  ¬ json_has_asset_id body →
  upsert_asset_json tail body st
  = (if guard_types_ok body
     then Returns (Jsonify (ErrorBody "asset_id required") 400)
     else Raises, st).
Proof.
  intros Hmissing. unfold upsert_asset_json, upsert_asset_guard, guard_types_ok.
  destruct body as [v|]; [|done].
  destruct (json_truthy v) eqn:Hv; [|done].
  destruct v as [| | | | |items|m]; try done.
  assert (json_truthy (json_or (json_get "asset_id" m) (JText "")) = false)
    as Hid.
  { unfold json_or. destruct (json_get "asset_id" m) as [x|] eqn:Hget; [|done].
    destruct (json_truthy x) eqn:Hx; [|done].
    destruct Hmissing. by exists m, x. }
  revert Hid.
  generalize (json_or (json_get "asset_id" m) (JText "")) as asset_id.
  intros asset_id Hid. unfold json_or.
  destruct (json_get "family" m) as [f|];
    [destruct (json_truthy f) eqn:Hf; destruct f; try done|];
    (destruct (json_get "tags" m) as [[| | | | |tag_items|]|]; cbn;
     rewrite ?Hid; try done;
     try (destruct (json_strings tag_items); cbn; by rewrite ?Hid)).
Qed.

Lemma upsert_asset_requires_id_witness :
  let body := Some (JObj [("asset_id", JText ""); ("name", JText "Hero");
                          ("tags", JArr [JText "a"; JText "b"])]) in
  let tail := λ (_ : asset_fields) (db : DB),
                (Returns (Jsonify OkBody 200), db) in
  ¬ json_has_asset_id body
  ∧ upsert_asset_json tail body init_db
    = (Returns (Jsonify (ErrorBody "asset_id required") 400), init_db).
Proof.
  intros body tail.
  assert (¬ json_has_asset_id body) as Hm.
  { intros (m & v & Hbody & Hget & Hv). injection Hbody as <-.
    vm_compute in Hget. injection Hget as <-. discriminate Hv. }
  split; [exact Hm|].
  exact (upsert_asset_requires_id tail body init_db Hm).
Defined.

(** C10, counterexample.  The body [{"family": 5}] has no [asset_id],
    yet the handler raises on [(5).lower()] before it tests the id: the
    answer is not 400. *)
Lemma missing_id_raises :
  let body := Some (JObj [("family", JNum 5)]) in
  let tail := λ (_ : asset_fields) (st : unit),
                (Returns (Jsonify OkBody 200), st) in
  ¬ json_has_asset_id body
  ∧ upsert_asset_json tail body () = (Raises, ())
  ∧ ¬ missing_id_rejected.
Proof.
  intros body tail.
  assert (¬ json_has_asset_id body) as Hm.
  { intros (m & v & Hbody & Hget & Hv). injection Hbody as <-.
    vm_compute in Hget. discriminate Hget. }
  split; [exact Hm|]. split; [reflexivity|].
  intros H. specialize (H tail body Hm). vm_compute in H. discriminate H.
Qed.

(** ** Path resolution *)

Lemma string_app_cons (x : ascii) (a b : string) :
  String x a +:+ b = String x (a +:+ b).
Proof. reflexivity. Qed.

Lemma string_app_assoc (a b c : string) : (a +:+ b) +:+ c = a +:+ b +:+ c.
Proof.
  induction a as [|x a IH]; [done|].
  by rewrite !string_app_cons, IH.
Qed.

Lemma prefix_cons (a b : ascii) (s1 s2 : string) :
  String.prefix (String a s1) (String b s2)
  = if Ascii.eqb a b then String.prefix s1 s2 else false.
Proof.
  change (String.prefix (String a s1) (String b s2))
    with (match ascii_dec a b with
          | left _ => String.prefix s1 s2
          | right _ => false
          end).
  destruct (ascii_dec a b) as [->|Hne].
  - by rewrite Ascii.eqb_refl.
  - apply Ascii.eqb_neq in Hne. by rewrite Hne.
Qed.

Lemma prefix_nil (s : string) : String.prefix "" s = true.
Proof. by destruct s. Qed.

Lemma prefix_slash (s : string) :
  String.prefix "/" s = true ↔ ∃ s', s = String "/" s'.
Proof.
  destruct s as [|c s]; [split; [done|by intros [? ?]]|].
  rewrite prefix_cons, prefix_nil. split.
  - destruct (Ascii.eqb_spec "/" c) as [<-|?]; [by eexists|done].
  - intros [s' [= -> ->]]. done.
Qed.

Lemma prefix_app (a b : string) : String.prefix a (a +:+ b) = true.
Proof.
  induction a as [|x a IH]; [apply prefix_nil|].
  by rewrite string_app_cons, prefix_cons, Ascii.eqb_refl.
Qed.

Lemma split_slash_nonempty (s : string) : split_slash s ≠ [].
Proof.
  induction s as [|c s IH]; simpl; [done|].
  destruct (Ascii.eqb c "/"); [done|]. by destruct (split_slash s).
Qed.

Lemma split_slash_app (a b : string) :
  split_slash (a +:+ "/" +:+ b) = split_slash a ++ split_slash b.
Proof.
  induction a as [|c a IH]; [done|].
  rewrite string_app_cons. simpl. rewrite IH. destruct (Ascii.eqb c "/"); [done|].
  pose proof (split_slash_nonempty a). by destruct (split_slash a).
Qed.

Lemma ends_with_slash_inv (s : string) :
  ends_with_slash s = true → ∃ a, s = a +:+ "/".
Proof.
  induction s as [|c s IH]; [done|]. simpl.
  destruct s as [|c' s'].
  - intros Hc. apply Ascii.eqb_eq in Hc as ->. by exists "".
  - intros Hs. destruct (IH Hs) as [a Ha]. exists (String c a).
    by rewrite string_app_cons, <-Ha.
Qed.

Lemma initial_slashes_cases (root : string) :
  String.prefix "/" root = true →
  initial_slashes root = 1%nat ∨ initial_slashes root = 2%nat.
Proof.
  intros Hr. unfold initial_slashes. rewrite Hr.
  destruct (_ && _); auto.
Qed.

Lemma initial_slashes_app (root x : string) :
  String.prefix "/" root = true →
  ends_with_slash root = false ∨ String.prefix "/" x = false →
  initial_slashes (root +:+ x) = initial_slashes root.
Proof.
  intros [root1 ->]%prefix_slash Hx. unfold initial_slashes.
  rewrite !string_app_cons, !prefix_cons, !prefix_nil, !Ascii.eqb_refl.
  destruct root1 as [|c1 root2].
  { destruct Hx as [?|Hx]; [done|].
    change ("" +:+ x) with x. by rewrite Hx. }
  rewrite !string_app_cons, !prefix_cons, !prefix_nil.
  destruct (Ascii.eqb_spec "/" c1) as [<-|?]; [|done].
  destruct root2 as [|c2 root3].
  { destruct Hx as [?|Hx]; [done|].
    change ("" +:+ x) with x. by rewrite Hx. }
  by rewrite !string_app_cons, !prefix_cons, !prefix_nil.
Qed.

Lemma join_absolute (root rel_path : string) :
  String.prefix "/" root = true →
  String.prefix "/" rel_path = false →
  initial_slashes (join root rel_path) = initial_slashes root
  ∧ String.eqb (join root rel_path) "" = false
  ∧ ∀ n, foldl (norm_step n) [] (split_slash (join root rel_path))
         = foldl (norm_step n) (foldl (norm_step n) [] (split_slash root))
             (split_slash rel_path).
Proof.
  intros Hroot Hrel. unfold join. rewrite Hrel.
  assert (String.eqb root "" = false) as ->.
  { apply prefix_slash in Hroot as [? ->]. done. }
  simpl orb.
  destruct (ends_with_slash root) eqn:Hend.
  - split; [apply initial_slashes_app; auto|]. split.
    + apply prefix_slash in Hroot as [? ->]. done.
    + intros n. apply ends_with_slash_inv in Hend as [a ->].
      rewrite string_app_assoc, split_slash_app, foldl_app.
      replace (a +:+ "/") with (a +:+ "/" +:+ "") by done.
      by rewrite split_slash_app, foldl_app.
  - split; [|split].
    + apply initial_slashes_app; auto.
    + apply prefix_slash in Hroot as [? ->]. done.
    + intros n. by rewrite split_slash_app, foldl_app.
Qed.

Lemma norm_step_no_dotdot (n : nat) (acc : list string) (comp : string) :
  n ≠ 0%nat → ".." ∉ acc → ".." ∉ norm_step n acc comp.
Proof.
  intros Hn Hacc. unfold norm_step.
  destruct (decide (comp = "" ∨ comp = ".")); [done|].
  destruct (decide _) as [[Hc|[[? _]|[_ Hlast]]]|_].
  - rewrite elem_of_app, list_elem_of_singleton. by intros [?|?].
  - done.
  - apply last_Some in Hlast as [l' ->].
    exfalso. apply Hacc. rewrite elem_of_app, list_elem_of_singleton. auto.
  - destruct acc as [|x acc]; [done|].
    destruct (exists_last (l := x :: acc)) as (l' & y & Heq); [done|].
    rewrite Heq in Hacc |- *. rewrite removelast_last.
    intros Hin. apply Hacc. rewrite elem_of_app. by left.
Qed.

Lemma foldl_norm_no_dotdot (n : nat) (comps acc : list string) :
  n ≠ 0%nat → ".." ∉ acc → ".." ∉ foldl (norm_step n) acc comps.
Proof.
  intros Hn. revert acc.
  induction comps as [|c comps IH]; intros acc Hacc; simpl; [done|].
  by apply IH, norm_step_no_dotdot.
Qed.

Lemma norm_step_skip (n : nat) (acc : list string) (comp : string) :
  comp = "" ∨ comp = "." → norm_step n acc comp = acc.
Proof. intros Hc. unfold norm_step. by rewrite decide_True. Qed.

Lemma norm_step_push (n : nat) (acc : list string) (comp : string) :
  ¬ (comp = "" ∨ comp = ".") → comp ≠ ".." →
  norm_step n acc comp = acc ++ [comp].
Proof.
  intros Hc Hd. unfold norm_step.
  rewrite decide_False by done. by rewrite decide_True by auto.
Qed.

Lemma norm_step_pop (n : nat) (acc : list string) :
  n ≠ 0%nat → last acc ≠ Some ".." →
  norm_step n acc ".." = removelast acc.
Proof.
  intros Hn Hlast. unfold norm_step.
  rewrite decide_False by (by intros [?|?]).
  rewrite decide_False; [by destruct acc|].
  intros [?|[[? _]|[_ ?]]]; done.
Qed.

Lemma norm_below (n : nat) (comps A B : list string) :
  n ≠ 0%nat → ".." ∉ A ++ B → below (length B) comps = true →
  ∃ B', foldl (norm_step n) (A ++ B) comps = A ++ B'.
Proof.
  intros Hn. revert B.
  induction comps as [|c comps IH]; intros B Hacc Hb; simpl in *.
  { by exists B. }
  destruct (decide (c = "" ∨ c = ".")) as [Hskip|Hskip].
  { rewrite norm_step_skip by done. by apply IH. }
  destruct (decide (c = "..")) as [->|Hc].
  - destruct B as [|b B _] using rev_ind; [done|].
    rewrite length_app in Hb. simpl in Hb.
    replace (length B + 1)%nat with (S (length B)) in Hb by lia.
    rewrite norm_step_pop; [|done|].
    + rewrite (assoc_L (++)), removelast_last.
      apply IH; [|done]. intros Hin. apply Hacc.
      rewrite (assoc_L (++)), elem_of_app. by left.
    + rewrite (assoc_L (++)), last_snoc. intros [= ->]. apply Hacc.
      rewrite !elem_of_app, list_elem_of_singleton. auto.
  - rewrite norm_step_push by done.
    rewrite <-(assoc_L (++)). apply IH.
    + rewrite (assoc_L (++)), elem_of_app, list_elem_of_singleton.
      by intros [?|?].
    + rewrite length_app. simpl.
      by replace (length B + 1)%nat with (S (length B)) by lia.
Qed.

Lemma concat_slash_app (A B : list string) :
  A ≠ [] → B ≠ [] →
  String.concat "/" (A ++ B)
  = String.concat "/" A +:+ "/" +:+ String.concat "/" B.
Proof.
  intros HA HB. induction A as [|a A IH]; [done|].
  destruct A as [|a' A].
  - simpl. by destruct B.
  - change (String.concat "/" ((a :: a' :: A) ++ B))
      with (a +:+ "/" +:+ String.concat "/" ((a' :: A) ++ B)).
    rewrite IH by done.
    change (String.concat "/" (a :: a' :: A))
      with (a +:+ "/" +:+ String.concat "/" (a' :: A)).
    by rewrite !string_app_assoc.
Qed.

Lemma normpath_absolute (root : string) :
  String.prefix "/" root = true →
  ∃ sl,
    (sl = "/" ∨ sl = "//")
    ∧ slash_prefix (initial_slashes root) = sl
    ∧ normpath root
      = sl +:+ String.concat "/"
                 (foldl (norm_step (initial_slashes root)) [] (split_slash root)).
Proof.
  intros Hroot. unfold normpath.
  assert (String.eqb root "" = false) as ->.
  { apply prefix_slash in Hroot as [? ->]. done. }
  destruct (initial_slashes_cases root Hroot) as [-> | ->].
  - exists "/". split; [by left|]. split; [done|]. done.
  - exists "//". split; [by right|]. split; [done|]. done.
Qed.

(** C4, as amended.  For an absolute storage root, a relative stored path
    that never climbs above its starting directory (each [..] cancels a
    component that precedes it) resolves to the normalised root or below
    it.  No check confines other paths, and [download_file] has no 400
    answer: it answers 404, or sends the resolved path of the first
    matching file row, whatever that path is. *)
Theorem absolute_from_rel_below_root (root : string) :
  String.prefix "/" root = true →
  (∀ rel_path,
     String.prefix "/" rel_path = false →
     stays_below rel_path = true →
     confined root (absolute_from_rel root rel_path) = true)
  ∧ (∀ asset_id q_version q_format db,
       match download_file root asset_id q_version q_format db with
       | Jsonify _ status => status = 404
       | SendFile path download_name =>
           ∃ f, f ∈ files db
                ∧ f_asset_id f = asset_id
                ∧ path = absolute_from_rel root (f_rel_path f)
                ∧ download_name = f_filename f
       end).
Proof.
  intros Hroot. split.
  - intros rel_path Hrel Hbelow.
    destruct (join_absolute root rel_path Hroot Hrel) as (Hsl & Hne & Hcomps).
    destruct (normpath_absolute root Hroot) as (sl & Hcases & Hpre & Hnorm).
    assert (initial_slashes root ≠ 0%nat) as Hn
      by (destruct (initial_slashes_cases root Hroot) as [-> | ->]; done).
    set (A := foldl (norm_step (initial_slashes root)) [] (split_slash root))
      in *.
    assert (".." ∉ A) as HA
      by (apply foldl_norm_no_dotdot; [done|apply not_elem_of_nil]).
    destruct (norm_below (initial_slashes root) (split_slash rel_path) A []
                Hn) as [B HB].
    { by rewrite (right_id_L [] (++)). }
    { exact Hbelow. }
    rewrite (right_id_L [] (++)) in HB.
    assert (absolute_from_rel root rel_path
            = sl +:+ String.concat "/" (A ++ B)) as Hres.
    { unfold absolute_from_rel, normpath. rewrite Hne, Hsl, Hcomps.
      fold A. rewrite HB, Hpre.
      by destruct Hcases as [-> | ->]. }
    unfold confined, root_dir. rewrite Hres, Hnorm.
    destruct B as [|b B].
    { rewrite (right_id_L [] (++)). by rewrite String.eqb_refl. }
    apply orb_true_iff. right.
    destruct A as [|a A].
    + change (String.concat "/" []) with "".
      replace (sl +:+ "") with sl by (by destruct Hcases as [-> | ->]).
      replace (ends_with_slash sl) with true
        by (by destruct Hcases as [-> | ->]).
      apply prefix_app.
    + rewrite concat_slash_app by done.
      rewrite <-(string_app_assoc sl).
      destruct (ends_with_slash _).
      * apply prefix_app.
      * rewrite <-(string_app_assoc _ "/"). apply prefix_app.
  - intros asset_id q_version q_format db. unfold download_file.
    destruct (get_asset asset_id db) as [a|] eqn:Ha; [|done].
    destruct (filter _ (ad_files a)) as [|e l] eqn:Hf; [done|].
    assert (e ∈ ad_files a) as He.
    { assert (e ∈ filter (file_matches (default 1 q_version)
                            (lstrip_dot (lower (get_or q_format ""))))
                    (ad_files a)) as Hin by (rewrite Hf; left).
      by apply list_elem_of_filter in Hin as [_ ?]. }
    unfold get_asset in Ha.
    destruct (sql_select (is_asset asset_id) (assets db)); [done|].
    injection Ha as <-. simpl in He.
    apply list_elem_of_fmap in He as (f & -> & Hin).
    unfold sql_select in Hin. apply list_elem_of_filter in Hin as [Hid Hin].
    by exists f.
Qed.

Lemma absolute_from_rel_below_root_witness :
  String.prefix "/" "/srv/web_server/storage_root" = true
  ∧ stays_below "assets/model_Hero/v2/../v1/hero.fbx" = true
  ∧ confined "/srv/web_server/storage_root"
      (absolute_from_rel "/srv/web_server/storage_root"
         "assets/model_Hero/v2/../v1/hero.fbx") = true.
Proof.
  split; [reflexivity|]. split; [reflexivity|].
  destruct (absolute_from_rel_below_root "/srv/web_server/storage_root" eq_refl)
    as [Hconf _].
  apply Hconf; reflexivity.
Defined.

(** C4, counterexample.  Under the root [/srv/web_server/storage_root] the
    stored path [../../../etc/passwd] resolves to [/etc/passwd], outside
    the root; and a download of a file row with that path is answered by
    sending [/etc/passwd], not by a 400. *)
Lemma traversal_escapes :
  let root := "/srv/web_server/storage_root" in
  let db :=
    add_file "model_Hero" 1 "passwd" "../../../etc/passwd" "" 0 "t2"
      (ensure_asset "model_Hero" "Hero" "model" "" "" "t1" init_db) in
  absolute_from_rel root "../../../etc/passwd" = "/etc/passwd"
  ∧ confined root "/etc/passwd" = false
  ∧ download_file root "model_Hero" (Some 1) None db
    = SendFile "/etc/passwd" "passwd"
  ∧ ¬ traversal_confined
  ∧ ¬ escape_rejected.
Proof.
  intros root db.
  split; [reflexivity|]. split; [reflexivity|]. split; [reflexivity|].
  split.
  - intros H.
    specialize (H root "../../../etc/passwd" eq_refl).
    assert (has_traversal "../../../etc/passwd") as Ht
      by (unfold has_traversal; vm_compute; apply list_elem_of_here).
    specialize (H Ht). vm_compute in H. discriminate H.
  - intros H.
    destruct (H root "model_Hero" (Some 1) None db _ _ _ eq_refl eq_refl eq_refl)
      as [body Hbody].
    vm_compute in Hbody. discriminate Hbody.
Qed.

(** ** Further properties of the persistence layer *)

(** X1.  In every state reached from the empty database by mutating calls,
    [versions] has at most one row per (asset_id, version) pair: the
    [UNIQUE] constraint is never violated, so no [upsert_version] fails on
    it. *)
Theorem versions_unique_invariant (cs : list call) (asset_id : string)
    (version : Z) :
  (length (sql_select (is_version asset_id version)
             (versions (run cs init_db))) ≤ 1)%nat.
Proof.
  unfold run.
  assert (versions_unique (versions init_db)) as Hinit
    by (intros a v; simpl; lia).
  revert Hinit. generalize init_db.
  induction cs as [|c cs IH]; intros db Hu; simpl; [apply Hu|].
  by apply IH, exec_versions_unique.
Qed.

Lemma exec_assets_unique (c : call) (db : DB) :
  assets_unique (assets db) → assets_unique (assets (exec c db)).
Proof.
  intros Hu. destruct c; simpl; try done.
  - unfold ensure_asset.
    destruct (sql_select (is_asset asset_id) (assets db)) as [|x l] eqn:Hsel;
      simpl; intros a.
    + unfold sql_select, sql_insert in *. rewrite filter_app, length_app.
      destruct (decide (a = asset_id)) as [->|Hne].
      * rewrite Hsel. by rewrite filter_cons_True.
      * rewrite (filter_cons_False _ (mk_asset _ _ _ _ _ _ _ _))
          by (unfold is_asset; simpl; congruence).
        specialize (Hu a). unfold sql_select in Hu. simpl. lia.
    + unfold sql_select, sql_update. rewrite length_filter_fmap; [apply Hu|].
      intros r. unfold is_asset. by destruct (decide (a_id r = asset_id)).
  - unfold update_asset.
    destruct (filter _ (map_to_list fields)) as [|kv l]; [done|].
    simpl. intros a. unfold sql_select, sql_update.
    rewrite length_filter_fmap; [apply Hu|].
    intros r. destruct (decide (is_asset asset_id r)); [|done].
    destruct (foldl_set_column_frame (kv :: l) r) as (Hid & _).
    unfold is_asset, set_updated_at. simpl in *. by rewrite Hid.
  - intros a. unfold sql_select, sql_delete.
    etrans; [apply length_filter_filter|apply Hu].
Qed.

(** X2.  In every state reached from the empty database by mutating calls,
    [assets] has at most one row per id: [ensure_asset] never inserts a
    second row for an id, so it never fails on the primary key. *)
Theorem assets_unique_invariant (cs : list call) (asset_id : string) :
  (length (sql_select (is_asset asset_id) (assets (run cs init_db))) ≤ 1)%nat.
Proof.
  unfold run.
  assert (assets_unique (assets init_db)) as Hinit by (intros a; simpl; lia).
  revert Hinit. generalize init_db.
  induction cs as [|c cs IH]; intros db Hu; simpl; [apply Hu|].
  by apply IH, exec_assets_unique.
Qed.

(** X3.  [delete_asset] removes the asset row and every version, file and
    comment row of the asset, so [get_asset] answers not-found afterwards;
    rows of other assets stay as they were, in order. *)
Theorem delete_asset_removes (asset_id now : string) (db : DB) :
  let db' := delete_asset asset_id now db in
  get_asset asset_id db' = None
  ∧ (∀ r, r ∈ versions db' → v_asset_id r ≠ asset_id)
  ∧ (∀ r, r ∈ files db' → f_asset_id r ≠ asset_id)
  ∧ (∀ r, r ∈ comments db' → c_asset_id r ≠ asset_id)
  ∧ (∀ other, other ≠ asset_id →
       sql_select (is_asset other) (assets db')
         = sql_select (is_asset other) (assets db)
       ∧ sql_select (λ r, v_asset_id r = other) (versions db')
         = sql_select (λ r, v_asset_id r = other) (versions db)
       ∧ sql_select (λ r, f_asset_id r = other) (files db')
         = sql_select (λ r, f_asset_id r = other) (files db)
       ∧ sql_select (λ r, c_asset_id r = other) (comments db')
         = sql_select (λ r, c_asset_id r = other) (comments db)).
Proof.
  intros db'. subst db'. unfold delete_asset, get_asset. simpl.
  unfold sql_select, sql_delete.
  split; [|split; [|split; [|split]]].
  - rewrite list_filter_filter.
    destruct (filter _ (assets db)) as [|x l] eqn:Hf; [done|].
    assert (x ∈ filter (λ r, is_asset asset_id r ∧ ¬ is_asset asset_id r)
                  (assets db)) as Hin by (rewrite Hf; left).
    apply list_elem_of_filter in Hin as [[? ?] _]. done.
  - intros r Hr. by apply list_elem_of_filter in Hr as [? _].
  - intros r Hr. by apply list_elem_of_filter in Hr as [? _].
  - intros r Hr. by apply list_elem_of_filter in Hr as [? _].
  - intros other Hne. rewrite !list_filter_filter.
    repeat split; apply list_filter_iff; intros r; unfold is_asset;
      split; try tauto; intros Heq; (split; [done|congruence]).
Qed.

(** ** Polling the change log *)

Lemma ts_lt_irrefl (s : string) : ¬ ts_lt s s.
Proof. rewrite ts_lt_not_le. intros H. by apply H. Qed.

Lemma ts_lt_le_ne (s1 s2 : string) : String.le s1 s2 → s1 ≠ s2 → ts_lt s1 s2.
Proof.
  intros Hle Hne. apply ts_lt_not_le. intros Hge.
  apply Hne. by apply (anti_symm String.le).
Qed.

Lemma NoDup_fmap_inj_on {A B} (f : A → B) (l : list A) (x y : A) :
  NoDup (f <$> l) → x ∈ l → y ∈ l → f x = f y → x = y.
Proof.
  induction l as [|a l IH]; intros Hnd Hx Hy Hf.
  { by apply elem_of_nil in Hx. }
  rewrite fmap_cons in Hnd. apply NoDup_cons in Hnd as [Ha Hnd].
  apply elem_of_cons in Hx as [->|Hx]; apply elem_of_cons in Hy as [->|Hy].
  - done.
  - exfalso. apply Ha. rewrite Hf. by apply list_elem_of_fmap_2.
  - exfalso. apply Ha. rewrite <-Hf. by apply list_elem_of_fmap_2.
  - by apply IH.
Qed.

Lemma filter_all {A} (P : A → Prop) `{!∀ x, Decision (P x)} (l : list A) :
  Forall P l → filter P l = l.
Proof.
  induction 1 as [|x l HP _ IH]; [done|].
  by rewrite filter_cons_True, IH.
Qed.

Lemma filter_none {A} (P : A → Prop) `{!∀ x, Decision (P x)} (l : list A) :
  Forall (λ x, ¬ P x) l → filter P l = [].
Proof.
  induction 1 as [|x l HP _ IH]; [done|].
  by rewrite filter_cons_False.
Qed.

(** In a sorted log with distinct timestamps, the rows strictly after the
    timestamp of a row are the rows that follow it. *)
Lemma filter_after_cursor (S1 S2 : list change_row) (x : change_row) :
  StronglySorted created_asc (S1 ++ x :: S2) →
  NoDup (ch_created_at <$> S1 ++ x :: S2) →
  filter (λ r, ts_lt (ch_created_at x) (ch_created_at r)) (S1 ++ x :: S2) = S2.
Proof.
  intros Hs Hnd.
  apply StronglySorted_app in Hs as (Hle & _ & Hs2).
  apply StronglySorted_cons in Hs2 as [Hx _].
  rewrite filter_app, filter_cons_False by apply ts_lt_irrefl.
  rewrite filter_none, filter_all; [done| |].
  - apply Forall_forall. intros r Hr.
    rewrite Forall_forall in Hx. apply ts_lt_le_ne; [by apply Hx|].
    intros Heq.
    assert (x = r) as <-.
    { apply (NoDup_fmap_inj_on ch_created_at (S1 ++ x :: S2)); [done| | |done].
      - rewrite elem_of_app. right. left.
      - rewrite elem_of_app. right. by right. }
    rewrite fmap_app, fmap_cons in Hnd.
    apply NoDup_app in Hnd as (_ & _ & Hnd).
    apply NoDup_cons in Hnd as [Hfresh _].
    apply Hfresh. by apply list_elem_of_fmap_2.
  - apply Forall_forall. intros r Hr Hlt. apply ts_lt_not_le in Hlt.
    apply Hlt. apply (Hle r x); [done|left].
Qed.

Lemma StronglySorted_filter {A} (R : relation A) (P : A → Prop)
    `{!∀ x, Decision (P x)} (l : list A) :
  StronglySorted R l → StronglySorted R (filter P l).
Proof.
  induction 1 as [|x l _ IH Hx]; [constructor|].
  rewrite filter_cons. destruct (decide (P x)); [|done].
  constructor; [done|].
  rewrite Forall_forall in Hx |- *. intros y Hy.
  apply list_elem_of_filter in Hy as [_ Hy]. by apply Hx.
Qed.

(** Where timestamps are distinct, the order of the answer does not
    depend on how ties are broken. *)
Lemma order_by_distinct (t : list change_row) :
  NoDup (ch_created_at <$> t) →
  order_by created_asc t = merge_sort created_asc t.
Proof.
  intros Hnd. apply (order_by_merge_sort created_asc).
  intros x y Hx Hy Hxy Hyx.
  apply (NoDup_fmap_inj_on ch_created_at t); [done..|].
  by apply (anti_symm String.le).
Qed.

(** What one pass returns when the cursor stands after the rows [S1] of
    the sorted log [S1 ++ S2]. *)
Lemma poll_from (S1 S2 : list change_row) (db : DB) :
  stamped db →
  NoDup (ch_created_at <$> changes db) →
  merge_sort created_asc (changes db) = S1 ++ S2 →
  poll (ch_created_at <$> last S1) db
  = (take 100 S2, ch_created_at <$> last (S1 ++ take 100 S2)).
Proof.
  intros Hst Hnd HS. unfold poll.
  assert (list_changes
            (match ch_created_at <$> last S1 with
             | Some s => if decide (s = "") then None else Some s
             | None => None
             end) default_limit db = take 100 S2) as ->.
  { unfold list_changes, sql_limit, default_limit.
    rewrite !decide_False by lia. change (Z.to_nat 100) with 100%nat.
    destruct (last S1) as [x|] eqn:Hlast; simpl.
    - apply last_Some in Hlast as [S1' ->].
      assert (ch_created_at x ≠ "") as Hne.
      { unfold stamped in Hst. rewrite Forall_forall in Hst. apply Hst.
        rewrite <-(merge_sort_Permutation created_asc), HS.
        rewrite !elem_of_app, list_elem_of_singleton. auto. }
      rewrite !decide_False by done.
      unfold sql_select. rewrite <-(order_by_filter created_asc).
      rewrite (order_by_distinct _ Hnd), HS, <-(assoc_L (++)). f_equal.
      apply filter_after_cursor.
      + rewrite cons_middle, (assoc_L (++)), <-HS.
        apply StronglySorted_merge_sort; apply _.
      + rewrite cons_middle, (assoc_L (++)), <-HS.
        by rewrite merge_sort_Permutation.
    - apply last_None in Hlast as ->.
      by rewrite (order_by_distinct _ Hnd), HS. }
  f_equal. rewrite last_app.
  by destruct (last (take 100 S2)).
Qed.

Lemma polls_from (k : nat) (S1 S2 : list change_row) (db : DB) :
  stamped db →
  NoDup (ch_created_at <$> changes db) →
  merge_sort created_asc (changes db) = S1 ++ S2 →
  polls k (ch_created_at <$> last S1) db = take (k * 100) S2.
Proof.
  intros Hst Hnd. revert S1 S2.
  induction k as [|k IH]; intros S1 S2 HS; [done|].
  cbn [polls]. rewrite (poll_from S1 S2) by done.
  rewrite (IH (S1 ++ take 100 S2) (drop 100 S2)).
  - replace (S k * 100)%nat with (100 + k * 100)%nat by lia.
    apply take_take_drop.
  - by rewrite <-(assoc_L (++)), take_drop.
Qed.

(** X4.  Exactly-once delivery under sequential polling.  Against a
    change log whose timestamps are non-empty and pairwise distinct, and
    with the query string carrying the cursor unchanged, the agent's
    loop, started without a cursor, has received after [k] passes the
    [100 k] oldest rows in ascending order; once [100 k] covers the log
    it has received every row exactly once, and later passes add
    nothing. *)
Theorem polling_delivers_once (k : nat) (db : DB) :
  stamped db →
  NoDup (ch_created_at <$> changes db) →
  polls k None db = take (k * 100) (merge_sort created_asc (changes db))
  ∧ ((length (changes db) ≤ k * 100)%nat →
       polls k None db ≡ₚ changes db
       ∧ NoDup (polls k None db)
       ∧ StronglySorted created_asc (polls k None db)
       ∧ ∀ k', (k ≤ k')%nat → polls k' None db = polls k None db).
Proof.
  intros Hst Hnd.
  assert (∀ j, polls j None db
               = take (j * 100) (merge_sort created_asc (changes db))) as Hall.
  { intros j. by apply (polls_from j [] _ db). }
  split; [apply Hall|]. intros Hlen.
  assert (∀ j, (k ≤ j)%nat →
            polls j None db = merge_sort created_asc (changes db)) as Hfull.
  { intros j Hj. rewrite Hall. apply take_ge.
    rewrite merge_sort_Permutation. nia. }
  rewrite (Hfull k) by done.
  split; [apply merge_sort_Permutation|]. split; [|split].
  - rewrite merge_sort_Permutation. by eapply NoDup_fmap_1.
  - apply StronglySorted_merge_sort; apply _.
  - intros k' Hk'. by apply Hfull.
Qed.

Lemma polling_delivers_once_witness :
  let db :=
    run [AddComment "model_Hero" "ann" "first" "2026-01-01T00:00:03";
         AddComment "model_Hero" "bob" "second" "2026-01-01T00:00:01";
         AddComment "model_Hero" "cy" "third" "2026-01-01T00:00:02"] init_db in
  stamped db
  ∧ NoDup (ch_created_at <$> changes db)
  ∧ polls 1 None db = take 100 (merge_sort created_asc (changes db))
  ∧ ch_created_at <$> polls 2 None db
    = ["2026-01-01T00:00:01"; "2026-01-01T00:00:02"; "2026-01-01T00:00:03"].
Proof.
  intros db.
  assert (stamped db) as Hst by (repeat constructor; done).
  assert (NoDup (ch_created_at <$> changes db)) as Hnd
    by exact (bool_decide_unpack (NoDup (ch_created_at <$> changes db)) I).
  split; [exact Hst|]. split; [exact Hnd|].
  destruct (polling_delivers_once 1 db Hst Hnd) as [Hone _].
  split; [exact Hone|reflexivity].
Defined.

(** ** [list_assets] *)

#[local] Instance updated_desc_total : Total updated_desc.
Proof. intros r1 r2. unfold updated_desc. apply (total String.le). Qed.

#[local] Instance updated_desc_trans : Transitive updated_desc.
Proof.
  intros r1 r2 r3 H12 H23. unfold updated_desc in *. by etrans.
Qed.

Lemma where_eq_truthy (field : option string) (col : string) :
  where_eq (truthy field) col ↔ ∀ v, field = Some v → v ≠ "" → col = v.
Proof.
  unfold truthy. destruct field as [s|]; [|by split].
  destruct (decide (s = "")) as [->|Hs]; simpl.
  - split; [|done]. by intros _ v [= <-].
  - split; [by intros -> v [= <-]|]. intros H. by apply H.
Qed.

Lemma StronglySorted_sublist {A} (R : relation A) (l1 l2 : list A) :
  l1 `sublist_of` l2 → StronglySorted R l2 → StronglySorted R l1.
Proof.
  induction 1 as [|x l1 l2 Hsub IH|x l1 l2 Hsub IH]; intros Hs; [done|..].
  - apply StronglySorted_cons in Hs as [Hx Hs].
    apply StronglySorted_cons. split; [|by apply IH].
    rewrite Forall_forall in Hx |- *. intros y Hy. apply Hx.
    eapply elem_of_submseteq; [done|by apply sublist_submseteq].
  - apply StronglySorted_cons in Hs as [_ Hs]. by apply IH.
Qed.


(** ** [get_asset] *)

#[local] Instance version_desc_total : Total version_desc.
Proof. intros r1 r2. unfold version_desc. lia. Qed.

#[local] Instance version_desc_trans : Transitive version_desc.
Proof. intros r1 r2 r3. unfold version_desc. lia. Qed.

(** X6.  [get_asset] answers not-found exactly when no asset row has the
    id.  Otherwise the record carries the columns of a row with that id,
    lists one entry per version row of the asset, in descending order of
    version number, and one entry per file row of the asset, in insertion
    order; rows of other assets are never listed. *)
Theorem get_asset_listing (asset_id : string) (db : DB) :
  (get_asset asset_id db = None ↔ ∀ r, r ∈ assets db → a_id r ≠ asset_id)
  ∧ ∀ a, get_asset asset_id db = Some a →
      ad_id a = asset_id
      ∧ (∃ r, r ∈ assets db ∧ a_id r = asset_id
              ∧ ad_name a = a_name r ∧ ad_family a = a_family r
              ∧ ad_description a = a_description r ∧ ad_tags a = a_tags r
              ∧ ad_status a = a_status r
              ∧ ad_created_at a = a_created_at r
              ∧ ad_updated_at a = a_updated_at r)
      ∧ ad_versions a
        ≡ₚ version_entry_of
             <$> filter (λ r, v_asset_id r = asset_id) (versions db)
      ∧ StronglySorted entry_desc (ad_versions a)
      ∧ ad_files a
        = file_entry_of <$> filter (λ r, f_asset_id r = asset_id) (files db).
Proof.
  unfold get_asset, sql_select. split.
  - destruct (filter (is_asset asset_id) (assets db)) as [|x l] eqn:Hf.
    + split; [|done]. intros _ r Hr Hid.
      by eapply (filter_nil_not_elem_of (is_asset asset_id)).
    + split; [done|]. intros Hnone. exfalso.
      assert (x ∈ filter (is_asset asset_id) (assets db)) as Hx
        by (rewrite Hf; left).
      apply list_elem_of_filter in Hx as [Hid Hx]. by eapply Hnone.
  - intros a Ha.
    destruct (filter (is_asset asset_id) (assets db)) as [|x l] eqn:Hf;
      [done|].
    assert (x ∈ filter (is_asset asset_id) (assets db)) as Hx
      by (rewrite Hf; left).
    apply list_elem_of_filter in Hx as [Hid Hx].
    injection Ha as <-. simpl.
    split; [done|]. split; [by exists x|].
    split; [by rewrite merge_sort_Permutation|]. split; [|done].
    apply (StronglySorted_fmap _ version_desc); [done|].
    apply StronglySorted_merge_sort; apply _.
Qed.

(** X7.  After [ensure_asset], [get_asset] finds the asset with the name
    and family of the call and [updated_at] at the call's clock reading.
    For an asset that was already there the description, tags, status,
    creation time and the version and file lists are those it had; for a
    new one the description and tags are the arguments, the status is
    [published] and the creation time is the clock reading. *)
Theorem ensure_asset_get (asset_id name family description tags now : string)
    (db : DB) :
  ∃ a,
    get_asset asset_id
      (ensure_asset asset_id name family description tags now db) = Some a
    ∧ ad_id a = asset_id ∧ ad_name a = name ∧ ad_family a = family
    ∧ ad_updated_at a = now
    ∧ match get_asset asset_id db with
      | Some a0 =>
          ad_description a = ad_description a0 ∧ ad_tags a = ad_tags a0
          ∧ ad_status a = ad_status a0 ∧ ad_created_at a = ad_created_at a0
          ∧ ad_versions a = ad_versions a0 ∧ ad_files a = ad_files a0
      | None =>
          ad_description a = description ∧ ad_tags a = tags
          ∧ ad_status a = "published" ∧ ad_created_at a = now
      end.
Proof.
  unfold get_asset, ensure_asset.
  destruct (sql_select (is_asset asset_id) (assets db)) as [|x l] eqn:Hsel;
    simpl.
  - unfold sql_select, sql_insert in *. rewrite filter_app, Hsel.
    rewrite filter_cons_True by done. simpl. eexists. by repeat split.
  - rewrite filter_sql_update_same by done. rewrite Hsel. simpl.
    assert (a_id x = asset_id) as Hid.
    { assert (x ∈ sql_select (is_asset asset_id) (assets db)) as Hx
        by (rewrite Hsel; left).
      by apply list_elem_of_filter in Hx as [? _]. }
    eexists. by repeat split.
Qed.

(** ** Version rows under [get_asset] *)

Lemma filter_unique_eq {A} (P : A → Prop) `{!∀ x, Decision (P x)}
    (l : list A) (x y : A) :
  (length (filter P l) ≤ 1)%nat → x ∈ l → y ∈ l → P x → P y → x = y.
Proof.
  intros Hlen Hx Hy HPx HPy.
  assert (x ∈ filter P l) as Hx' by (by apply list_elem_of_filter).
  assert (y ∈ filter P l) as Hy' by (by apply list_elem_of_filter).
  destruct (filter P l) as [|z [|z' l']]; [by apply elem_of_nil in Hx'| |].
  - apply list_elem_of_singleton in Hx', Hy'. congruence.
  - simpl in Hlen. lia.
Qed.

Lemma filter_fmap_comm {A B} (f : A → B) (P : B → Prop)
    `{!∀ y, Decision (P y)} (l : list A) :
  filter P (f <$> l) = f <$> filter (λ x, P (f x)) l.
Proof.
  induction l as [|x l IH]; [done|]. rewrite fmap_cons.
  destruct (decide (P (f x))).
  - rewrite !filter_cons_True by done. by rewrite fmap_cons, IH.
  - by rewrite !filter_cons_False.
Qed.

(** Within one asset, version rows with the same number are the same row. *)
Lemma versions_of_asset_distinct (t : list version_row) (asset_id : string)
    (x y : version_row) :
  versions_unique t →
  x ∈ filter (λ r, v_asset_id r = asset_id) t →
  y ∈ filter (λ r, v_asset_id r = asset_id) t →
  v_version x = v_version y → x = y.
Proof.
  intros Hu [Hax Hx]%list_elem_of_filter [Hay Hy]%list_elem_of_filter Hv.
  apply (filter_unique_eq (is_version asset_id (v_version x)) t);
    [apply Hu|done..|by split; congruence].
Qed.

Lemma merge_sort_filter_versions (P : version_row → Prop)
    `{!∀ r, Decision (P r)} (t : list version_row) :
  (∀ x y, x ∈ t → y ∈ t → v_version x = v_version y → x = y) →
  merge_sort version_desc (filter P t) = filter P (merge_sort version_desc t).
Proof.
  intros Hd. apply (StronglySorted_unique_strong version_desc).
  - intros x1 x2 H1 H2 H12 H21.
    rewrite merge_sort_Permutation in H1.
    apply list_elem_of_filter in H1 as [_ H1].
    apply list_elem_of_filter in H2 as [_ H2].
    rewrite merge_sort_Permutation in H2.
    apply Hd; [done..|]. unfold version_desc in *. lia.
  - apply StronglySorted_merge_sort; apply _.
  - apply StronglySorted_filter, StronglySorted_merge_sort; apply _.
  - by rewrite !merge_sort_Permutation.
Qed.

Lemma filter_sql_update_other {row} (P Q : row → Prop)
    `{!∀ r, Decision (P r)} `{!∀ r, Decision (Q r)}
    (f : row → row) (t : list row) :
  (∀ r, Q r → P r) →
  (∀ r, P r → P (f r)) →
  filter (λ r, ¬ P r) (sql_update Q f t) = filter (λ r, ¬ P r) t.
Proof.
  intros HQP Hf. unfold sql_update.
  induction t as [|r t IH]; [done|]. rewrite fmap_cons.
  destruct (decide (Q r)) as [HQ|HQ].
  - rewrite !filter_cons_False by (intros Hn; apply Hn; auto). done.
  - destruct (decide (P r)).
    + rewrite !filter_cons_False by (intros Hn; by apply Hn). done.
    + rewrite !filter_cons_True by done. by rewrite IH.
Qed.

(** The version rows outside a pair are untouched by an upsert of it. *)
Lemma upsert_version_others (asset_id : string) (version : Z)
    (metadata : gmap string jval) (thumbnail_path now : string) (db : DB) :
  filter (λ r, ¬ is_version asset_id version r)
    (versions (upsert_version asset_id version metadata thumbnail_path now db))
  = filter (λ r, ¬ is_version asset_id version r) (versions db).
Proof.
  unfold upsert_version. simpl.
  rewrite filter_sql_update_other; [|done|by intros r [? ?]].
  unfold insert_or_ignore_version. simpl.
  destruct (sql_select _ (versions db)); [|done].
  unfold sql_insert. rewrite filter_app.
  rewrite (filter_cons_False _ (mk_version _ _ _ _ _ _ _))
    by (intros Hn; by apply Hn).
  by rewrite filter_nil, (right_id_L [] (++)).
Qed.

Lemma filter_asset_version (asset_id : string) (version : Z)
    (t : list version_row) :
  filter (λ r, v_version r = version)
    (filter (λ r, v_asset_id r = asset_id) t)
  = filter (is_version asset_id version) t
  ∧ filter (λ r, v_version r ≠ version)
      (filter (λ r, v_asset_id r = asset_id) t)
    = filter (λ r, v_asset_id r = asset_id)
        (filter (λ r, ¬ is_version asset_id version r) t).
Proof.
  rewrite !list_filter_filter. split; apply list_filter_iff; intros r;
    unfold is_version; tauto.
Qed.

Lemma entries_with_version (version : Z) (l : list version_row) :
  filter (λ e, ve_version e = version) (version_entry_of <$> l)
  = version_entry_of <$> filter (λ r, v_version r = version) l.
Proof. exact (filter_fmap_comm version_entry_of _ l). Qed.

Lemma entries_without_version (version : Z) (l : list version_row) :
  filter (λ e, ve_version e ≠ version) (version_entry_of <$> l)
  = version_entry_of <$> filter (λ r, v_version r ≠ version) l.
Proof. exact (filter_fmap_comm version_entry_of _ l). Qed.

(** The sorted version rows of an asset, split by a version number. *)
Lemma sorted_versions_split (asset_id : string) (version : Z)
    (t : list version_row) :
  versions_unique t →
  filter (λ r, v_version r = version)
    (merge_sort version_desc (filter (λ r, v_asset_id r = asset_id) t))
  = merge_sort version_desc (filter (is_version asset_id version) t)
  ∧ filter (λ r, v_version r ≠ version)
      (merge_sort version_desc (filter (λ r, v_asset_id r = asset_id) t))
    = merge_sort version_desc
        (filter (λ r, v_asset_id r = asset_id)
           (filter (λ r, ¬ is_version asset_id version r) t)).
Proof.
  intros Hu.
  destruct (filter_asset_version asset_id version t) as [<- <-].
  split; symmetry; apply merge_sort_filter_versions;
    intros x y Hx Hy; by apply (versions_of_asset_distinct t asset_id).
Qed.



Lemma ensure_asset_rows (asset_id name family description tags now : string)
    (db : DB) :
  ∃ x l,
    sql_select (is_asset asset_id)
      (assets (ensure_asset asset_id name family description tags now db))
    = x :: l.
Proof.
  unfold ensure_asset.
  destruct (sql_select (is_asset asset_id) (assets db)) as [|x l] eqn:Hsel;
    simpl.
  - unfold sql_select, sql_insert in *. rewrite filter_app, Hsel.
    rewrite filter_cons_True by done. by eexists _, _.
  - rewrite filter_sql_update_same by done. rewrite Hsel. by eexists _, _.
Qed.

(** ** The archived flag *)

Lemma filter_fmap_preserve {row} (Q : row → Prop) `{!∀ r, Decision (Q r)}
    (g : row → row) (t : list row) :
  (∀ r, Q (g r) ↔ Q r) → filter Q (g <$> t) = g <$> filter Q t.
Proof.
  intros Hg. induction t as [|r t IH]; [done|]. rewrite fmap_cons.
  destruct (decide (Q r)) as [HQ|HQ].
  - rewrite (filter_cons_True Q (g r)) by (by apply Hg).
    rewrite (filter_cons_True Q r) by done. by rewrite fmap_cons, IH.
  - rewrite (filter_cons_False Q (g r)) by (by rewrite Hg).
    by rewrite (filter_cons_False Q r).
Qed.

Lemma select_sql_update (asset_id : string) (version : Z)
    (P : version_row → Prop) `{!∀ r, Decision (P r)}
    (f : version_row → version_row) (t : list version_row) :
  (∀ r, v_asset_id (f r) = v_asset_id r ∧ v_version (f r) = v_version r) →
  sql_select (is_version asset_id version) (sql_update P f t)
  = (λ r, if decide (P r) then f r else r)
      <$> sql_select (is_version asset_id version) t.
Proof.
  intros Hf. unfold sql_select, sql_update.
  apply filter_fmap_preserve. intros r. unfold is_version.
  destruct (decide (P r)); [|done]. by destruct (Hf r) as [-> ->].
Qed.

Lemma filter_singleton_sub {A} (P Q : A → Prop) `{!∀ x, Decision (P x)}
    `{!∀ x, Decision (Q x)} (l : list A) (x : A) :
  filter P l = [x] →
  filter P (filter Q l) = (if decide (Q x) then [x] else []).
Proof.
  intros Hl.
  assert (filter P (filter Q l) = filter Q (filter P l)) as ->.
  { clear Hl. induction l as [|y l IH]; [done|].
    destruct (decide (Q y)) as [HQ|HQ], (decide (P y)) as [HP|HP].
    - rewrite (filter_cons_True Q y l), (filter_cons_True P y l) by done.
      rewrite !filter_cons_True by done. by rewrite IH.
    - rewrite (filter_cons_True Q y l), (filter_cons_False P y l) by done.
      by rewrite filter_cons_False.
    - rewrite (filter_cons_False Q y l), (filter_cons_True P y l) by done.
      by rewrite filter_cons_False.
    - by rewrite (filter_cons_False Q y l), (filter_cons_False P y l). }
  rewrite Hl. destruct (decide (Q x)).
  - by rewrite filter_cons_True.
  - by rewrite filter_cons_False.
Qed.

(** X9.  Nothing clears the archived flag.  When the pair has a version
    row whose flag is set, then after any one mutating call either the
    pair still has exactly one row, with the flag set and the same
    creation time, or the row is gone and the call was a [delete_version]
    of the pair or a [delete_asset] of the asset.  In particular an
    [upsert_version] of an archived version leaves it archived. *)
Theorem archived_stays (c : call) (db : DB) (asset_id : string)
    (version : Z) (r : version_row) :
  sql_select (is_version asset_id version) (versions db) = [r] →
  v_archived r ≠ 0 →
  let rows := sql_select (is_version asset_id version) (versions (exec c db)) in
  (∃ r', rows = [r'] ∧ v_archived r' ≠ 0 ∧ v_created_at r' = v_created_at r)
  ∨ (rows = []
     ∧ ((∃ now, c = DeleteVersion asset_id version now)
        ∨ (∃ now, c = DeleteAsset asset_id now))).
Proof.
  intros Hsel Harch rows. subst rows.
  assert (is_version asset_id version r) as [Hra Hrv].
  { assert (r ∈ sql_select (is_version asset_id version) (versions db)) as Hin
      by (rewrite Hsel; left).
    by apply list_elem_of_filter in Hin as [? _]. }
  destruct c as [i n f d t now|i v m th now|i v fn rp fmt sz now|i fs now
                |i v now|i v now|i now|i a b now]; simpl.
  - left. exists r. split; [|done].
    unfold ensure_asset. by destruct (sql_select _ (assets db)).
  - left. rewrite select_sql_update by done.
    assert (sql_select (is_version asset_id version)
              (insert_or_ignore_version
                 (mk_version i v m th 0 now now) (versions db)) = [r]) as ->.
    { unfold insert_or_ignore_version. simpl.
      destruct (sql_select (is_version i v) (versions db)) eqn:Hiv; [|done].
      unfold sql_select, sql_insert in *. rewrite filter_app, Hsel.
      rewrite filter_cons_False; [done|].
      intros [? ?]. simpl in *. subst. by rewrite Hsel in Hiv. }
    simpl. eexists. split; [done|]. by case_decide.
  - left. by exists r.
  - left. exists r. split; [|done].
    unfold update_asset. by destruct (filter _ (map_to_list fs)).
  - left. rewrite select_sql_update by done. rewrite Hsel. simpl.
    eexists. split; [done|]. by case_decide.
  - unfold sql_select, sql_delete in *.
    rewrite (filter_singleton_sub _ _ _ r) by done.
    destruct (decide (¬ is_version i v r)) as [Hn|Hn].
    + left. by exists r.
    + right. split; [done|]. left. exists now.
      apply dec_stable in Hn as [? ?]. congruence.
  - unfold sql_select, sql_delete in *.
    rewrite (filter_singleton_sub _ _ _ r) by done.
    destruct (decide (¬ v_asset_id r = i)) as [Hn|Hn].
    + left. by exists r.
    + right. split; [done|]. right. exists now.
      apply dec_stable in Hn. congruence.
  - left. by exists r.
Qed.

Lemma archived_stays_witness :
  let db :=
    archive_version "model_Hero" 1 "t2"
      (upsert_version "model_Hero" 1 ∅ "" "t1" init_db) in
  (∃ r, sql_select (is_version "model_Hero" 1) (versions db) = [r]
        ∧ v_archived r ≠ 0)
  ∧ v_archived
      <$> sql_select (is_version "model_Hero" 1)
            (versions (upsert_version "model_Hero" 1
                         {[ "polycount" := JInt 3 ]} "" "t3" db))
    = [1].
Proof.
  intros db. split; [by eexists|].
  destruct (archived_stays
              (UpsertVersion "model_Hero" 1 {[ "polycount" := JInt 3 ]} "" "t3")
              db "model_Hero" 1 _ eq_refl) as [(r' & Hr' & _)|[Hnil _]].
  - done.
  - reflexivity.
  - discriminate Hnil.
Defined.

(** ** The publishing client's next version *)

Lemma foldl_max_ge (z : Z) (l : list Z) :
  z ≤ foldl Z.max z l ∧ Forall (λ y, y ≤ foldl Z.max z l) l.
Proof.
  revert z. induction l as [|y l IH]; intros z; simpl; [by split|].
  destruct (IH (Z.max z y)) as [Hz Hl]. split; [lia|].
  constructor; [lia|done].
Qed.

Lemma next_version_above (a : asset_detail) (e : version_entry) :
  e ∈ ad_versions a → ve_version e < next_version (Some a).
Proof.
  unfold next_version. destruct (ad_versions a) as [|v vs]; intros He.
  { by apply elem_of_nil in He. }
  destruct (foldl_max_ge (ve_version v) (ve_version <$> vs)) as [Hv Hvs].
  apply elem_of_cons in He as [->|He]; [lia|].
  rewrite Forall_forall in Hvs.
  assert (ve_version e ≤ foldl Z.max (ve_version v) (ve_version <$> vs));
    [|lia].
  apply Hvs. by apply list_elem_of_fmap_2.
Qed.

Lemma upsert_asset_state (payload : asset_payload) (asset_id : string)
    (v : Z) (now1 now2 role : string) (db : DB) :
  p_asset_id payload = Some asset_id →
  asset_id ≠ "" →
  p_version payload = Some v →
  (upsert_asset (Some payload) now1 now2 role db).2
  = upsert_version asset_id (if decide (v = 0) then 1 else v)
      (default ∅ (p_metadata payload)) "" now2
      (ensure_asset asset_id (get_or (p_name payload) asset_id)
         (lower (get_or (p_family payload) "unknown"))
         (get_or (p_description payload) "")
         match p_tags payload with
         | TagsList l => String.concat "," l
         | TagsStr s => s
         | TagsMissing => ""
         end now1 db).
Proof.
  intros Hid Hne Hver. unfold upsert_asset. cbv zeta.
  change (default empty_payload (Some payload)) with payload.
  rewrite Hid, Hver.
  assert (get_or (Some asset_id) "" = asset_id) as ->.
  { unfold get_or. by rewrite decide_False. }
  by rewrite decide_False.
Qed.

Lemma upsert_fresh_version (asset_id : string) (stored : Z)
    (metadata : gmap string jval) (thumbnail_path now : string)
    (db db1 : DB) (a0 : asset_detail) :
  versions_unique (versions db) →
  get_asset asset_id db = Some a0 →
  (∀ e, e ∈ ad_versions a0 → ve_version e < stored) →
  sql_select (is_asset asset_id) (assets db1) ≠ [] →
  versions db1 = versions db →
  files db1 = files db →
  ∃ a,
    get_asset asset_id
      (upsert_version asset_id stored metadata thumbnail_path now db1)
    = Some a
    ∧ ad_versions a
      = mk_version_entry stored metadata thumbnail_path false now now
          :: ad_versions a0.
Proof.
  intros Hu Ha0 Habove Hsel1 Hv1 Hf1.
  unfold get_asset in Ha0 |- *.
  change (assets (upsert_version asset_id stored metadata thumbnail_path
                    now db1))
    with (assets db1).
  destruct (sql_select (is_asset asset_id) (assets db1)) as [|x1 l1];
    [done|].
  destruct (sql_select (is_asset asset_id) (assets db)) as [|x l]; [done|].
  injection Ha0 as <-. cbn [ad_versions] in Habove.
  eexists. split; [reflexivity|].
  cbn [ad_versions]. unfold sql_select in *.
  assert (filter (is_version asset_id stored) (versions db) = []) as Hfresh.
  { destruct (filter (is_version asset_id stored) (versions db))
      as [|r t] eqn:Hf; [done|]. exfalso.
    assert (r ∈ filter (is_version asset_id stored) (versions db)) as Hr
      by (rewrite Hf; left).
    apply list_elem_of_filter in Hr as [[Hra Hrv] Hr].
    assert (ve_version (version_entry_of r) < stored) as Hlt;
      [|cbn [version_entry_of ve_version] in Hlt; lia].
    apply Habove. apply list_elem_of_fmap_2.
    rewrite merge_sort_Permutation. by apply list_elem_of_filter. }
  assert (versions (upsert_version asset_id stored metadata thumbnail_path
                      now db1)
          = versions db
            ++ [mk_version asset_id stored metadata thumbnail_path 0
                  now now]) as ->.
  { unfold upsert_version, insert_or_ignore_version.
    cbn [versions v_asset_id v_version].
    rewrite Hv1. unfold sql_select. rewrite Hfresh.
    unfold sql_insert, sql_update. rewrite fmap_app.
    unfold insert_change, set_versions. cbn [versions].
    match goal with
    | |- (?g <$> versions db) ++ _ = _ =>
        assert (g <$> versions db = versions db) as ->
    end.
    { clear -Hfresh. induction (versions db) as [|r t IH]; [done|].
      rewrite fmap_cons.
      destruct (decide (is_version asset_id stored r)) as [HP|HP].
      - by rewrite filter_cons_True in Hfresh.
      - rewrite filter_cons_False in Hfresh by done.
        by rewrite IH. }
    rewrite list_fmap_singleton. cbv beta. rewrite decide_True by done.
    reflexivity. }
  rewrite filter_app, filter_cons_True by done. rewrite filter_nil.
  set (new := mk_version asset_id stored metadata thumbnail_path 0 now now).
  set (old := filter (λ r, v_asset_id r = asset_id) (versions db)) in *.
  assert (Forall (λ r, v_version r < stored) old) as Hold.
  { apply Forall_forall. intros r Hr.
    assert (ve_version (version_entry_of r) < stored) as Hlt; [|done].
    apply Habove. apply list_elem_of_fmap_2.
    by rewrite merge_sort_Permutation. }
  rewrite Forall_forall in Hold.
  assert (merge_sort version_desc (old ++ [new])
          = new :: merge_sort version_desc old) as ->; [|done].
  apply (StronglySorted_unique_strong version_desc).
  - intros y1 y2 H1 H2 H12 H21. unfold version_desc in *.
    rewrite merge_sort_Permutation, elem_of_app, list_elem_of_singleton in H1.
    rewrite elem_of_cons, merge_sort_Permutation in H2.
    destruct H1 as [H1| ->], H2 as [->|H2].
    + apply Hold in H1. subst new. cbn [v_version] in *. lia.
    + apply (versions_of_asset_distinct (versions db) asset_id);
        [done..|lia].
    + done.
    + apply Hold in H2. subst new. cbn [v_version] in *. lia.
  - apply StronglySorted_merge_sort; apply _.
  - apply SSorted_cons.
    + apply StronglySorted_merge_sort; apply _.
    + apply Forall_forall. intros r Hr.
      rewrite merge_sort_Permutation in Hr. apply Hold in Hr.
      unfold version_desc. subst new. cbn [v_version]. lia.
  - rewrite !merge_sort_Permutation.
    by rewrite (comm (++)).
Qed.



(** ** Which calls create and remove assets *)

Lemma get_asset_is_Some (asset_id : string) (db : DB) :
  is_Some (get_asset asset_id db)
  ↔ sql_select (is_asset asset_id) (assets db) ≠ [].
Proof.
  unfold get_asset. destruct (sql_select (is_asset asset_id) (assets db)).
  - split; [by intros [? ?]|done].
  - split; [done|by eexists].
Qed.

Lemma select_asset_update (asset_id : string) (P : asset_row → Prop)
    `{!∀ r, Decision (P r)} (f : asset_row → asset_row) (t : list asset_row) :
  (∀ r, a_id (f r) = a_id r) →
  sql_select (is_asset asset_id) (sql_update P f t)
  = (λ r, if decide (P r) then f r else r)
      <$> sql_select (is_asset asset_id) t.
Proof.
  intros Hf. unfold sql_select, sql_update.
  apply filter_fmap_preserve. intros r. unfold is_asset.
  destruct (decide (P r)); [|done]. by rewrite Hf.
Qed.

Lemma fmap_nonempty {A B} (f : A → B) (l : list A) : f <$> l ≠ [] ↔ l ≠ [].
Proof. by destruct l. Qed.

Lemma update_asset_assets (asset_id : string) (fields : gmap string string)
    (now : string) (db : DB) :
  ∃ f, (∀ r, a_id (f r) = a_id r)
       ∧ assets (update_asset asset_id fields now db)
         = sql_update (is_asset asset_id) f (assets db).
Proof.
  unfold update_asset.
  destruct (filter _ (map_to_list fields)) as [|kv sets].
  - exists id. split; [done|]. unfold sql_update.
    induction (assets db) as [|r t IH]; [done|].
    rewrite fmap_cons, <-IH. by destruct (decide (is_asset asset_id r)).
  - eexists. split; [|reflexivity]. intros r.
    cbv beta. unfold set_updated_at. cbn [a_id].
    by destruct (foldl_set_column_frame (kv :: sets) r) as [-> _].
Qed.

(** X11.  Only [ensure_asset] creates an asset and only [delete_asset]
    removes one: after any one mutating call, [get_asset] finds the asset
    exactly when the call was an [ensure_asset] of that id, or the asset
    was found before and the call was not a [delete_asset] of that id. *)
Theorem asset_existence (c : call) (db : DB) (asset_id : string) :
  is_Some (get_asset asset_id (exec c db))
  ↔ (∃ name family description tags now,
       c = EnsureAsset asset_id name family description tags now)
    ∨ (is_Some (get_asset asset_id db)
       ∧ ∀ now, c ≠ DeleteAsset asset_id now).
Proof.
  rewrite !get_asset_is_Some.
  destruct c as [i n f d t now|i v m th now|i v fn rp fmt sz now|i fs now
                |i v now|i v now|i now|i a b now]; cbn [exec].
  - destruct (decide (i = asset_id)) as [->|Hne].
    + split; [intros _; left; by eexists _, _, _, _, _|intros _].
      by destruct (ensure_asset_rows asset_id n f d t now db)
        as (x & l & ->).
    + assert (sql_select (is_asset asset_id)
                (assets (ensure_asset i n f d t now db)) ≠ []
              ↔ sql_select (is_asset asset_id) (assets db) ≠ []) as ->.
      { unfold ensure_asset.
        destruct (sql_select (is_asset i) (assets db)); simpl.
        - unfold sql_select, sql_insert. rewrite filter_app.
          rewrite (filter_cons_False _ (mk_asset _ _ _ _ _ _ _ _))
            by (by intros ?). by rewrite filter_nil, (right_id_L [] (++)).
        - rewrite select_asset_update by done. apply fmap_nonempty. }
      split; [intros H; right; by split|].
      intros [(? & ? & ? & ? & ? & [= ? _])|[H _]]; done.
  - split; [intros H; right; by split|].
    by intros [(? & ? & ? & ? & ? & ?)|[H _]].
  - split; [intros H; right; by split|].
    by intros [(? & ? & ? & ? & ? & ?)|[H _]].
  - destruct (update_asset_assets i fs now db) as (g & Hg & ->).
    rewrite select_asset_update by done. rewrite fmap_nonempty.
    split; [intros H; right; by split|].
    by intros [(? & ? & ? & ? & ? & ?)|[H _]].
  - split; [intros H; right; by split|].
    by intros [(? & ? & ? & ? & ? & ?)|[H _]].
  - split; [intros H; right; by split|].
    by intros [(? & ? & ? & ? & ? & ?)|[H _]].
  - change (assets (delete_asset i now db))
      with (sql_delete (is_asset i) (assets db)).
    unfold sql_select, sql_delete. rewrite list_filter_filter.
    destruct (decide (i = asset_id)) as [->|Hne].
    + assert (filter (λ a, is_asset asset_id a ∧ ¬ is_asset asset_id a)
                (assets db) = []) as ->.
      { induction (assets db) as [|r t IH]; [done|].
        rewrite filter_cons_False by tauto. done. }
      split; [done|].
      intros [(? & ? & ? & ? & ? & ?)|[_ H]]; [done|].
      by destruct (H now).
    + assert (filter (λ a, is_asset asset_id a ∧ ¬ is_asset i a) (assets db)
              = filter (is_asset asset_id) (assets db)) as ->.
      { apply list_filter_iff. intros r. unfold is_asset.
        split; [tauto|]. intros ?. split; [done|congruence]. }
      split; [intros H; right; split; [done|congruence]|].
      by intros [(? & ? & ? & ? & ? & ?)|[H _]].
  - split; [intros H; right; by split|].
    by intros [(? & ? & ? & ? & ? & ?)|[H _]].
Qed.

(** ** [archive_version] and [update_asset] under [get_asset] *)

Lemma merge_sort_fmap_versions (g : version_row → version_row)
    (t : list version_row) :
  (∀ r, v_version (g r) = v_version r) →
  (∀ x y, x ∈ t → y ∈ t → v_version x = v_version y → x = y) →
  merge_sort version_desc (g <$> t) = g <$> merge_sort version_desc t.
Proof.
  intros Hg Hd. apply (StronglySorted_unique_strong version_desc).
  - intros x1 x2 H1 H2 H12 H21.
    rewrite merge_sort_Permutation in H1.
    apply list_elem_of_fmap in H1 as (y1 & -> & H1).
    apply list_elem_of_fmap in H2 as (y2 & -> & H2).
    rewrite merge_sort_Permutation in H2.
    unfold version_desc in *. rewrite !Hg in *.
    f_equal. apply Hd; [done..|lia].
  - apply StronglySorted_merge_sort; apply _.
  - apply (StronglySorted_fmap _ version_desc).
    + intros x y. unfold version_desc. by rewrite !Hg.
    + apply StronglySorted_merge_sort; apply _.
  - by rewrite !merge_sort_Permutation.
Qed.

(** X12.  For an asset that exists, on a table that satisfies the
    uniqueness constraint: after [archive_version], [get_asset] lists the
    same entries in the same order, the entry of that version (if any)
    now archived with [updated_at] at the clock reading and every other
    field kept; no entry is created when the version is unknown, and the
    file list and the asset's own columns are as before. *)
Theorem archive_version_get (asset_id : string) (version : Z) (now : string)
    (db : DB) (a0 : asset_detail) :
  versions_unique (versions db) →
  get_asset asset_id db = Some a0 →
  get_asset asset_id (archive_version asset_id version now db)
  = Some (mk_asset_detail (ad_id a0) (ad_name a0) (ad_family a0)
            (ad_description a0) (ad_tags a0) (ad_status a0)
            (ad_created_at a0) (ad_updated_at a0)
            ((λ e, if decide (ve_version e = version)
                   then archived_entry now e else e) <$> ad_versions a0)
            (ad_files a0)).
Proof.
  intros Hu Ha0. unfold get_asset in *.
  change (assets (archive_version asset_id version now db))
    with (assets db).
  change (files (archive_version asset_id version now db))
    with (files db).
  destruct (sql_select (is_asset asset_id) (assets db)) as [|x l]; [done|].
  injection Ha0 as <-. cbn [ad_id ad_name ad_family ad_description ad_tags
    ad_status ad_created_at ad_updated_at ad_versions ad_files].
  do 2 f_equal.
  change (versions (archive_version asset_id version now db))
    with (sql_update (is_version asset_id version)
            (λ r, mk_version (v_asset_id r) (v_version r) (v_metadata_json r)
                    (v_thumbnail_path r) 1 (v_created_at r) now)
            (versions db)).
  unfold sql_select, sql_update.
  rewrite filter_fmap_preserve
    by (intros r; by destruct (decide (is_version asset_id version r))).
  rewrite merge_sort_fmap_versions.
  - rewrite <-!list_fmap_compose. apply Forall_fmap_ext_1.
    apply Forall_forall. intros r Hr.
    rewrite merge_sort_Permutation in Hr.
    apply list_elem_of_filter in Hr as [Hra _].
    unfold compose. cbn [version_entry_of ve_version].
    destruct (decide (v_version r = version)) as [Hv|Hv].
    + by rewrite decide_True by done.
    + by rewrite decide_False by (by intros [? ?]).
  - intros r. by destruct (decide (is_version asset_id version r)).
  - intros y1 y2 H1 H2.
    by apply (versions_of_asset_distinct (versions db) asset_id).
Qed.

Lemma archive_version_get_witness :
  let db :=
    upsert_version "model_Hero" 2 ∅ "" "t2"
      (upsert_version "model_Hero" 1 ∅ "" "t1"
         (ensure_asset "model_Hero" "Hero" "model" "" "" "t0" init_db)) in
  ∃ a,
    get_asset "model_Hero" (archive_version "model_Hero" 1 "t3" db) = Some a
    ∧ (λ e, (ve_version e, ve_archived e, ve_updated_at e)) <$> ad_versions a
      = [(2, false, "t2"); (1, true, "t3")].
Proof.
  intros db.
  assert (versions_unique (versions db)) as Hu.
  { apply (exec_versions_unique (UpsertVersion _ _ _ _ _)).
    apply (exec_versions_unique (UpsertVersion _ _ _ _ _)).
    intros i v. simpl. lia. }
  destruct (get_asset "model_Hero" db) as [a0|] eqn:Ha0;
    [|vm_compute in Ha0; discriminate Ha0].
  eexists. split.
  - exact (archive_version_get "model_Hero" 1 "t3" db a0 Hu Ha0).
  - vm_compute in Ha0. injection Ha0 as <-. reflexivity.
Defined.

Lemma column_names (r : asset_row) :
  column "name" r = a_name r
  ∧ column "description" r = a_description r
  ∧ column "tags" r = a_tags r
  ∧ column "status" r = a_status r.
Proof. by repeat split. Qed.

(** What [get_asset] answers once the rows of [asset_id] have been
    rewritten by [g], which sets the whitelisted columns from [texts]. *)
Lemma detail_after_update (g : asset_row → asset_row)
    (texts : gmap string string) (asset_id now : string) (db db' : DB) :
  assets db' = sql_update (is_asset asset_id) g (assets db) →
  versions db' = versions db →
  files db' = files db →
  (∀ r, a_id (g r) = a_id r ∧ a_family (g r) = a_family r
        ∧ a_created_at (g r) = a_created_at r ∧ a_updated_at (g r) = now
        ∧ ∀ k, k ∈ allow →
            column k (g r) = default (column k r) (texts !! k)) →
  get_asset asset_id db' = updated_detail texts now <$> get_asset asset_id db
  ∧ ∀ other, other ≠ asset_id → get_asset other db' = get_asset other db.
Proof.
  intros Ha Hv Hf Hg. unfold get_asset. rewrite Ha, Hv, Hf. split.
  - rewrite filter_sql_update_same.
    2:{ intros r. unfold is_asset. by destruct (Hg r) as [-> _]. }
    destruct (sql_select (is_asset asset_id) (assets db)) as [|x l]; [done|].
    rewrite fmap_cons. cbn [fmap option_fmap option_map].
    unfold updated_detail.
    cbn [ad_id ad_name ad_family ad_description ad_tags
         ad_status ad_created_at ad_updated_at ad_versions ad_files].
    destruct (Hg x) as (-> & -> & -> & -> & Hcol).
    destruct (column_names x) as (Hcn & Hcd & Hct & Hcs).
    rewrite <-Hcn, <-Hcd, <-Hct, <-Hcs.
    destruct (column_names (g x)) as (<- & <- & <- & <-).
    rewrite !Hcol; [done|by apply allow_cases; auto..].
  - intros other Hne.
    assert (sql_select (is_asset other)
              (sql_update (is_asset asset_id) g (assets db))
            = sql_select (is_asset other) (assets db)) as ->; [|done].
    unfold sql_select, sql_update. clear Ha Hv Hf.
    induction (assets db) as [|r t IH]; [done|]. rewrite fmap_cons.
    destruct (decide (is_asset asset_id r)) as [Hr|Hr].
    + unfold is_asset in Hr. destruct (Hg r) as [Hid _].
      rewrite !filter_cons_False; [done| |];
        unfold is_asset; rewrite ?Hid; congruence.
    + destruct (decide (is_asset other r)).
      * rewrite !filter_cons_True by done. by rewrite IH.
      * by rewrite !filter_cons_False.
Qed.

(** The columns the generated [UPDATE] writes, once its parameters have
    been bound. *)
Lemma bound_columns (fields : gmap string field_value)
    (params : list (string * string)) (r : asset_row) (k : string) :
  Forall2 (λ kv p, p.1 = kv.1 ∧ stored_text kv.2 = Some p.2)
    (filter (λ kv : string * field_value, kv.1 ∈ allow) (map_to_list fields))
    params →
  k ∈ allow →
  column k (foldl set_column r params)
  = default (column k r) (omap stored_text fields !! k).
Proof.
  intros Hbind Hk. rewrite lookup_omap.
  destruct (whitelisted_sets fields) as [Hnd Hsets].
  pose proof (bound_params _ _ Hbind) as [Hkeys Hbound].
  destruct (fields !! k) as [v|] eqn:Hv; simpl.
  - assert ((k, v) ∈ filter (λ kv : string * field_value, kv.1 ∈ allow)
                       (map_to_list fields)) as Hin by (by apply Hsets).
    pose proof Hin as Hin'.
    apply list_elem_of_lookup in Hin' as [i Hi].
    destruct (Forall2_lookup_l _ _ _ _ _ Hbind Hi) as (p & _ & _ & Hp).
    simpl in Hp. rewrite Hp. simpl.
    apply (foldl_set_column_present k p.2 params r);
      [by rewrite Hkeys|done|by apply (Hbound k v)].
  - apply (foldl_set_column_absent k params r). rewrite Hkeys.
    intros Hin. apply list_elem_of_fmap in Hin as ([k' v'] & -> & Hin).
    apply Hsets in Hin as [_ Hin]. simpl in *. congruence.
Qed.

(** X13.  Round trip [update_asset] -> [get_asset], for a dictionary
    whose values are text, integers, arrays or objects.  With a
    whitelisted key whose value cannot be bound (an array, an object, an
    integer outside SQLite's range) the call raises.  Otherwise it
    succeeds, and when [fields] has a whitelisted key the asset (if it
    exists) is afterwards found with each of name, description, tags and
    status at the supplied value as stored (text as it is, an integer in
    decimal) when its key is present and at its old value otherwise,
    [updated_at] at the clock reading, and id, family, creation time,
    versions and files as before; without a whitelisted key the answer
    is the old one.  An asset that does not exist is not created, and
    what [get_asset] answers for any other id is unchanged. *)
Theorem update_asset_get (asset_id : string)
    (fields : gmap string field_value) (now : string) (db : DB) :
  ((∃ k v, k ∈ allow ∧ fields !! k = Some v ∧ stored_text v = None) →
     update_asset_call asset_id fields now db = Raises)
  ∧ ((∀ k v, k ∈ allow → fields !! k = Some v → is_Some (stored_text v)) →
     ∃ db',
       update_asset_call asset_id fields now db = Returns db'
       ∧ get_asset asset_id db'
         = (if decide (whitelisted_values fields = ∅) then id
            else updated_detail (omap stored_text fields) now)
             <$> get_asset asset_id db
       ∧ ∀ other, other ≠ asset_id →
           get_asset other db' = get_asset other db).
Proof.
  unfold update_asset_call, whitelisted_values.
  destruct (whitelisted_sets fields) as [_ Hsets].
  pose proof (bind_params_outcome
                (filter (λ kv : string * field_value, kv.1 ∈ allow)
                   (map_to_list fields))) as Hbind.
  destruct (filter (λ kv : string * field_value, kv.1 ∈ allow)
              (map_to_list fields)) as [|kv l] eqn:Hl.
  { split.
    - intros (k & v & Hk & Hkv & _). exfalso.
      eapply (elem_of_nil (k, v)). by apply Hsets.
    - intros _. exists db. split; [done|].
      apply allow_filter_nil in Hl. rewrite decide_True by done.
      split; [by destruct (get_asset asset_id db)|done]. }
  assert (filter (λ kv : string * field_value, kv.1 ∈ allow) fields ≠ ∅)
    as Hne.
  { intros He. apply allow_filter_nil in He. congruence. }
  destruct (bind_params (kv :: l)) as [params|]; split.
  - intros (k & v & Hk & Hkv & Hv). exfalso.
    assert ((k, v) ∈ kv :: l) as Hin by (by apply Hsets).
    apply list_elem_of_lookup in Hin as [i Hi].
    destruct (Forall2_lookup_l _ _ _ _ _ Hbind Hi) as (p & _ & _ & Hp).
    simpl in Hp. congruence.
  - intros _. eexists. split; [reflexivity|].
    rewrite decide_False by done.
    apply (detail_after_update
             (λ r, set_updated_at now (foldl set_column r params)));
      [done..|].
    intros r.
    destruct (foldl_set_column_frame params r) as (Hid & Hfam & Hcr & _).
    unfold set_updated_at. cbn [a_id a_family a_created_at a_updated_at].
    do 4 (split; [done|]). intros k Hk.
    rewrite <-(bound_columns fields params r k); [|by rewrite Hl|done].
    unfold column. by repeat case_decide.
  - done.
  - intros Hbindable. exfalso.
    apply Exists_exists in Hbind as ([k v] & Hin & Hv).
    apply Hsets in Hin as [Hk Hkv].
    destruct (Hbindable k v Hk Hkv) as [text Htext].
    simpl in Hv. congruence.
Qed.

(** ** Path components *)

Lemma no_slash_nil : no_slash "".
Proof. reflexivity. Qed.

Lemma no_slash_cons (c : ascii) (s : string) :
  Ascii.eqb c "/" = false → no_slash s → no_slash (String c s).
Proof.
  intros Hc Hs. unfold no_slash in *. simpl. by rewrite Hc, Hs.
Qed.

Lemma no_slash_head (s : string) :
  no_slash s → s ≠ "" → String.prefix "/" s = false.
Proof.
  destruct s as [|c s]; [done|]. intros Hs _.
  rewrite prefix_cons, prefix_nil.
  destruct (Ascii.eqb_spec "/" c) as [<-|?]; [|done].
  unfold no_slash in Hs. simpl in Hs. by injection Hs.
Qed.

Lemma split_slash_no_slash (s : string) : Forall no_slash (split_slash s).
Proof.
  induction s as [|c s IH]; simpl.
  { constructor; [apply no_slash_nil|constructor]. }
  destruct (Ascii.eqb c "/") eqn:Hc.
  { constructor; [apply no_slash_nil|done]. }
  pose proof (split_slash_nonempty s) as Hne.
  destruct (split_slash s) as [|h t]; [done|].
  apply Forall_cons in IH as [Hh Ht].
  constructor; [by apply no_slash_cons|done].
Qed.

Lemma split_concat (l : list string) :
  l ≠ [] → Forall no_slash l → split_slash (String.concat "/" l) = l.
Proof.
  intros Hne Hl. induction l as [|x l IH]; [done|].
  apply Forall_cons in Hl as [Hx Hl].
  destruct l as [|y l]; [exact Hx|].
  change (String.concat "/" (x :: y :: l))
    with (x +:+ "/" +:+ String.concat "/" (y :: l)).
  rewrite split_slash_app, IH by done. by rewrite Hx.
Qed.

Lemma plain_dotdot_free (l : list string) : Forall plain l → ".." ∉ l.
Proof.
  intros Hl Hin. rewrite Forall_forall in Hl.
  by destruct (Hl _ Hin) as (_ & _ & ? & _).
Qed.

Lemma plain_last (l : list string) : Forall plain l → last l ≠ Some "..".
Proof.
  intros Hl Hlast. apply (plain_dotdot_free l Hl).
  apply last_Some in Hlast as [l' ->].
  rewrite elem_of_app, list_elem_of_singleton. auto.
Qed.

Lemma removelast_take {A} (l : list A) :
  removelast l = take (pred (length l)) l.
Proof.
  destruct l as [|x l _] using rev_ind; [done|].
  rewrite removelast_last, length_app. simpl.
  replace (pred (length l + 1)) with (length l) by lia.
  by rewrite take_app_length.
Qed.

(** The loop of [normpath] on an absolute path, started from a prefix of
    [R] followed by components [Y]: the stack stays of that shape. *)
Lemma norm_from_prefix (n : nat) (P : string → Prop) (R X : list string) :
  n ≠ 0%nat →
  Forall plain R →
  Forall (λ c, no_slash c ∧ P c) X →
  ∀ j Y,
    (j ≤ length R)%nat →
    Forall (λ c, plain c ∧ P c) Y →
    ∃ j' Y',
      (j' ≤ length R)%nat
      ∧ Forall (λ c, plain c ∧ P c) Y'
      ∧ foldl (norm_step n) (take j R ++ Y) X = take j' R ++ Y'.
Proof.
  intros Hn HR HX. induction HX as [|c X [Hc HPc] HX IH]; intros j Y Hj HY.
  { by exists j, Y. }
  cbn [foldl].
  destruct (decide (c = "" ∨ c = ".")) as [Hskip|Hskip].
  { rewrite norm_step_skip by done. by apply IH. }
  destruct (decide (c = "..")) as [->|Hdd].
  - rewrite norm_step_pop; [|done|].
    2:{ apply plain_last, Forall_app. split; [by apply Forall_take|].
        eapply Forall_impl; [exact HY|]. by intros ? [? _]. }
    destruct Y as [|y Y _] using rev_ind.
    + rewrite (right_id_L [] (++)), removelast_take, length_take.
      rewrite take_take.
      replace (pred (j `min` length R) `min` j)%nat with (pred j) by lia.
      rewrite <-(right_id_L [] (++) (take (pred j) R)).
      apply IH; [lia|done].
    + rewrite (assoc_L (++)), removelast_last.
      apply IH; [done|]. by apply Forall_app in HY as [? _].
  - rewrite norm_step_push by done. rewrite <-(assoc_L (++)).
    apply IH; [done|]. apply Forall_app. split; [done|].
    constructor; [|constructor]. split; [|done].
    split; [tauto|]. split; [tauto|]. done.
Qed.

Lemma norm_plain (n : nat) (X : list string) :
  n ≠ 0%nat → Forall no_slash X → Forall plain (foldl (norm_step n) [] X).
Proof.
  intros Hn HX.
  destruct (norm_from_prefix n (λ _, True) [] X Hn) with (j := 0%nat) (Y := @nil string)
    as (j' & Y' & _ & HY' & Heq); [done| |done|done|].
  { eapply Forall_impl; [exact HX|]. by intros. }
  simpl in Heq. rewrite Heq, take_nil. simpl.
  eapply Forall_impl; [exact HY'|]. by intros ? [? _].
Qed.

Lemma norm_pops (n k : nat) (acc : list string) :
  n ≠ 0%nat → Forall plain acc →
  foldl (norm_step n) acc (replicate k "..") = take (length acc - k) acc.
Proof.
  intros Hn. revert acc. induction k as [|k IH]; intros acc Hacc.
  { simpl. by rewrite Nat.sub_0_r, firstn_all. }
  cbn [replicate foldl]. rewrite norm_step_pop by (by try apply plain_last).
  rewrite removelast_take. rewrite IH by (by apply Forall_take).
  rewrite length_take, take_take. f_equal. lia.
Qed.

Lemma norm_pushes (n : nat) (acc X : list string) :
  Forall plain X → foldl (norm_step n) acc X = acc ++ X.
Proof.
  intros HX. revert acc.
  induction HX as [|c X (Hc1 & Hc2 & Hc3 & _) _ IH]; intros acc.
  { by rewrite (right_id_L [] (++)). }
  cbn [foldl]. rewrite norm_step_push by (by try intros [?|?]).
  by rewrite IH, <-(assoc_L (++)).
Qed.

Lemma common_prefix_length_le (l1 l2 : list string) :
  (common_prefix_length l1 l2 ≤ length l1)%nat.
Proof.
  revert l2. induction l1 as [|x l1 IH]; intros [|y l2]; simpl; try lia.
  destruct (decide (x = y)); [|lia]. specialize (IH l2). lia.
Qed.

Lemma common_prefix_length_take (l1 l2 : list string) :
  take (common_prefix_length l1 l2) l1 = take (common_prefix_length l1 l2) l2.
Proof.
  revert l2. induction l1 as [|x l1 IH]; intros [|y l2]; simpl; try done.
  destruct (decide (x = y)) as [->|]; [|done]. simpl. by rewrite IH.
Qed.

Lemma common_prefix_length_app (j : nat) (R Y : list string) :
  (j ≤ length R)%nat → (j ≤ common_prefix_length R (take j R ++ Y))%nat.
Proof.
  revert j. induction R as [|x R IH]; intros j Hj; simpl in *.
  { lia. }
  destruct j as [|j]; [lia|]. simpl.
  rewrite decide_True by done. specialize (IH j). lia.
Qed.

(** Climbing from [R] to the common prefix and descending into [D] gives
    [D]. *)
Lemma norm_relink (n : nat) (R D : list string) :
  n ≠ 0%nat → Forall plain R → Forall plain D →
  foldl (norm_step n) R
    (replicate (length R - common_prefix_length R D) ".."
     ++ drop (common_prefix_length R D) D)
  = D.
Proof.
  intros Hn HR HD. rewrite foldl_app, norm_pops by done.
  rewrite norm_pushes by (by apply Forall_drop).
  pose proof (common_prefix_length_le R D).
  replace (length R - (length R - common_prefix_length R D))%nat
    with (common_prefix_length R D) by lia.
  by rewrite common_prefix_length_take, take_drop.
Qed.

(** ** Backslashes and decimal numbers *)

Lemma replace_backslash_app (a b : string) :
  replace_backslash (a +:+ b) = replace_backslash a +:+ replace_backslash b.
Proof.
  induction a as [|c a IH]; [done|].
  rewrite string_app_cons. simpl. by rewrite IH, string_app_cons.
Qed.

Lemma no_backslash_concat (l : list string) :
  Forall no_backslash l → no_backslash (String.concat "/" l).
Proof.
  unfold no_backslash. induction 1 as [|x l Hx Hl IH]; [done|].
  destruct l as [|y l]; [exact Hx|].
  change (String.concat "/" (x :: y :: l))
    with (x +:+ "/" +:+ String.concat "/" (y :: l)).
  by rewrite !replace_backslash_app, Hx, IH.
Qed.

Lemma string_of_uint_chars (d : Decimal.uint) :
  no_slash (NilEmpty.string_of_uint d)
  ∧ no_backslash (NilEmpty.string_of_uint d).
Proof.
  induction d as [|d [IH1 IH2]|d [IH1 IH2]|d [IH1 IH2]|d [IH1 IH2]
                 |d [IH1 IH2]|d [IH1 IH2]|d [IH1 IH2]|d [IH1 IH2]
                 |d [IH1 IH2]|d [IH1 IH2]];
    [done|split; [by apply no_slash_cons|
                  unfold no_backslash in *; simpl; by rewrite IH2]..].
Qed.

Lemma str_int_chars (z : Z) : no_slash (str_int z) ∧ no_backslash (str_int z).
Proof.
  unfold str_int, NilZero.string_of_int.
  assert (∀ d, no_slash (NilZero.string_of_uint d)
               ∧ no_backslash (NilZero.string_of_uint d)) as Hu.
  { intros d. pose proof (string_of_uint_chars d) as Hd.
    by destruct d. }
  destruct (Z.to_int z) as [d|d]; [apply Hu|].
  destruct (Hu d) as [H1 H2]. split.
  - by apply no_slash_cons.
  - unfold no_backslash in *. simpl. by rewrite H2.
Qed.

Lemma version_dir_plain (version : Z) :
  plain ("v" +:+ str_int version) ∧ no_backslash ("v" +:+ str_int version).
Proof.
  destruct (str_int_chars version) as [H1 H2].
  change ("v" +:+ str_int version) with (String "v" (str_int version)).
  split; [split; [done|split; [done|split; [done|]]]|].
  - by apply no_slash_cons.
  - unfold no_backslash in *. simpl. by rewrite H2.
Qed.

(** ** [relpath] between absolute paths *)

Lemma filter_plain (l : list string) :
  Forall plain l → filter (λ x, x ≠ "") l = l.
Proof.
  induction 1 as [|x l (Hx & _) _ IH]; [done|].
  by rewrite filter_cons_True, IH.
Qed.

Lemma comps_of_normpath (p : string) :
  String.prefix "/" p = true →
  let D := foldl (norm_step (initial_slashes p)) [] (split_slash p) in
  Forall plain D
  ∧ normpath p = slash_prefix (initial_slashes p) +:+ String.concat "/" D
  ∧ filter (λ x, x ≠ "") (split_slash (normpath p)) = D.
Proof.
  intros Hp D.
  assert (initial_slashes p ≠ 0%nat) as Hn
    by (destruct (initial_slashes_cases p Hp) as [-> | ->]; done).
  assert (Forall plain D) as HD
    by (apply norm_plain; [done|apply split_slash_no_slash]).
  destruct (normpath_absolute p Hp) as (sl & Hcases & Hpre & Hnorm).
  fold D in Hnorm. split; [done|]. split; [by rewrite Hpre|].
  rewrite Hnorm.
  assert (filter (λ x, x ≠ "") (split_slash (String.concat "/" D)) = D)
    as HfD.
  { destruct D as [|d D'] eqn:HeqD; [done|].
    rewrite split_concat;
      [by apply filter_plain|done|].
    eapply Forall_impl; [exact HD|]. by intros ? (_ & _ & _ & ?). }
  destruct Hcases as [-> | ->].
  - change ("/" +:+ String.concat "/" D)
      with (String "/" (String.concat "/" D)).
    cbn [split_slash Ascii.eqb Bool.eqb].
    by rewrite filter_cons_False by (by intros ?).
  - change ("//" +:+ String.concat "/" D)
      with (String "/" (String "/" (String.concat "/" D))).
    cbn [split_slash Ascii.eqb Bool.eqb].
    by rewrite !filter_cons_False by (by intros ?).
Qed.

Lemma relpath_absolute (cwd path start : string) :
  String.prefix "/" path = true →
  String.prefix "/" start = true →
  let R := foldl (norm_step (initial_slashes start)) [] (split_slash start) in
  let D := foldl (norm_step (initial_slashes path)) [] (split_slash path) in
  relpath cwd path start
  = Some (rel_text (replicate (length R - common_prefix_length R D) ".."
                    ++ drop (common_prefix_length R D) D)).
Proof.
  intros Hp Hs R D. unfold relpath, abspath. rewrite Hp, Hs.
  assert (String.eqb path "" = false) as ->.
  { apply prefix_slash in Hp as [? ->]. done. }
  destruct (comps_of_normpath path Hp) as (_ & _ & ->).
  destruct (comps_of_normpath start Hs) as (_ & _ & ->).
  fold R D. by destruct (_ ++ _).
Qed.

Lemma prefix_concat (c : string) (l : list string) :
  c ≠ "" → no_slash c → String.prefix "/" (String.concat "/" (c :: l)) = false.
Proof.
  intros Hc Hs. pose proof (no_slash_head c Hs Hc) as Hp.
  destruct c as [|a c]; [done|].
  destruct l as [|y l]; [exact Hp|].
  change (String.concat "/" (String a c :: y :: l))
    with (String a c +:+ "/" +:+ String.concat "/" (y :: l)).
  rewrite prefix_cons, prefix_nil in Hp.
  by rewrite string_app_cons, prefix_cons, prefix_nil.
Qed.

Lemma join_absolute_prefix (root rel_path : string) :
  String.prefix "/" root = true →
  String.prefix "/" rel_path = false →
  String.prefix "/" (join root rel_path) = true.
Proof.
  intros Hroot Hrel. unfold join. rewrite Hrel.
  apply prefix_slash in Hroot as [r ->].
  destruct (_ || _); by rewrite string_app_cons, prefix_cons, prefix_nil.
Qed.

(** Resolving the relative path from [R] to [D] against the root gives
    the path of [D]. *)
Lemma resolve_rel_text (root : string) (D : list string) :
  String.prefix "/" root = true →
  Forall plain D →
  let R := foldl (norm_step (initial_slashes root)) [] (split_slash root) in
  absolute_from_rel root
    (rel_text (replicate (length R - common_prefix_length R D) ".."
               ++ drop (common_prefix_length R D) D))
  = slash_prefix (initial_slashes root) +:+ String.concat "/" D.
Proof.
  intros Hroot HD R.
  assert (initial_slashes root ≠ 0%nat) as Hn
    by (destruct (initial_slashes_cases root Hroot) as [-> | ->]; done).
  assert (Forall plain R) as HR
    by (apply norm_plain; [done|apply split_slash_no_slash]).
  pose proof (norm_relink (initial_slashes root) R D Hn HR HD) as Hlink.
  set (rel_list := replicate _ ".." ++ drop _ D) in *.
  assert (Forall (λ c, c ≠ "" ∧ no_slash c) rel_list) as Hrl.
  { apply Forall_app. split.
    - apply Forall_replicate. by split.
    - apply Forall_drop. eapply Forall_impl; [exact HD|].
      by intros ? (? & _ & _ & ?). }
  assert (String.prefix "/" (rel_text rel_list) = false) as Hrel.
  { destruct rel_list as [|c l]; [done|].
    apply Forall_cons in Hrl as [[? ?] _]. by apply prefix_concat. }
  assert (foldl (norm_step (initial_slashes root)) R
            (split_slash (rel_text rel_list)) = D) as Hfold.
  { destruct rel_list as [|c l] eqn:Hl.
    - simpl in Hlink. subst D. unfold rel_text.
      change (split_slash ".") with ["."]. cbn [foldl].
      by rewrite norm_step_skip by auto.
    - unfold rel_text. rewrite split_concat; [done|done|].
      eapply Forall_impl; [exact Hrl|]. by intros ? [_ ?]. }
  destruct (join_absolute root _ Hroot Hrel) as (Hsl & Hne & Hcomps).
  pose proof (join_absolute_prefix root _ Hroot Hrel) as Hjp.
  unfold absolute_from_rel.
  destruct (comps_of_normpath _ Hjp) as (_ & -> & _).
  rewrite Hsl, Hcomps. fold R. by rewrite Hfold.
Qed.

Lemma no_backslash_cons (c : ascii) (s : string) :
  no_backslash (String c s) ↔ Ascii.eqb c "\" = false ∧ no_backslash s.
Proof.
  unfold no_backslash. simpl. destruct (Ascii.eqb_spec c "\") as [->|Hc].
  - split; [by intros [= ?]|by intros [? _]].
  - split; [by intros [= ?]|intros [_ ->]; done].
Qed.

Lemma split_no_backslash (s : string) :
  no_backslash s → Forall no_backslash (split_slash s).
Proof.
  induction s as [|c s IH]; [by repeat constructor|].
  intros [Hc Hs]%no_backslash_cons. specialize (IH Hs). simpl.
  destruct (Ascii.eqb c "/"); [by constructor|].
  pose proof (split_slash_nonempty s).
  destruct (split_slash s) as [|h t]; [done|].
  apply Forall_cons in IH as [Hh Ht]. constructor; [|done].
  by apply no_backslash_cons.
Qed.

(** The components of the destination of [save_upload], for relative
    names under an absolute root. *)
Lemma destination_comps (root asset_id fname : string) (version : Z) :
  String.prefix "/" root = true →
  String.prefix "/" asset_id = false →
  String.prefix "/" fname = false →
  let dst := join (asset_dir root asset_id version) fname in
  String.prefix "/" dst = true
  ∧ initial_slashes dst = initial_slashes root
  ∧ ∀ n, foldl (norm_step n) [] (split_slash dst)
         = foldl (norm_step n) (foldl (norm_step n) [] (split_slash root))
             (["assets"] ++ split_slash asset_id
              ++ ["v" +:+ str_int version] ++ split_slash fname).
Proof.
  intros Hroot Hid Hf dst. subst dst. unfold asset_dir, assets_dir.
  assert (String.prefix "/" "assets" = false) as Ha by done.
  assert (String.prefix "/" ("v" +:+ str_int version) = false) as Hv by done.
  pose proof (join_absolute_prefix _ _ Hroot Ha) as H1.
  pose proof (join_absolute_prefix _ _ H1 Hid) as H2.
  pose proof (join_absolute_prefix _ _ H2 Hv) as H3.
  pose proof (join_absolute_prefix _ _ H3 Hf) as H4.
  destruct (join_absolute _ _ Hroot Ha) as (S1 & _ & C1).
  destruct (join_absolute _ _ H1 Hid) as (S2 & _ & C2).
  destruct (join_absolute _ _ H2 Hv) as (S3 & _ & C3).
  destruct (join_absolute _ _ H3 Hf) as (S4 & _ & C4).
  split; [done|]. split; [by rewrite S4, S3, S2, S1|].
  intros n. rewrite C4, C3, C2, C1, !foldl_app.
  destruct (version_dir_plain version) as [(_ & _ & _ & ->) _].
  done.
Qed.

Lemma save_upload_path (cwd root asset_id : string) (version : Z)
    (src_path : string) (filename : option string) :
  let fname := get_or filename (basename src_path) in
  let dst := join (asset_dir root asset_id version) fname in
  String.prefix "/" root = true →
  String.prefix "/" asset_id = false →
  String.prefix "/" fname = false →
  no_backslash asset_id →
  no_backslash fname →
  ∃ rel,
    save_upload cwd root asset_id version src_path filename = Some (dst, rel)
    ∧ absolute_from_rel root rel = normpath dst.
Proof.
  intros fname dst Hroot Hid Hf Hbid Hbf.
  destruct (destination_comps root asset_id fname version Hroot Hid Hf)
    as (Hdst & Hsl & Hcomps). fold dst in Hdst, Hsl, Hcomps.
  assert (initial_slashes root ≠ 0%nat) as Hn
    by (destruct (initial_slashes_cases root Hroot) as [-> | ->]; done).
  set (R := foldl (norm_step (initial_slashes root)) [] (split_slash root)).
  set (D := foldl (norm_step (initial_slashes dst)) [] (split_slash dst)).
  destruct (comps_of_normpath dst Hdst) as (HD & Hnorm & _). fold D in HD, Hnorm.
  assert (Forall plain R) as HR
    by (apply norm_plain; [done|apply split_slash_no_slash]).
  set (rel_list := replicate (length R - common_prefix_length R D) ".."
                   ++ drop (common_prefix_length R D) D).
  exists (rel_text rel_list).
  assert (no_backslash (rel_text rel_list)) as Hnb.
  { assert (Forall no_backslash rel_list) as Hall.
    { apply Forall_app. split; [by apply Forall_replicate|].
      destruct (norm_from_prefix (initial_slashes root) no_backslash R
                  (["assets"] ++ split_slash asset_id
                   ++ ["v" +:+ str_int version] ++ split_slash fname)
                  Hn HR) with (j := length R) (Y := @nil string)
        as (j & Y & Hj & HY & Heq); [|done|done|].
      { destruct (version_dir_plain version) as [(_ & _ & _ & Hv1) Hv2].
        pose proof (split_slash_no_slash asset_id) as Hs1.
        pose proof (split_slash_no_slash fname) as Hs2.
        pose proof (split_no_backslash asset_id Hbid) as Hb1.
        pose proof (split_no_backslash fname Hbf) as Hb2.
        rewrite !Forall_app. repeat split.
        - by repeat constructor.
        - apply Forall_forall. intros c Hc. rewrite Forall_forall in Hs1, Hb1.
          split; [by apply Hs1|by apply Hb1].
        - by repeat constructor.
        - apply Forall_forall. intros c Hc. rewrite Forall_forall in Hs2, Hb2.
          split; [by apply Hs2|by apply Hb2]. }
      rewrite firstn_all, (right_id_L [] (++)) in Heq.
      assert (D = take j R ++ Y) as HDeq.
      { subst D. rewrite Hsl, Hcomps. exact Heq. }
      pose proof (common_prefix_length_app j R Y Hj) as Hge.
      rewrite <-HDeq in Hge. rewrite HDeq at 2.
      rewrite drop_app_ge by (rewrite length_take; lia).
      apply Forall_drop. eapply Forall_impl; [exact HY|]. by intros ? [_ ?]. }
    destruct rel_list as [|c l]; [done|]. by apply no_backslash_concat. }
  split.
  - unfold save_upload. fold fname dst.
    rewrite (relpath_absolute cwd dst root Hdst Hroot). fold R D rel_list.
    by rewrite Hnb.
  - rewrite Hnorm, Hsl. by apply resolve_rel_text.
Qed.

(** X15.  Upload and resolution agree.  For an absolute storage root and
    an asset id and file name that are relative paths without a
    backslash, [save_upload] succeeds, and resolving the relative path it
    returns for the database with [absolute_from_rel] gives the
    normalised path of the destination the file was moved to, whether or
    not the names contain [.] or [..] components. *)
Theorem save_upload_resolves (cwd root asset_id : string) (version : Z)
    (src_path : string) (filename : option string) :
  String.prefix "/" root = true →
  String.prefix "/" asset_id = false →
  String.prefix "/" (get_or filename (basename src_path)) = false →
  no_backslash asset_id →
  no_backslash (get_or filename (basename src_path)) →
  ∃ rel,
    save_upload cwd root asset_id version src_path filename
    = Some (join (asset_dir root asset_id version)
              (get_or filename (basename src_path)), rel)
    ∧ absolute_from_rel root rel
      = normpath (join (asset_dir root asset_id version)
                    (get_or filename (basename src_path))).
Proof. apply save_upload_path. Qed.

Lemma save_upload_resolves_witness :
  ∃ rel,
    save_upload "/srv/app" "/srv/app/web_server/storage_root"
      "model_Hero/../model_Villain" 3 "/srv/app/web_server/_tmp/Hero.FBX"
      (Some "Hero.FBX")
    = Some ("/srv/app/web_server/storage_root/assets/model_Hero/../model_Villain/v3/Hero.FBX",
            rel)
    ∧ absolute_from_rel "/srv/app/web_server/storage_root" rel
      = "/srv/app/web_server/storage_root/assets/model_Villain/v3/Hero.FBX".
Proof.
  destruct (save_upload_resolves "/srv/app"
              "/srv/app/web_server/storage_root"
              "model_Hero/../model_Villain" 3
              "/srv/app/web_server/_tmp/Hero.FBX" (Some "Hero.FBX"))
    as (rel & Hs & Hr); [reflexivity..|].
  exists rel. split; [exact Hs|]. rewrite Hr. reflexivity.
Defined.

Lemma common_prefix_length_self (R X : list string) :
  common_prefix_length R (R ++ X) = length R.
Proof.
  pose proof (common_prefix_length_app (length R) R X) as Hge.
  rewrite firstn_all in Hge.
  pose proof (common_prefix_length_le R (R ++ X)). lia.
Qed.

(** X16.  The storage layout.  For an absolute storage root and an asset
    id and file name that are proper path components, the relative path
    [save_upload] returns for the database is
    [assets/<asset_id>/v<version>/<filename>] with its backslashes
    replaced by slashes, whatever the root and the working directory. *)
Theorem save_upload_layout (cwd root asset_id : string) (version : Z)
    (src_path : string) (filename : option string) :
  String.prefix "/" root = true →
  plain asset_id →
  plain (get_or filename (basename src_path)) →
  save_upload cwd root asset_id version src_path filename
  = Some (join (asset_dir root asset_id version)
            (get_or filename (basename src_path)),
          replace_backslash
            ("assets/" +:+ asset_id +:+ "/v" +:+ str_int version +:+ "/"
             +:+ get_or filename (basename src_path))).
Proof.
  intros Hroot Hid Hf. set (fname := get_or filename (basename src_path)) in *.
  assert (String.prefix "/" asset_id = false) as Hpid.
  { destruct Hid as (? & _ & _ & ?). by apply no_slash_head. }
  assert (String.prefix "/" fname = false) as Hpf.
  { destruct Hf as (? & _ & _ & ?). by apply no_slash_head. }
  destruct (destination_comps root asset_id fname version Hroot Hpid Hpf)
    as (Hdst & Hsl & Hcomps).
  set (dst := join (asset_dir root asset_id version) fname) in *.
  unfold save_upload. fold fname dst.
  rewrite (relpath_absolute cwd dst root Hdst Hroot).
  rewrite Hsl, Hcomps.
  set (R := foldl (norm_step (initial_slashes root)) [] (split_slash root)).
  destruct (version_dir_plain version) as [Hv _].
  assert (split_slash asset_id = [asset_id]) as -> by apply Hid.
  assert (split_slash fname = [fname]) as -> by apply Hf.
  rewrite norm_pushes.
  2:{ cbn [app]. repeat apply Forall_cons_2;
        [by repeat split|done|done|done|apply Forall_nil_2]. }
  rewrite common_prefix_length_self, Nat.sub_diag, drop_app_length.
  cbn [replicate app rel_text String.concat].
  by rewrite !string_app_assoc.
Qed.

Lemma save_upload_layout_witness :
  save_upload "/srv/app" "/srv/app/web_server/storage_root" "model_Hero" 12
    "/srv/app/web_server/_tmp/Hero.fbx" None
  = Some ("/srv/app/web_server/storage_root/assets/model_Hero/v12/Hero.fbx",
          "assets/model_Hero/v12/Hero.fbx").
Proof.
  rewrite (save_upload_layout "/srv/app" "/srv/app/web_server/storage_root"
             "model_Hero" 12 "/srv/app/web_server/_tmp/Hero.fbx" None);
    [reflexivity|reflexivity|by repeat split..].
Defined.

(** ** Upload, download and package *)

Lemma add_file_detail (asset_id : string) (version : Z)
    (filename rel_path fmt : string) (size_bytes : Z) (now : string)
    (db : DB) :
  get_asset asset_id
    (add_file asset_id version filename rel_path fmt size_bytes now db)
  = (λ a, mk_asset_detail (ad_id a) (ad_name a) (ad_family a)
            (ad_description a) (ad_tags a) (ad_status a) (ad_created_at a)
            (ad_updated_at a) (ad_versions a)
            (ad_files a
             ++ [mk_file_entry version filename rel_path fmt size_bytes]))
      <$> get_asset asset_id db.
Proof.
  unfold get_asset.
  change (assets (add_file asset_id version filename rel_path fmt size_bytes
                    now db)) with (assets db).
  change (versions (add_file asset_id version filename rel_path fmt
                      size_bytes now db)) with (versions db).
  change (files (add_file asset_id version filename rel_path fmt size_bytes
                   now db))
    with (files db
          ++ [mk_file asset_id version filename rel_path fmt size_bytes]).
  destruct (sql_select (is_asset asset_id) (assets db)) as [|x l]; [done|].
  cbn [fmap option_fmap option_map ad_id ad_name ad_family ad_description
       ad_tags ad_status ad_created_at ad_updated_at ad_versions ad_files].
  unfold sql_select. rewrite filter_app, filter_cons_True by done.
  by rewrite filter_nil, fmap_app.
Qed.



Lemma omap_head {A B} (P : A → Prop) `{!∀ x, Decision (P x)}
    (g : A → option B) (l l' : list A) (x : A) (y : B) :
  (∀ z, is_Some (g z) → P z) →
  filter P l = x :: l' → g x = Some y → ∃ rest, omap g l = y :: rest.
Proof.
  intros Hg. induction l as [|z l IH]; [done|]. intros Hf Hx.
  destruct (decide (P z)) as [HP|HP].
  - rewrite filter_cons_True in Hf by done. injection Hf as -> _.
    cbn [omap list_omap]. rewrite Hx. by eexists.
  - rewrite filter_cons_False in Hf by done. cbn [omap list_omap].
    destruct (g z) eqn:Hz; [|by apply IH].
    destruct HP. apply Hg. by eexists.
Qed.

Lemma omap_nil_filter {A B} (P : A → Prop) `{!∀ x, Decision (P x)}
    (g : A → option B) (l : list A) :
  (∀ z, is_Some (g z) → P z) → filter P l = [] → omap g l = [].
Proof.
  intros Hg. induction l as [|z l IH]; [done|]. intros Hf.
  destruct (decide (P z)) as [HP|HP].
  - by rewrite filter_cons_True in Hf.
  - rewrite filter_cons_False in Hf by done. cbn [omap list_omap].
    destruct (g z) eqn:Hz; [|by apply IH].
    destruct HP. apply Hg. by eexists.
Qed.

(** X19.  The package and the single-file download agree.  The package
    endpoint answers 404 exactly when the asset is unknown, which is when
    the download endpoint answers its [not found].  For a known asset it
    always sends an archive that starts with [metadata.json]: with no
    other entry when the download without a format finds no file of the
    version, and with the file that download sends as next entry, under
    [files/<filename>], when that file exists on disk.  Every file entry
    of the archive is an existing file resolved from a file row of that
    asset and version. *)
Theorem package_matches_download (root : string) (exists_ : string → bool)
    (asset_id : string) (q_version : option Z) (db : DB) :
  let version := default 1 q_version in
  let package := download_package root exists_ asset_id q_version db in
  let download := download_file root asset_id q_version None db in
  (get_asset asset_id db = None
   ↔ package = PackageError "not found" 404)
  ∧ (get_asset asset_id db = None
     ↔ download = Jsonify (ErrorBody "not found") 404)
  ∧ (get_asset asset_id db ≠ None →
     ∃ meta written,
       package
       = PackageFile (ZipStr "metadata.json" meta :: written)
           (asset_id +:+ "_v" +:+ str_int version +:+ ".zip")
       ∧ pm_id meta = asset_id
       ∧ pm_version meta = version
       ∧ (download
          = Jsonify (ErrorBody "file not found for version/format") 404 →
          written = [])
       ∧ (∀ path name,
            download = SendFile path name → exists_ path = true →
            ∃ rest, written = ZipWrite path (join "files" name) :: rest)
       ∧ ∀ e, e ∈ written →
           ∃ f, f ∈ files db
                ∧ f_asset_id f = asset_id
                ∧ f_version f = version
                ∧ exists_ (absolute_from_rel root (f_rel_path f)) = true
                ∧ e = ZipWrite (absolute_from_rel root (f_rel_path f))
                        (join "files" (f_filename f))).
Proof.
  intros version package download. subst package download.
  unfold download_package, download_file. fold version.
  change (lstrip_dot (lower (get_or None ""))) with "".
  destruct (get_asset asset_id db) as [a|] eqn:Ha.
  2:{ split; [done|]. split; [done|]. by intros []. }
  split; [done|]. split.
  { split; [done|]. by destruct (filter _ (ad_files a)). }
  intros _. eexists _, _. split; [reflexivity|].
  assert (ad_id a = asset_id
          ∧ ad_files a
            = file_entry_of
                <$> filter (λ r, f_asset_id r = asset_id) (files db))
    as [Hid Hfiles].
  { unfold get_asset in Ha.
    destruct (sql_select (is_asset asset_id) (assets db)) as [|x l] eqn:Hx;
      [done|].
    injection Ha as <-. split; [|done]. cbn [ad_id].
    assert (x ∈ sql_select (is_asset asset_id) (assets db)) as Hin
      by (rewrite Hx; left).
    by apply list_elem_of_filter in Hin as [? _]. }
  split; [done|]. split; [done|].
  set (g := λ f : file_entry,
         if decide (fe_version f = version)
         then if exists_ (absolute_from_rel root (fe_rel_path f))
              then Some (ZipWrite (absolute_from_rel root (fe_rel_path f))
                           (join "files" (fe_filename f)))
              else None
         else None).
  assert (∀ z, is_Some (g z) → file_matches version "" z) as Hg.
  { intros z [y Hy]. subst g. cbv beta in Hy.
    destruct (decide (fe_version z = version)); [|done].
    split; [done|by left]. }
  split; [|split].
  - destruct (filter (file_matches version "") (ad_files a)) as [|f l] eqn:Hf;
      [|done].
    intros _. by apply (omap_nil_filter (file_matches version "")).
  - intros path name.
    destruct (filter (file_matches version "") (ad_files a)) as [|f l] eqn:Hf;
      [done|].
    intros [= <- <-] Hex.
    apply (omap_head (file_matches version "") g _ l f); [done..|].
    subst g. cbv beta.
    assert (f ∈ filter (file_matches version "") (ad_files a)) as Hin
      by (rewrite Hf; left).
    apply list_elem_of_filter in Hin as [[Hv _] _].
    by rewrite decide_True, Hex by done.
  - intros e He. apply list_elem_of_omap in He as (fe & Hfe & Hge).
    subst g. cbv beta in Hge.
    destruct (decide (fe_version fe = version)) as [Hv|]; [|done].
    destruct (exists_ (absolute_from_rel root (fe_rel_path fe))) eqn:Hex;
      [|done].
    injection Hge as <-. rewrite Hfiles in Hfe.
    apply list_elem_of_fmap in Hfe as (r & -> & Hr).
    apply list_elem_of_filter in Hr as [Hra Hr].
    exists r. by repeat split.
Qed.

(** ** Polling across equal timestamps *)

Lemma ts_lt_le_trans (t s c : string) : String.le t s → ts_lt s c → ts_lt t c.
Proof.
  rewrite !ts_lt_not_le. intros Hts Hsc Hct. apply Hsc. by etrans.
Qed.

Lemma ts_lt_nonempty (s c : string) : ts_lt s c → c ≠ "".
Proof. intros Hlt ->. unfold ts_lt in Hlt. by destruct s. Qed.

Lemma ts_lt_le (s c : string) : ts_lt s c → String.le s c.
Proof.
  rewrite ts_lt_not_le. intros Hn.
  by destruct (total String.le s c).
Qed.

(** With the cursor at or after [t], no later pass returns a row stamped
    [t] or earlier. *)
Lemma polls_after_cursor (k : nat) (t s : string) (db : DB) :
  s ≠ "" → String.le t s →
  Forall (λ r, ts_lt t (ch_created_at r)) (polls k (Some s) db).
Proof.
  revert s. induction k as [|k IH]; intros s Hs Hts; [constructor|].
  cbn [polls]. unfold poll. rewrite decide_False by done.
  set (items := list_changes (Some s) default_limit db).
  assert (Forall (λ r, ts_lt s (ch_created_at r)) items) as Hitems.
  { subst items. unfold list_changes. rewrite decide_False by done.
    apply Forall_forall. intros r Hr.
    destruct (sql_limit_sorted default_limit
                (sql_select (λ r, ts_lt s (ch_created_at r)) (changes db)))
      as [_ Hsub].
    apply (elem_of_submseteq _ _ _ Hr) in Hsub.
    by apply list_elem_of_filter in Hsub as [? _]. }
  apply Forall_app. split.
  - eapply Forall_impl; [exact Hitems|].
    intros r Hr. by apply (ts_lt_le_trans t s).
  - destruct (last items) as [r|] eqn:Hlast; [|by apply IH].
    apply last_Some in Hlast as [l' Hl'].
    assert (ts_lt s (ch_created_at r)) as Hr.
    { rewrite Forall_forall in Hitems. apply Hitems. rewrite Hl'.
      rewrite elem_of_app, list_elem_of_singleton. auto. }
    apply IH; [by apply (ts_lt_nonempty s)|].
    etrans; [exact Hts|]. by apply ts_lt_le.
Qed.

(** X20.  Rows that share the cursor's timestamp are lost.  When the
    100th and the 101st row of the change log in the order of the query
    (ascending timestamp, rows with the same timestamp in table order)
    carry the same timestamp, the first pass of the agent's loop ends on
    the 100th and moves the cursor to that timestamp; every later pass
    asks for rows strictly after it.  So over any number of passes the
    rows received with that timestamp are those among the first 100,
    fewer than the log holds; the 101st row is never received unless an
    identical row is among the first 100; and what has been received is
    never the whole log. *)
Theorem polling_skips_ties (k : nat) (db : DB) (S1 S2 : list change_row)
    (x y : change_row) :
  stamped db →
  order_by created_asc (changes db) = S1 ++ x :: y :: S2 →
  length S1 = 99%nat →
  ch_created_at y = ch_created_at x →
  let tied := λ r, ch_created_at r = ch_created_at x in
  polls (S k) None db = S1 ++ x :: polls k (Some (ch_created_at x)) db
  ∧ filter tied (polls (S k) None db) = filter tied (S1 ++ [x])
  ∧ (length (filter tied (polls (S k) None db))
     < length (filter tied (changes db)))%nat
  ∧ (y ∉ S1 ++ [x] → y ∉ polls (S k) None db)
  ∧ ¬ polls (S k) None db ≡ₚ changes db.
Proof.
  intros Hst HS Hlen Hy tied.
  assert (ch_created_at x ≠ "") as Hx.
  { unfold stamped in Hst. rewrite Forall_forall in Hst. apply Hst.
    rewrite <-(order_by_Permutation created_asc), HS.
    rewrite elem_of_app. right. left. }
  assert (polls (S k) None db
          = S1 ++ x :: polls k (Some (ch_created_at x)) db) as Hpolls.
  { cbn [polls]. unfold poll, list_changes, sql_limit, default_limit.
    rewrite decide_False by lia. change (Z.to_nat 100) with 100%nat.
    rewrite HS.
    assert (take 100 (S1 ++ x :: y :: S2) = S1 ++ [x]) as ->.
    { rewrite take_app_ge by lia. by rewrite Hlen. }
    rewrite last_snoc. by rewrite <-(assoc_L (++)). }
  assert (filter tied (polls k (Some (ch_created_at x)) db) = []) as Hlater.
  { apply filter_none.
    eapply Forall_impl; [by apply (polls_after_cursor k (ch_created_at x))|].
    intros r Hr Heq. unfold tied in Heq. cbv beta in Hr.
    rewrite Heq in Hr.
    by apply ts_lt_irrefl in Hr. }
  assert (filter tied (polls (S k) None db) = filter tied (S1 ++ [x]))
    as Hrecv.
  { rewrite Hpolls.
    replace (S1 ++ x :: polls k (Some (ch_created_at x)) db)
      with ((S1 ++ [x]) ++ polls k (Some (ch_created_at x)) db)
      by (by rewrite <-(assoc_L (++))).
    rewrite (filter_app _ (S1 ++ [x])), Hlater.
    by rewrite (right_id_L [] (++)). }
  assert (length (filter tied (polls (S k) None db))
          < length (filter tied (changes db)))%nat as Hfewer.
  { rewrite Hrecv.
    assert (filter tied (changes db)
            ≡ₚ filter tied (S1 ++ x :: y :: S2)) as ->.
    { apply filter_Permutation. rewrite <-HS.
      symmetry. apply order_by_Permutation. }
    replace (S1 ++ x :: y :: S2) with ((S1 ++ [x]) ++ y :: S2)
      by (by rewrite <-(assoc_L (++))).
    rewrite (filter_app _ (S1 ++ [x])), length_app.
    rewrite (filter_cons_True tied y) by done. simpl. lia. }
  split; [done|]. split; [done|]. split; [done|]. split.
  - intros Hfresh Hin. apply Hfresh.
    assert (y ∈ filter tied (polls (S k) None db)) as Hin'
      by (by apply list_elem_of_filter).
    rewrite Hrecv in Hin'. by apply list_elem_of_filter in Hin' as [_ ?].
  - intros Hperm.
    assert (length (filter tied (polls (S k) None db))
            = length (filter tied (changes db))) as Heq
      by (by rewrite Hperm).
    lia.
Qed.

(** 101 comments by 101 authors, the last two in the same clock tick:
    the comment of the last author is never delivered. *)
Lemma polling_skips_ties_witness :
  let stamp (i : nat) := String (ascii_of_nat (48 + Nat.min i 99)) "" in
  let author (i : nat) := String (ascii_of_nat (48 + i)) "" in
  let row (i : nat) :=
    mk_change "comment" "model_Hero" {[ "author" := JStr (author i) ]}
      (stamp i) in
  let db :=
    run ((λ i, AddComment "model_Hero" (author i) "note" (stamp i))
           <$> seq 0 101)
      init_db in
  let last_row := row 100%nat in
  stamped db
  ∧ changes db !! 100%nat = Some last_row
  ∧ (last_row ∉ polls 5 None db)
  ∧ ¬ polls 5 None db ≡ₚ changes db.
Proof.
  intros stamp author row db last_row.
  assert (stamped db) as Hst
    by (apply (bool_decide_unpack (stamped db)); vm_compute; exact I).
  split; [exact Hst|]. split; [by vm_compute|].
  destruct (polling_skips_ties 4 db
              (take 99 (order_by created_asc (changes db)))
              (drop 101 (order_by created_asc (changes db)))
              (row 99%nat) last_row Hst) as (_ & _ & _ & Hlost & Hnot).
  - vm_compute. reflexivity.
  - vm_compute. reflexivity.
  - vm_compute. reflexivity.
  - split; [|exact Hnot]. apply Hlost. intros Hin.
    set (key := λ r : change_row,
                  match ch_payload_json r !! "author" with
                  | Some (JStr a) => a
                  | _ => EmptyString
                  end).
    apply (list_elem_of_fmap_2 key) in Hin. revert Hin.
    apply (bool_decide_unpack
             (key last_row
              ∉ key <$> (take 99 (order_by created_asc (changes db))
                         ++ [row 99%nat]))).
    vm_compute. exact I.
Defined.

(** ** Roles by name *)

Lemma role_rank_lookup (k : string) :
  role_rank !! k
  = if decide (k = "viewer") then Some 1
    else if decide (k = "editor") then Some 2
    else if decide (k = "admin") then Some 3
    else None.
Proof.
  unfold role_rank.
  destruct (decide (k = "viewer")) as [->|?]; [done|].
  destruct (decide (k = "editor")) as [->|?]; [done|].
  destruct (decide (k = "admin")) as [->|?]; [done|].
  by rewrite !lookup_insert_ne, lookup_singleton_ne by done.
Qed.

Ltac gate_cases :=
  repeat match goal with
         | |- context [decide (?x = ?y :> string)] =>
             destruct (decide (x = y :> string)) as [?|?]; subst; try done
         end;
  cbn [default]; repeat case_decide; try done; try lia.

(** X21.  The gate, by role names.  For a key whose role in the table is
    a non-empty string: an [admin] key passes every gate; an [editor] key
    passes every gate but [admin]; a [viewer] key passes every gate but
    [admin] and [editor]; a key with any other role is answered 403 at
    every gate.  A [min_role] that is not one of the three names gates
    like [viewer]. *)
Theorem require_role_names {St : Type} (min_role role : string)
    (func : string → St → response * St)
    (key_file : option (gmap string string)) (x_api_key : option string)
    (st : St) :
  load_keys key_file !! default "" x_api_key = Some role →
  role ≠ "" →
  let answer := require_role min_role func key_file x_api_key st in
  let forbidden := (Jsonify (ErrorBody "Forbidden") 403, st) in
  (role = "admin" → answer = func role st)
  ∧ (role = "editor" →
     answer = if decide (min_role = "admin") then forbidden
              else func role st)
  ∧ (role = "viewer" →
     answer = if decide (min_role = "admin" ∨ min_role = "editor")
              then forbidden else func role st)
  ∧ (role ≠ "admin" → role ≠ "editor" → role ≠ "viewer" →
     answer = forbidden)
  ∧ (min_role ≠ "admin" → min_role ≠ "editor" →
     answer = require_role "viewer" func key_file x_api_key st).
Proof.
  intros Hkey Hne answer forbidden. subst answer forbidden.
  unfold require_role. rewrite Hkey. rewrite !decide_False by done.
  rewrite !role_rank_lookup.
  split; [|split; [|split; [|split]]].
  - intros ->. gate_cases.
  - intros ->. gate_cases.
  - intros ->. gate_cases; tauto.
  - intros H1 H2 H3. gate_cases.
  - intros H1 H2. gate_cases.
Qed.

Lemma require_role_names_witness :
  let probe := λ (role : string) (st : unit), (Jsonify OkBody 200, st) in
  require_role "editor" probe (Some {[ "k1" := "superuser" ]}) (Some "k1") ()
  = (Jsonify (ErrorBody "Forbidden") 403, ())
  ∧ require_role "publisher" probe None (Some "demo-view") ()
    = (Jsonify OkBody 200, ()).
Proof.
  intros probe. split.
  - by apply (require_role_names "editor" "superuser" probe
                (Some {[ "k1" := "superuser" ]}) (Some "k1") ()).
  - destruct (require_role_names "publisher" "viewer" probe None
                (Some "demo-view") ()) as (_ & _ & Hv & _); [done..|].
    by rewrite Hv.
Defined.

(** ** The listing endpoint *)

Lemma handler_filters (q_family q_status : option string) :
  let filters : gmap string string :=
    list_to_map (omap (λ kv : string * option string,
                         match kv.2 with
                         | Some v => Some (kv.1, v)
                         | None => None
                         end)
                   [("family", q_family); ("status", q_status)]) in
  filters !! "family" = q_family ∧ filters !! "status" = q_status.
Proof.
  destruct q_family, q_status; by vm_compute.
Qed.

Lemma sql_window_sublist {A} (limit offset : Z) (l : list A) :
  sql_limit limit (sql_offset offset l) `sublist_of` l.
Proof.
  unfold sql_limit, sql_offset. etrans; [|apply sublist_drop].
  destruct (decide (limit < 0)); [done|apply sublist_take].
Qed.

(** X22.  [GET /api/assets], for a limit and an offset within SQLite's
    integer range.  [count] is the number of items.  Every item is a row
    of the assets table matching each of [family] and [status] that is
    present and non-empty in the query.  Without a [limit] at most 50
    items are returned, and a parameter that is absent takes its default:
    limit 50, offset 0.  Without filters the items are a window of the
    whole table, most recently updated first, rows updated at the same
    time in table order. *)
Theorem list_assets_handler_page (q_family q_status : option string)
    (q_limit q_offset : option Z) (db : DB) :
  sqlite_int (default 50 q_limit) →
  sqlite_int (default 0 q_offset) →
  let '(items, count) :=
    list_assets_handler q_family q_status q_limit q_offset db in
  count = length items
  ∧ (∀ r, r ∈ items →
       r ∈ assets db
       ∧ (∀ v, q_family = Some v → v ≠ "" → a_family r = v)
       ∧ (∀ v, q_status = Some v → v ≠ "" → a_status r = v))
  ∧ (q_limit = None → (count ≤ 50)%nat)
  ∧ (∀ n, q_limit = Some n → 0 ≤ n → (count ≤ Z.to_nat n)%nat)
  ∧ (items, count)
    = list_assets_handler q_family q_status (Some (default 50 q_limit))
        (Some (default 0 q_offset)) db
  ∧ ((q_family = None ∨ q_family = Some "") →
     (q_status = None ∨ q_status = Some "") →
     items
     = sql_limit (default 50 q_limit)
         (sql_offset (default 0 q_offset)
            (order_by updated_desc (assets db)))).
Proof.
  intros _ _. unfold list_assets_handler.
  destruct (handler_filters q_family q_status) as [Hfam Hst].
  set (filters := list_to_map _) in *.
  set (items := list_assets filters _ _ db).
  assert (∀ n, 0 ≤ n → default 50 q_limit = n →
               (length items ≤ Z.to_nat n)%nat) as Hbound.
  { intros n Hn Hq. subst items. unfold list_assets, sql_limit.
    rewrite Hq, decide_False by lia. rewrite length_take. lia. }
  split; [done|]. split; [|split; [|split; [|split]]].
  - intros r Hr. subst items. unfold list_assets in Hr.
    pose proof (elem_of_sublist _ _ _ Hr (sql_window_sublist _ _ _)) as Hin.
    clear Hr. rename Hin into Hr.
    rewrite order_by_Permutation in Hr.
    apply list_elem_of_filter in Hr as [[H1 H2] Hr].
    rewrite Hfam in H1. rewrite Hst in H2.
    split; [done|]. split; by apply where_eq_truthy.
  - intros ->. by apply (Hbound 50).
  - intros n -> Hn. by apply Hbound.
  - done.
  - intros Hf Hs. subst items. unfold list_assets.
    rewrite Hfam, Hst. do 2 f_equal.
    assert (truthy q_family = None) as ->
      by (by destruct Hf as [-> | ->]).
    assert (truthy q_status = None) as ->
      by (by destruct Hs as [-> | ->]).
    f_equal. unfold sql_select. apply filter_all.
    apply Forall_forall. by intros.
Qed.

(** Three assets, the first two created in the same clock tick: the
    listing gives the newest first and the two that tie in table
    order. *)
Lemma list_assets_handler_page_witness :
  let db :=
    run [EnsureAsset "model_A" "A" "model" "" "" "2026-01-01T00:00:01";
         EnsureAsset "model_B" "B" "model" "" "" "2026-01-01T00:00:01";
         EnsureAsset "model_C" "C" "model" "" "" "2026-01-01T00:00:02"]
      init_db in
  sqlite_int 50 ∧ sqlite_int 0
  ∧ a_id <$> (list_assets_handler None None None None db).1
    = ["model_C"; "model_A"; "model_B"].
Proof.
  intros db.
  assert (sqlite_int 50) as Hl by (unfold sqlite_int; lia).
  assert (sqlite_int 0) as Ho by (unfold sqlite_int; lia).
  split; [exact Hl|]. split; [exact Ho|].
  pose proof (list_assets_handler_page None None None None db Hl Ho) as H.
  destruct (list_assets_handler None None None None db) as [items count].
  destruct H as (_ & _ & _ & _ & _ & Hwin).
  cbn [fst]. rewrite Hwin by (by left). reflexivity.
Defined.

(** ** The change feed in call order *)

Lemma change_of_clock (c : call) : ch_created_at (change_of c) = clock_of c.
Proof. by destruct c. Qed.

Lemma StronglySorted_weaken {A} (R1 R2 : relation A) (l : list A) :
  (∀ x y, R1 x y → R2 x y) → StronglySorted R1 l → StronglySorted R2 l.
Proof.
  intros HR. induction 1 as [|x l _ IH Hx]; constructor; [done|].
  eapply Forall_impl; [exact Hx|]. intros y. apply HR.
Qed.

Lemma strictly_sorted_order_by (l : list change_row) :
  StronglySorted (λ r1 r2, ts_lt (ch_created_at r1) (ch_created_at r2)) l →
  order_by created_asc l = l.
Proof.
  intros Hs. apply order_by_sorted.
  apply (StronglySorted_weaken _ _ _ (λ r1 r2, ts_lt_le _ _) Hs).
Qed.

Lemma feed_strictly_sorted (cs : list call) :
  StronglySorted ts_lt (clock_of <$> cs) →
  StronglySorted (λ r1 r2, ts_lt (ch_created_at r1) (ch_created_at r2))
    (change_of <$> filter effective cs).
Proof.
  intros Hs.
  assert (StronglySorted (λ c1 c2, ts_lt (clock_of c1) (clock_of c2)) cs)
    as Hcs.
  { induction cs as [|c cs IH]; [constructor|].
    rewrite fmap_cons in Hs. apply StronglySorted_cons in Hs as [Hc Hs].
    constructor; [by apply IH|]. by rewrite Forall_fmap in Hc. }
  apply (StronglySorted_fmap _ (λ c1 c2, ts_lt (clock_of c1) (clock_of c2))).
  - intros c1 c2. by rewrite !change_of_clock.
  - by apply StronglySorted_filter.
Qed.



(** ** [POST /api/assets], then the asset's detail *)

Lemma upsert_asset_result (payload : asset_payload) (asset_id : string)
    (now1 now2 role : string) (db : DB) :
  p_asset_id payload = Some asset_id →
  asset_id ≠ "" →
  let version :=
    match p_version payload with
    | Some v => if decide (v = 0) then 1 else v
    | None => 1
    end in
  upsert_asset (Some payload) now1 now2 role db
  = (Jsonify (AssetVersionBody asset_id version) 200,
     upsert_version asset_id version (default ∅ (p_metadata payload)) "" now2
       (ensure_asset asset_id (get_or (p_name payload) asset_id)
          (lower (get_or (p_family payload) "unknown"))
          (get_or (p_description payload) "")
          match p_tags payload with
          | TagsList l => String.concat "," l
          | TagsStr s => s
          | TagsMissing => ""
          end now1 db)).
Proof.
  intros Hid Hne version. subst version. unfold upsert_asset. cbv zeta.
  change (default empty_payload (Some payload)) with payload.
  rewrite Hid.
  assert (get_or (Some asset_id) "" = asset_id) as ->.
  { unfold get_or. by rewrite decide_False. }
  by rewrite decide_False.
Qed.

Lemma ensure_asset_head (asset_id name family description tags now : string)
    (db : DB) :
  ∃ x l,
    sql_select (is_asset asset_id)
      (assets (ensure_asset asset_id name family description tags now db))
    = x :: l
    ∧ a_id x = asset_id ∧ a_name x = name ∧ a_family x = family
    ∧ a_updated_at x = now
    ∧ (sql_select (is_asset asset_id) (assets db) = [] →
       x = mk_asset asset_id name family description tags "published"
             now now).
Proof.
  unfold ensure_asset.
  destruct (sql_select (is_asset asset_id) (assets db)) as [|x l] eqn:Hsel.
  - change (assets (insert_change _ _ _ _ (set_assets ?t db))) with t.
    unfold sql_select, sql_insert in *. rewrite filter_app, Hsel.
    rewrite filter_cons_True by done. by eexists _, _.
  - change (assets (insert_change _ _ _ _ (set_assets ?t db))) with t.
    rewrite filter_sql_update_same by done. rewrite Hsel, fmap_cons.
    eexists _, _. split; [done|].
    assert (x ∈ sql_select (is_asset asset_id) (assets db)) as Hin
      by (rewrite Hsel; left).
    apply list_elem_of_filter in Hin as [Hx _].
    by repeat split.
Qed.


